(** * password_generator.py: the generation core, embedded and verified

    The file follows [src/password_generator.py]: the module constants, the
    four core helpers ([build_charset], [estimate_entropy_bits],
    [generate_with_requirements], [generate_passphrase]) and the two methods of
    [PasswordGeneratorWindow] that decide what the core receives
    ([_load_wordlist_from_path] and [on_generate]).  The other methods that
    compute or store something come next ([apply_preset],
    [update_entropy_labels], [on_load_wordlist] with the first statements of
    [__init__], [_wordlist_label_text], [copy_first], [copy_all], [on_save],
    [clear_output]); the methods that only lay out, show, hide, enable or
    persist widgets are not part of this development.

    Modelling decisions:
    - a Python [str] is the list of its Unicode code points ([N]); a one
      character string and a character are the same thing, as in Python;
      the keys of the two dicts of [generate_with_requirements], which are
      only compared, are Rocq strings;
    - a Python [int] is a [Z];
    - a dict that is only looked up ([pools]) is a [gmap]; a dict that is
      iterated ([required]) is the list of its items in insertion order;
    - [secrets] is an oracle: the outcome of the k-th request to the system
      random source is [entropy k], and a computation threads the number of
      requests made so far; [secrets.randbelow n] reduces the outcome modulo
      [n], so that every value below [n] is the outcome of some oracle and the
      model stays executable;
    - an exception is a value of [exn]; a computation either returns or
      raises;
    - a Python [float] is an IEEE 754 binary64 number ([spec_float] with
      53 bits and exponents up to 1024): the product of an int and a float
      converts the int first, which raises OverflowError for an int beyond
      the doubles, and then rounds to nearest, ties to even; [math.log2]
      is the platform's, a parameter of the development;
    - the case of letters is modelled for ASCII and for the two other
      code points whose lowercase is a letter of ASCII; [is_vocabulary]
      delimits the words on which capitalization is stated;
    - the output box gives back the text it was handed with the changes
      that Qt makes to it ([plain_text]). *)

From Stdlib Require Import ZArith NArith List Ascii String Lia Permutation Sorted.
From Stdlib Require Import SpecFloat QArith_base.
From stdpp Require Import base list gmap strings numbers sorting.

#[local] Close Scope Q_scope.
#[local] Open Scope Z_scope.

(** ** Python values *)

Abbreviation str := (list N).

(** A literal of the source, written as a Rocq string (ASCII only). *)
Definition lit (s : string) : str :=
  map N_of_ascii (list_ascii_of_string s).

Definition len {A} (l : list A) : Z := Z.of_nat (List.length l).

(** [not s] on a sequence. *)
Definition is_empty {A} (l : list A) : bool :=
  match l with [] => true | _ :: _ => false end.

(** ** Exceptions *)

(** The [ValueError]s by message: the three of [generate_with_requirements]
    and the one of [secrets.randbelow]. *)
Inductive value_error : Type :=
| Character_set_is_empty
    (* "Character set is empty." *)
| Required_characters_exceed_length (total_req length : Z)
    (* f"Required characters ({total_req}) exceed length {length}." *)
| Requirement_but_empty_set (key : string)
    (* f"Requirement for '{key}' but its character set is empty." *)
| Upper_bound_must_be_positive.
    (* secrets.randbelow: "Upper bound must be positive." *)

Inductive exn : Type :=
| ValueError (msg : value_error)
| IndexError.  (* secrets.choice on an empty sequence, list index out of range *)

Inductive result (A : Type) : Type :=
| Ok (a : A)
| Raise (e : exn).
Arguments Ok {A} a.
Arguments Raise {A} e.

(** ** The random source and computations over it *)

Definition M (A : Type) : Type := nat -> result (A * nat).

Definition ret {A} (a : A) : M A := fun pos => Ok (a, pos).
Definition raise {A} (e : exn) : M A := fun _ => Raise e.
Definition bind {A B} (m : M A) (k : A -> M B) : M B :=
  fun pos =>
    match m pos with
    | Ok (a, pos') => k a pos'
    | Raise e => Raise e
    end.

Notation "'let*' x ':=' m 'in' k" := (bind m (fun x => k))
  (at level 10, x name, m at level 100, k at level 200,
   format "'[v' 'let*'  x  ':='  m  'in'  '/' k ']'").

(** [pools.get(key, "")] *)
Definition pool_of (pools : gmap string str) (key : string) : str :=
  default [] (pools !! key).

Section Secrets.
Variable entropy : nat -> nat.

(** [secrets.randbelow(exclusive_upper_bound)] *)
Definition randbelow (n : Z) : M nat :=
  if n <=? 0 then raise (ValueError Upper_bound_must_be_positive)
  else fun pos => Ok ((entropy pos `mod` Z.to_nat n)%nat, S pos).

(** [secrets.choice(seq)] *)
Definition choice {A} (seq : list A) : M A :=
  if is_empty seq then raise IndexError
  else
    let* i := randbelow (len seq) in
    match seq !! i with
    | Some x => ret x
    | None => raise IndexError
    end.

(** [pw_chars[i], pw_chars[j] = pw_chars[j], pw_chars[i]]: the right-hand
    side is read first, then position [i] and then position [j] are
    written. *)
Definition swap {A} (i j : nat) (pw_chars : list A) : M (list A) :=
  match pw_chars !! j, pw_chars !! i with
  | Some xj, Some xi => ret (<[j := xi]> (<[i := xj]> pw_chars))
  | _, _ => raise IndexError
  end.

(** [for i in range(len(pw_chars) - 1, 0, -1)]: the loop is entered with
    [i = len - 1] and left after [i = 1]; the argument counts the
    iterations left, which is the current index. *)
Fixpoint shuffle_loop {A} (i : nat) (pw_chars : list A) : M (list A) :=
  match i with
  | O => ret pw_chars
  | S i' =>
      let* j := randbelow (Z.of_nat i + 1) in
      let* pw_chars := swap i j pw_chars in
      shuffle_loop i' pw_chars
  end.

Definition shuffle {A} (pw_chars : list A) : M (list A) :=
  shuffle_loop (Z.to_nat (len pw_chars - 1)) pw_chars.

(** [for _ in range(n): pw_chars.append(secrets.choice(pool))] *)
Fixpoint append_choices (n : nat) (pool : str) (pw_chars : str) : M str :=
  match n with
  | O => ret pw_chars
  | S n' =>
      let* c := choice pool in
      append_choices n' pool (pw_chars ++ [c])
  end.

(** [for key, n in required.items(): ...]; a dict is iterated in insertion
    order, so [required] is the list of its items. *)
Fixpoint place_required (pools : gmap string str)
    (required : list (string * Z)) (pw_chars : str) : M str :=
  match required with
  | [] => ret pw_chars
  | (key, n) :: rest =>
      let pool := pool_of pools key in
      if negb (n =? 0) && is_empty pool
      then raise (ValueError (Requirement_but_empty_set key))
      else
        let* pw_chars := append_choices (Z.to_nat n) pool pw_chars in
        place_required pools rest pw_chars
  end.

(** [sum(max(0, n) for n in required.values())] *)
Definition total_required (required : list (string * Z)) : Z :=
  fold_right Z.add 0 (map (fun kn => Z.max 0 (snd kn)) required).

Definition generate_with_requirements (length : Z)
    (pools : gmap string str) (required : list (string * Z))
    (full_charset : str) : M str :=
  if is_empty full_charset then raise (ValueError Character_set_is_empty)
  else
    let total_req := total_required required in
    if total_req >? length
    then raise (ValueError (Required_characters_exceed_length total_req length))
    else
      let* pw_chars := place_required pools required [] in
      let* pw_chars := append_choices (Z.to_nat (length - len pw_chars))
                   full_charset pw_chars in
      let* pw_chars := shuffle pw_chars in
      ret pw_chars.

(** The statements of [generate_with_requirements] that come before the
    shuffle: the characters drawn, in the order they are placed (those of
    the requirements, then the filler). *)
Definition draw_characters (length : Z) (pools : gmap string str)
    (required : list (string * Z)) (full_charset : str) : M str :=
  let* pw_chars := place_required pools required [] in
  append_choices (Z.to_nat (length - len pw_chars)) full_charset pw_chars.

End Secrets.

(** ** The shuffle, as the specification words it

    "for index i from last down to 1, draw a secure random integer j uniformly
    in [0, i], swap elements i and j".  The draws are a parameter: [js] lists
    them in the order they are made. *)

Definition swap_elements {A} (i j : nat) (l : list A) : list A :=
  match l !! i, l !! j with
  | Some xi, Some xj => <[i := xj]> (<[j := xi]> l)
  | _, _ => l
  end.

Fixpoint fisher_yates_from {A} (i : nat) (js : list nat) (l : list A) : list A :=
  match i, js with
  | S i', j :: js' => fisher_yates_from i' js' (swap_elements i j l)
  | _, _ => l
  end.

Definition fisher_yates {A} (js : list nat) (l : list A) : list A :=
  fisher_yates_from (List.length l - 1) js l.

(** One draw per index from [i] down to 1, the draw for index [k] in [0, k]. *)
Fixpoint draws_in_range (i : nat) (js : list nat) : Prop :=
  match i, js with
  | O, [] => True
  | S i', j :: js' => (j <= i)%nat /\ draws_in_range i' js'
  | _, _ => False
  end.

(** The draws the code makes when its loop starts at index [i] with [pos]
    requests already made. *)
Fixpoint shuffle_draws (entropy : nat -> nat) (i pos : nat) : list nat :=
  match i with
  | O => []
  | S i' => (entropy pos `mod` S i)%nat :: shuffle_draws entropy i' (S pos)
  end.

(** The positions of a sequence, and the arrangement of a sequence by a
    list of positions: place [k] of [arrange d sigma l] holds the element
    that [l] has at position [sigma_k]. *)
Definition positions {A} (l : list A) : list nat := seq 0 (List.length l).

Definition arrange {A} (d : A) (sigma : list nat) (l : list A) : list A :=
  map (fun k => nth k l d) sigma.

(** The random source that hands out the draws [js] from request [pos] on. *)
Definition entropy_of_draws (pos : nat) (js : list nat) : nat -> nat :=
  fun k => nth (k - pos) js O.

(** All the vectors of draws in range for a loop that starts at index [i]. *)
Fixpoint all_draws (i : nat) : list (list nat) :=
  match i with
  | O => [[]]
  | S i' => seq 0 (S i) ≫= (fun j => cons j <$> all_draws i')
  end.

(** The number of vectors of draws in range by which the shuffle turns [l]
    into [p]. *)
Definition ways_from `{EqDecision A} (i : nat) (l p : list A) : nat :=
  List.length
    (filter (fun js => fisher_yates_from i js l = p) (all_draws i)).

Definition ways `{EqDecision A} (l p : list A) : nat :=
  ways_from (List.length l - 1) l p.

Definition occurrences `{EqDecision A} (x : A) (l : list A) : nat :=
  List.length (filter (fun y => y = x) l).

(** The product of the factorials of the multiplicities of the elements. *)
Fixpoint repeats `{EqDecision A} (l : list A) : nat :=
  match l with
  | [] => 1
  | x :: rest => (S (occurrences x rest) * repeats rest)%nat
  end.

(** The chance that the shuffle turns [l] into [p] when the draw for each
    index [i] is uniform in [0, i] and the draws are independent, so that
    every vector of draws in range is as likely as any other: the number
    of the vectors that give [p] over the number of vectors. *)
Definition chance `{EqDecision A} (l p : list A) : Q :=
  Qmake (Z.of_nat (ways l p)) (Pos.of_nat (fact (List.length l))).

(** ** What the claims measure *)

(** The sum of the required counts, as the specification writes it. *)
Definition sum_counts (required : list (string * Z)) : Z :=
  fold_right Z.add 0 (map snd required).

(** How many characters of [s] belong to [pool]. *)
Definition count_in (pool s : str) : nat :=
  List.length (filter (fun c => c ∈ pool) s).

(** The error kinds of the specification (its section on error handling),
    and the kind each message of the code stands for. *)
Inductive error_kind : Type :=
| EmptyCharset
| RequirementExceedsLength
| EmptyRequiredPool
| EmptyVocabulary.

Definition kind_of_exn (e : exn) : option error_kind :=
  match e with
  | ValueError Character_set_is_empty => Some EmptyCharset
  | ValueError (Required_characters_exceed_length _ _) =>
      Some RequirementExceedsLength
  | ValueError (Requirement_but_empty_set _) => Some EmptyRequiredPool
  | ValueError Upper_bound_must_be_positive => None
  | IndexError => None
  end.

(** A class whose requirement cannot be met: the count is not zero and the
    pool is empty. *)
Definition unmet (pools : gmap string str) (kn : string * Z) : Prop :=
  snd kn <> 0 /\ pool_of pools (fst kn) = [].

(** The place of the first occurrence of [x] in [l] (the length of [l] when
    there is none). *)
Fixpoint first_index `{EqDecision A} (x : A) (l : list A) : nat :=
  match l with
  | [] => O
  | y :: rest => if decide (x = y) then O else S (first_index x rest)
  end.

(** [l] lists its elements in the order of their first occurrences in
    [reference]. *)
Definition in_first_occurrence_order `{EqDecision A}
    (reference l : list A) : Prop :=
  StronglySorted
    (fun a b => (first_index a reference < first_index b reference)%nat) l.

#[global] Instance unmet_dec pools kn : Decision (unmet pools kn).
Proof. unfold unmet. apply _. Defined.

(** The characters placed for the classes: one segment per item of
    [required], in order. *)
Definition segment_for (pools : gmap string str) (kn : string * Z)
    (seg : str) : Prop :=
  List.length seg = Z.to_nat (snd kn)
  /\ Forall (fun c => c ∈ pool_of pools (fst kn)) seg.

(** ** Built-in operations on [str]

    The built-ins below depend on the Unicode character database.  White
    space is a short, fixed list and is given in full.  The case mappings
    are given for the ASCII range and for the two other code points whose
    lowercase form begins with an ASCII letter (U+0130, capital I with dot
    above, lowers to "i" followed by U+0307; U+212A, the Kelvin sign, lowers
    to "k"); every other code point is left as it is, where Python maps it
    to code points outside ASCII.  So [lower] and [capitalize] are those of
    Python on the strings made of ASCII characters and of these two code
    points, and the test [acceptable] of the word list loader, which only
    compares a lowered character with "a" and "z", is the test of Python on
    every character. *)

#[local] Open Scope N_scope.

(** The characters [str.strip()] removes. *)
Definition isspace (c : N) : bool :=
  ((0x09 <=? c) && (c <=? 0x0D)) || ((0x1C <=? c) && (c <=? 0x20))
  || (c =? 0x85) || (c =? 0xA0) || (c =? 0x1680)
  || ((0x2000 <=? c) && (c <=? 0x200A))
  || (c =? 0x2028) || (c =? 0x2029) || (c =? 0x202F) || (c =? 0x205F)
  || (c =? 0x3000).

Fixpoint lstrip (s : str) : str :=
  match s with
  | c :: rest => if isspace c then lstrip rest else s
  | [] => []
  end.

Definition rstrip (s : str) : str := rev (lstrip (rev s)).

Definition strip (s : str) : str := rstrip (lstrip s).

Definition is_ascii_upper (c : N) : bool := (0x41 <=? c) && (c <=? 0x5A).
Definition is_ascii_lower (c : N) : bool := (0x61 <=? c) && (c <=? 0x7A).

(** [ch.lower()], for the characters of ASCII, for the two other code
    points that lower to a letter of ASCII (U+0130 and U+212A) and for the
    characters without case.  The other cased letters of Unicode are left
    as they are, which is not what [str.lower] does. *)
Definition lower_char (c : N) : str :=
  if is_ascii_upper c then [c + 0x20]
  else if c =? 0x130 then [0x69; 0x307]
  else if c =? 0x212A then [0x6B]
  else [c].

(** [s.lower()] *)
Definition lower (s : str) : str := concat (map lower_char s).

(** The uppercase (and titlecase) form of a character, with the same
    proviso: the letters of ASCII, and the characters without case. *)
Definition upper_char (c : N) : str :=
  if is_ascii_lower c then [c - 0x20] else [c].

(** [s.capitalize()]: the first character in its titlecase form, the others
    lowered.  It is [str.capitalize] on the texts whose cased letters are
    all letters of ASCII. *)
Definition capitalize (s : str) : str :=
  match s with
  | [] => []
  | c :: rest => upper_char c ++ lower rest
  end.

(** [s <= t] on strings: lexicographic on code points. *)
Fixpoint str_le (s t : str) : bool :=
  match s, t with
  | [], _ => true
  | _ :: _, [] => false
  | a :: s', b :: t' =>
      if a <? b then true else if a =? b then str_le s' t' else false
  end.

#[local] Close Scope N_scope.

(** [sep.join(parts)] *)
Fixpoint join (sep : str) (parts : list str) : str :=
  match parts with
  | [] => []
  | [w] => w
  | w :: rest => w ++ sep ++ join sep rest
  end.

(** ** Constants *)

Definition AMBIGUOUS : gset N := list_to_set (lit "Il1O0B8S5Z2QG6").
Definition DEFAULT_SYMBOLS : str := lit "!@#$%^&*()-_=+[]{};:,./?~".

Definition ascii_lowercase : str := lit "abcdefghijklmnopqrstuvwxyz".
Definition ascii_uppercase : str := lit "ABCDEFGHIJKLMNOPQRSTUVWXYZ".
Definition digits : str := lit "0123456789".

Definition FALLBACK_WORDS : list str :=
  map lit [
    "able"; "about"; "above"; "acid"; "acorn"; "actor"; "adapt"; "agent"; "agree"; "ahead"; "album"; "alert"; "alien"; "alpha";
    "amber"; "angle"; "ankle"; "apple"; "april"; "arena"; "argue"; "arise"; "armor"; "arrow"; "asset"; "audio"; "autumn"; "award";
    "avoid"; "awake"; "bacon"; "badge"; "basic"; "batch"; "beach"; "beard"; "beast"; "begin"; "bench"; "berry"; "bingo"; "birch";
    "black"; "blade"; "blank"; "blend"; "bless"; "blind"; "block"; "blond"; "blood"; "board"; "boost"; "bound"; "brave"; "bread";
    "brick"; "bride"; "bring"; "broad"; "broom"; "brown"; "brush"; "buddy"; "build"; "cabin"; "cable"; "candy"; "canoe"; "cargo";
    "carry"; "carve"; "cause"; "cease"; "chain"; "chair"; "chalk"; "champ"; "chart"; "cheek"; "chess"; "chief"; "child"; "cider";
    "civic"; "claim"; "clerk"; "clock"; "cloud"; "coach"; "coast"; "cobra"; "cocoa"; "color"; "comic"; "coral"; "couch"; "cover";
    "craft"; "crane"; "crash"; "cream"; "creek"; "crisp"; "crown"; "cycle"; "daily"; "dairy"; "dance"; "debut"; "delay"; "delta";
    "dense"; "depth"; "digit"; "diner"; "dodge"; "dough"; "draft"; "drama"; "dream"; "drift"; "drink"; "drive"; "eager"; "eagle";
    "early"; "earth"; "ebony"; "eight"; "elbow"; "elder"; "elite"; "ember"; "empty"; "enter"; "equal"; "equip"; "event"; "every";
    "exact"; "exile"; "exist"; "extra"; "fable"; "fairy"; "faith"; "false"; "fancy"; "feast"; "fiber"; "field"; "fiery"; "fight";
    "final"; "flame"; "flash"; "flute"; "focus"; "force"; "forge"; "frame"; "fresh"; "frost"; "fuzzy"; "giant"; "ginger"; "girth";
    "glade"; "glare"; "glide"; "globe"; "glory"; "glove"; "grace"; "grade"; "grain"; "grand"; "grape"; "grass"; "grave"; "green";
    "grind"; "groom"; "group"; "guide"; "habit"; "happy"; "harsh"; "harbor"; "hazel"; "heart"; "heavy"; "hedge"; "hello"; "hobby";
    "honey"; "honor"; "horse"; "house"; "human"; "humor"; "ivory"; "jelly"; "jolly"; "judge"; "juice"; "jumpy"; "knack"; "kneel";
    "knife"; "koala"; "label"; "labor"; "lacey"; "ladle"; "lager"; "laser"; "later"; "laugh"; "layer"; "learn"; "lemon"; "level";
    "light"; "lilac"; "liver"; "lodge"; "logic"; "loyal"; "lucky"; "lunar"; "lunch"; "magic"; "mango"; "maple"; "march"; "marsh";
    "match"; "meadow"; "merit"; "metal"; "micro"; "mimic"; "mines"; "minor"; "model"; "money"; "month"; "moral"; "motor"; "mount";
    "movie"; "music"; "naive"; "navy"; "nearly"; "neon"; "nerve"; "never"; "noble"; "noisy"; "north"; "novel"; "nurse"; "nymph";
    "oasis"; "ocean"; "offer"; "often"; "olive"; "onion"; "opera"; "orbit"; "order"; "organ"; "outer"; "owner"; "oxide"; "ozone";
    "panda"; "panel"; "panic"; "paper"; "parka"; "patch"; "patio"; "peach"; "pearl"; "penny"; "perch"; "phase"; "phone"; "photo";
    "piano"; "piece"; "pilot"; "pizza"; "plain"; "plane"; "plant"; "plate"; "plaza"; "polar"; "porch"; "pound"; "power"; "pride";
    "prime"; "print"; "prize"; "proud"; "pulse"; "punch"; "puppy"; "purse"; "pylon"; "queen"; "quick"; "quiet"; "quilt"; "quota";
    "quote"; "ranch"; "raven"; "reach"; "ready"; "relax"; "reply"; "rhino"; "rider"; "ridge"; "right"; "river"; "robot"; "rocky";
    "roger"; "roman"; "rough"; "round"; "royal"; "rugby"; "ruler"; "rural"; "salad"; "salsa"; "sandy"; "scarf"; "scene"; "scoop";
    "score"; "scout"; "scrub"; "seize"; "sense"; "seven"; "shark"; "sheep"; "shelf"; "shine"; "shore"; "short"; "shrub"; "sight";
    "siren"; "skate"; "skill"; "skirt"; "skull"; "slate"; "slice"; "slope"; "small"; "smart"; "smile"; "smoke"; "snake"; "sneak";
    "sniff"; "solar"; "solid"; "sonic"; "sound"; "south"; "space"; "spare"; "spark"; "speak"; "speed"; "spice"; "spike"; "spoon";
    "sport"; "spray"; "squad"; "stack"; "stage"; "stain"; "stair"; "stake"; "stamp"; "stand"; "start"; "steam"; "steel"; "steep";
    "stool"; "storm"; "story"; "straw"; "strip"; "stuck"; "style"; "sugar"; "sunny"; "super"; "swamp"; "swing"; "table"; "tango";
    "tasty"; "teach"; "tease"; "tenth"; "tiger"; "toast"; "token"; "topic"; "torch"; "total"; "touch"; "tower"; "toxic"; "trace";
    "trail"; "train"; "treat"; "trend"; "trial"; "tribe"; "trout"; "truly"; "trust"; "truth"; "tweet"; "twice"; "uncle"; "under";
    "union"; "urban"; "usage"; "vapor"; "vivid"; "vocal"; "voter"; "wagon"; "waist"; "waltz"; "waste"; "watch"; "water"; "weary";
    "wheat"; "wheel"; "whisk"; "white"; "whole"; "windy"; "wiser"; "woman"; "world"; "worry"; "worth"; "woven"; "wrist"; "xenon";
    "young"; "youth"; "zebra"; "zesty"; "zonal"
  ]%string.

(** ** Core helpers *)

(** The loop "de-dup preserving order", which the source writes twice (for
    the characters of a charset and for the words of a word list):
    [seen, out = set(), []], then every element not yet in [seen] is added
    to [seen] and appended to [out]. *)
Definition dedup_step `{Countable A} (st : gset A * list A) (x : A)
    : gset A * list A :=
  if decide (x ∈ st.1) then st else ({[x]} ∪ st.1, st.2 ++ [x]).

Definition dedup `{Countable A} (l : list A) : list A :=
  (fold_left dedup_step l (∅, [])).2.

(** The symbols in use: [custom_symbols.strip()] unless it is empty, the
    default symbols otherwise ([build_charset] and [on_generate] both compute
    them). *)
Definition symbols_of (custom_symbols : str) : str :=
  if negb (is_empty (strip custom_symbols)) then strip custom_symbols
  else DEFAULT_SYMBOLS.

(** The value of [charset] before the exclusion of ambiguous characters. *)
Definition candidates (include_lower include_upper include_digits
    include_symbols : bool) (custom_symbols : str) : str :=
  let charset := [] in
  let charset :=
    if include_lower then charset ++ ascii_lowercase else charset in
  let charset :=
    if include_upper then charset ++ ascii_uppercase else charset in
  let charset :=
    if include_digits then charset ++ digits else charset in
  if include_symbols then charset ++ symbols_of custom_symbols else charset.

Definition build_charset (include_lower include_upper include_digits
    include_symbols : bool) (custom_symbols : str) (exclude_ambiguous : bool)
    : str :=
  let charset :=
    candidates include_lower include_upper include_digits include_symbols
      custom_symbols in
  let charset :=
    if exclude_ambiguous
    then filter (fun ch => ch ∉ AMBIGUOUS) charset
    else charset in
  dedup charset.

(** ** Floats

    A Python [float] is an IEEE 754 binary64 number: a [spec_float] of the
    Standard Library with 53 bits of precision and exponents up to 1024.
    Its arithmetic rounds to the nearest double, ties to even. *)
Abbreviation float := spec_float.

Definition float_zero : float := S754_zero false.   (* 0.0 *)

(** What the arithmetic of the source may raise. *)
Inductive float_error : Type :=
| OverflowError
    (* "int too large to convert to float" *)
| Math_domain_error.
    (* ValueError of [math.log2] on an int that is not positive *)

Inductive computed (A : Type) : Type :=
| Returns (a : A)
| Raises (e : float_error).
Arguments Returns {A} a.
Arguments Raises {A} e.

(** The conversion an int goes through when it meets a float in a product:
    the nearest double, ties to even; an int whose nearest double would be
    [2 ^ 1024] or more raises OverflowError. *)
Definition float_of_int (n : Z) : computed float :=
  match binary_normalize 53 1024 n 0 false with
  | S754_infinity _ => Raises OverflowError
  | x => Returns x
  end.

(** [n * x] for an int [n] and a float [x]: [n] is converted, then the
    doubles are multiplied.  The product itself never raises: beyond the
    largest double it is an infinity. *)
Definition int_mul_float (n : Z) (x : float) : computed float :=
  match float_of_int n with
  | Returns f => Returns (SFmul 53 1024 f x)
  | Raises e => Raises e
  end.

(** [math.log2] belongs to the platform: on a positive int it returns the
    double that the C library computes, which is not fixed here. *)
Class MathLibrary : Type := {
  log2_of_positive : Z -> float;
}.

(** [math.log2(n)] for an int [n] *)
Definition math_log2 `{MathLibrary} (n : Z) : computed float :=
  if n <=? 0 then Raises Math_domain_error
  else Returns (log2_of_positive n).

(** The first int that is too large to convert to a float. *)
Definition int_too_large : Z := 2 ^ 1024 - 2 ^ 970.

Definition estimate_entropy_bits `{MathLibrary} (length charset_size : Z)
    : computed float :=
  if (length <=? 0) || (charset_size <=? 1) then Returns float_zero
  else
    match math_log2 charset_size with
    | Returns x => int_mul_float length x
    | Raises e => Raises e
    end.

(** [[m() for _ in range(n)]] *)
Fixpoint repeat_M {A} (n : nat) (m : M A) : M (list A) :=
  match n with
  | O => ret []
  | S n' =>
      let* x := m in
      let* xs := repeat_M n' m in
      ret (x :: xs)
  end.

Definition generate_passphrase (entropy : nat -> nat) (n_words : Z)
    (words : list str) (sep : str) (cap : bool) : M str :=
  let* picks := repeat_M (Z.to_nat n_words) (choice entropy words) in
  let picks := if cap then map capitalize picks else picks in
  ret (join sep picks).

(** ** The window: word list loading and the Generate button *)

(** The texts of [show_error] and of the warning box. *)
Inductive error_message : Type :=
| No_usable_words
    (* "No usable words found in the selected file." *)
| Failed_to_load_wordlist
    (* f"Failed to load wordlist:\n{exc}" *)
| No_wordlist_available
    (* "No wordlist available. Load a wordlist first." *)
| Select_a_character_class
    (* "Please select at least one character class." *)
| Charset_empty_after_exclusions
    (* "The character set is empty after applying exclusions." *)
| Total_required_exceed_length (total_req length : Z)
    (* f"Total required characters ({total_req}) exceed length {length}. ..." *)
| Generation_failed (exc : exn).
    (* f"Generation failed:\n{exc}" *)

Inductive dialog : Type :=
| Warning_wordlist_too_small   (* QMessageBox.warning, "Wordlist too small" *)
| Error (msg : error_message). (* QMessageBox.critical, "Error" *)

(** The kind of the specification a message of the window stands for. *)
Definition kind_of_message (msg : error_message) : option error_kind :=
  match msg with
  | No_usable_words => Some EmptyVocabulary
  | No_wordlist_available => Some EmptyVocabulary
  | Select_a_character_class => Some EmptyCharset
  | Charset_empty_after_exclusions => Some EmptyCharset
  | Total_required_exceed_length _ _ => Some RequirementExceedsLength
  | Generation_failed exc => kind_of_exn exc
  | Failed_to_load_wordlist => None
  end.

(** The state of [PasswordGeneratorWindow] that the two methods read or
    write: the word list and the values of the widgets. *)
Record window : Type := {
  wordlist : list str;
  preset_combo : Z;              (* preset_combo.currentIndex() *)
  cmb_mode : str;                (* cmb_mode.currentText() *)
  spin_count : Z;
  spin_words : Z;
  txt_separator : str;
  chk_capitalize : bool;
  chk_lower : bool;
  chk_upper : bool;
  chk_digits : bool;
  chk_symbols : bool;
  chk_exclude_ambiguous : bool;
  txt_custom_symbols : str;
  spin_length : Z;
  min_lower : Z;
  min_upper : Z;
  min_digits : Z;
  min_symbols : Z;
  out : str;                     (* out.toPlainText() *)
}.

(** [self.wordlist = filtered] *)
Definition set_wordlist (w : window) (filtered : list str) : window :=
  {| wordlist := filtered;
     preset_combo := preset_combo w; cmb_mode := cmb_mode w;
     spin_count := spin_count w; spin_words := spin_words w;
     txt_separator := txt_separator w; chk_capitalize := chk_capitalize w;
     chk_lower := chk_lower w; chk_upper := chk_upper w;
     chk_digits := chk_digits w; chk_symbols := chk_symbols w;
     chk_exclude_ambiguous := chk_exclude_ambiguous w;
     txt_custom_symbols := txt_custom_symbols w;
     spin_length := spin_length w;
     min_lower := min_lower w; min_upper := min_upper w;
     min_digits := min_digits w; min_symbols := min_symbols w;
     out := out w |}.

(** The output box [self.out] is a [QPlainTextEdit], and what its
    [toPlainText] gives back is not always the text [setPlainText] was
    handed.  Qt keeps the text as paragraphs: a new one starts at a line
    feed, at a carriage return (a carriage return and the line feed after
    it count once), at U+2029 and at U+FDD0 and U+FDD1, which Qt keeps for
    its own use.  [toPlainText] gives a line feed for the end of each
    paragraph and for U+2028, and a space for U+00A0. *)
Fixpoint plain_text (text : str) : str :=
  match text with
  | [] => []
  | c :: rest =>
      if (c =? 0x0D)%N then
        0x0A%N :: match rest with
                  | c' :: rest' =>
                      if (c' =? 0x0A)%N then plain_text rest'
                      else plain_text rest
                  | [] => []
                  end
      else if (c =? 0x2028)%N || (c =? 0x2029)%N
              || (c =? 0xFDD0)%N || (c =? 0xFDD1)%N
      then 0x0A%N :: plain_text rest
      else if (c =? 0xA0)%N then 0x20%N :: plain_text rest
      else c :: plain_text rest
  end.

(** [self.out.setPlainText(text)]: [out] is what [toPlainText] returns
    from then on. *)
Definition setPlainText (w : window) (text : str) : window :=
  {| wordlist := wordlist w;
     preset_combo := preset_combo w; cmb_mode := cmb_mode w;
     spin_count := spin_count w; spin_words := spin_words w;
     txt_separator := txt_separator w; chk_capitalize := chk_capitalize w;
     chk_lower := chk_lower w; chk_upper := chk_upper w;
     chk_digits := chk_digits w; chk_symbols := chk_symbols w;
     chk_exclude_ambiguous := chk_exclude_ambiguous w;
     txt_custom_symbols := txt_custom_symbols w;
     spin_length := spin_length w;
     min_lower := min_lower w; min_upper := min_upper w;
     min_digits := min_digits w; min_symbols := min_symbols w;
     out := plain_text text |}.

Definition LF : N := 0x0A%N.
Definition CR : N := 0x0D%N.
Definition APOSTROPHE : N := 0x27%N.
Definition HYPHEN : N := 0x2D%N.

(** [for line in f] on a file opened in text mode: the text is cut after
    every line end, and the line ends "\r\n" and "\r" are read as "\n".
    [cur] is the part of the current line already read. *)
Fixpoint readlines_from (cur text : str) : list str :=
  match text with
  | [] => if is_empty cur then [] else [cur]
  | c :: rest =>
      if (c =? LF)%N then (cur ++ [LF]) :: readlines_from [] rest
      else if (c =? CR)%N then
        match rest with
        | c' :: rest' =>
            if (c' =? LF)%N then (cur ++ [LF]) :: readlines_from [] rest'
            else (cur ++ [LF]) :: readlines_from [] rest
        | [] => [cur ++ [LF]]
        end
      else readlines_from (cur ++ [c]) rest
  end.

Definition readlines (text : str) : list str := readlines_from [] text.

(** [("a" <= ch.lower() <= "z") or ch in ("'", "-")] *)
Definition acceptable (ch : N) : bool :=
  (str_le (lit "a") (lower_char ch) && str_le (lower_char ch) (lit "z"))
  || ((ch =? APOSTROPHE)%N || (ch =? HYPHEN)%N).

(** The body of [for line in f]. *)
Definition scan_line (words : list str) (line : str) : list str :=
  let w := strip line in
  if is_empty w then words
  else if forallb acceptable w then words ++ [lower w]
  else words.

(** The value of [filtered] for the text of a file. *)
Definition filtered_words (text : str) : list str :=
  dedup (fold_left scan_line (readlines text) []).

(** [_load_wordlist_from_path]: [file] is the text [open(path, ...)] gives
    (decoded, undecodable bytes ignored), or [None] when opening or reading
    raises.  The result is the window, the dialogs shown and the value
    returned. *)
Definition _load_wordlist_from_path (w : window) (file : option str)
    : window * list dialog * bool :=
  match file with
  | None => (w, [Error Failed_to_load_wordlist], false)
  | Some text =>
      let filtered := filtered_words text in
      let shown :=
        if len filtered <? 256 then [Warning_wordlist_too_small] else [] in
      if negb (is_empty filtered)
      then (set_wordlist w filtered, shown, true)
      else (w, shown ++ [Error No_usable_words], false)
  end.

(** The number of secrets [on_generate] asks for:
    [spin_count.value() if cmb_mode.currentText().lower() == "multiple"
     else 1]. *)
Definition count_of_window (w : window) : Z :=
  if bool_decide (lower (cmb_mode w) = lit "multiple") then spin_count w
  else 1.

(** The pools and requirements [on_generate] builds for the character mode
    (a class that is not selected has no pool and requires 0). *)
Definition pools_of_window (w : window) (charset : str) : gmap string str :=
  let keep (alphabet : str) := filter (fun ch => ch ∈ charset) alphabet in
  let pools : gmap string str := ∅ in
  let pools :=
    if chk_lower w then <["lower"%string := keep ascii_lowercase]> pools
    else pools in
  let pools :=
    if chk_upper w then <["upper"%string := keep ascii_uppercase]> pools
    else pools in
  let pools :=
    if chk_digits w then <["digits"%string := keep digits]> pools
    else pools in
  if chk_symbols w
  then <["symbols"%string := keep (symbols_of (txt_custom_symbols w))]> pools
  else pools.

Definition req_of_window (w : window) : list (string * Z) :=
  [("lower"%string, if chk_lower w then min_lower w else 0);
   ("upper"%string, if chk_upper w then min_upper w else 0);
   ("digits"%string, if chk_digits w then min_digits w else 0);
   ("symbols"%string, if chk_symbols w then min_symbols w else 0)].

(** [on_generate]: everything runs inside [try: ... except Exception], so an
    exception of the core ends in an error box.  The result is the window
    and the dialogs shown. *)
Definition on_generate (entropy : nat -> nat) (w : window) (pos : nat)
    : window * list dialog :=
  let count := count_of_window w in
  let passphrase_mode := preset_combo w =? 4 in
  if passphrase_mode then
    let n := spin_words w in
    let sep :=
      if negb (is_empty (txt_separator w)) then txt_separator w
      else lit "-" in
    let cap := chk_capitalize w in
    if is_empty (wordlist w) then (w, [Error No_wordlist_available])
    else
      match repeat_M (Z.to_nat count)
              (generate_passphrase entropy n (wordlist w) sep cap) pos with
      | Ok (passwords, _) => (setPlainText w (join [LF] passwords), [])
      | Raise exc => (w, [Error (Generation_failed exc)])
      end
  else
    let length := spin_length w in
    if negb (chk_lower w || chk_upper w || chk_digits w || chk_symbols w)
    then (w, [Error Select_a_character_class])
    else
      let charset :=
        build_charset (chk_lower w) (chk_upper w) (chk_digits w)
          (chk_symbols w) (txt_custom_symbols w) (chk_exclude_ambiguous w) in
      if is_empty charset then (w, [Error Charset_empty_after_exclusions])
      else
        let pools := pools_of_window w charset in
        let req := req_of_window w in
        let total_req := sum_counts req in
        if total_req >? length
        then (w, [Error (Total_required_exceed_length total_req length)])
        else
          match repeat_M (Z.to_nat count)
                  (generate_with_requirements entropy length pools req
                     charset) pos with
          | Ok (passwords, _) => (setPlainText w (join [LF] passwords), [])
          | Raise exc => (w, [Error (Generation_failed exc)])
          end.

(** ** More of what the claims measure *)

(** *** Rounding, and the order of the doubles *)

(** Round to nearest, ties to even, of [m / 2 ^ k]. *)
Definition round_half_even (m k : Z) : Z :=
  let q := m / 2 ^ k in
  let rest := m mod 2 ^ k in
  if (2 ^ k <? 2 * rest) || ((2 ^ k =? 2 * rest) && Z.odd q) then q + 1
  else q.

(** The order of the values [m * 2 ^ e], without fractions: both sides are
    brought to an exponent [c] below the two exponents. *)
Definition value_le (m e m' e' : Z) : Prop :=
  exists c, c <= e /\ c <= e' /\ m * 2 ^ (e - c) <= m' * 2 ^ (e' - c).

(** The double for a rounded mantissa [N] of 53 bits (or [2 ^ 53]) and an
    exponent. *)
Definition rounded (N E : Z) : spec_float :=
  if N =? 2 ^ 53
  then if E + 1 <=? 971 then S754_finite false (2 ^ 52)%positive (E + 1)
       else S754_infinity false
  else if E <=? 971 then S754_finite false (Z.to_pos N) E
       else S754_infinity false.

(** A positive normal double: its mantissa has 53 bits. *)
Definition is_normal_positive (x : float) : Prop :=
  match x with
  | S754_finite false m e => Z.pos (digits2_pos m) = 53 /\ -1074 <= e <= 971
  | _ => False
  end.

(** A C library for the examples, which ask for the logarithms of 2 and
    of 26 only: [1.0] and [0x1.2cd4011c8f119p+2], the doubles [math.log2]
    gives with glibc.  For any other int this library answers NaN. *)
Definition example_library : MathLibrary :=
  {| log2_of_positive := fun n =>
       if n =? 2 then S754_finite false 0x10000000000000 (-52)
       else if n =? 26 then S754_finite false 0x12cd4011c8f119 (-50)
       else S754_nan |}.

(** The words a passphrase is made of: each is the word of the list at the
    position the next request to the random source gives. *)
Fixpoint drawn_words (entropy : nat -> nat) (pos n : nat)
    (words : list str) : list str :=
  match n with
  | O => []
  | S n' =>
      nth (entropy pos `mod` List.length words)%nat words []
      :: drawn_words entropy (S pos) n' words
  end.

(** "Uppercase the first letter" of a word, as the specification words the
    capitalization: the first character in uppercase, the others as they
    are. *)
Definition uppercase_first (w : str) : str :=
  match w with
  | [] => []
  | c :: rest => upper_char c ++ rest
  end.

(** What [_load_wordlist_from_path] does with one line: the word it adds to
    [words], if any. *)
Definition word_of_line (line : str) : option str :=
  let w := strip line in
  if is_empty w then None
  else if forallb acceptable w then Some (lower w)
  else None.

(** An ASCII letter, an apostrophe or a hyphen. *)
Definition letter_apostrophe_or_hyphen (ch : N) : bool :=
  is_ascii_lower ch || is_ascii_upper ch
  || (ch =? APOSTROPHE)%N || (ch =? HYPHEN)%N.

Definition KELVIN_SIGN : N := 0x212A%N.
Definition CAPITAL_I_WITH_DOT_ABOVE : N := 0x130%N.
Definition COMBINING_DOT_ABOVE : N := 0x307%N.

(** ** Two windows *)

(** A window in passphrase mode whose word list is empty. *)
Definition window_without_words : window :=
  {| wordlist := [];
     preset_combo := 4; cmb_mode := lit "Single";
     spin_count := 10; spin_words := 6;
     txt_separator := lit "-"; chk_capitalize := false;
     chk_lower := true; chk_upper := true;
     chk_digits := true; chk_symbols := true;
     chk_exclude_ambiguous := false;
     txt_custom_symbols := [];
     spin_length := 16;
     min_lower := 1; min_upper := 1; min_digits := 1; min_symbols := 1;
     out := [] |}.

(** The "Strong" preset with its defaults, a single password asked for:
    the example of the specification (all classes, length 20, one character
    of each class at least, default symbols, ambiguous characters
    excluded). *)
Definition strong_preset_window : window :=
  {| wordlist := FALLBACK_WORDS;
     preset_combo := 2; cmb_mode := lit "Single";
     spin_count := 10; spin_words := 6;
     txt_separator := lit "-"; chk_capitalize := false;
     chk_lower := true; chk_upper := true;
     chk_digits := true; chk_symbols := true;
     chk_exclude_ambiguous := true;
     txt_custom_symbols := [];
     spin_length := 20;
     min_lower := 1; min_upper := 1; min_digits := 1; min_symbols := 1;
     out := [] |}.

(** ** The rest of the window

    The methods below read and write the same widgets.  What a method only
    displays (which widgets are visible or enabled, the text of a label) is
    left out; what it computes or stores is kept. *)

(** The charset [on_generate] and [update_entropy_labels] both build from
    the widgets. *)
Definition charset_of_window (w : window) : str :=
  build_charset (chk_lower w) (chk_upper w) (chk_digits w) (chk_symbols w)
    (txt_custom_symbols w) (chk_exclude_ambiguous w).

(** [update_entropy_labels]: the two quantities its labels show, the size
    (of the word list or of the charset) and the bits.  A label whose
    quantity is falsy reads "—" (the size in character mode, the bits in
    both modes).  The bits are computed before any label is set: when
    their computation raises, the method raises and no label changes. *)
Definition update_entropy_labels `{MathLibrary} (w : window)
    : Z * computed float :=
  let passphrase_mode := preset_combo w =? 4 in
  if passphrase_mode then
    let n := spin_words w in
    let vocab := Z.max 1 (len (wordlist w)) in
    let bits :=
      if vocab >? 1 then
        match math_log2 vocab with
        | Returns x => int_mul_float n x
        | Raises e => Raises e
        end
      else Returns float_zero in
    (vocab, bits)
  else
    let charset := charset_of_window w in
    let charset_size := len charset in
    let length := spin_length w in
    let bits := estimate_entropy_bits length charset_size in
    (charset_size, bits).

(** The assignments of a character preset: each class with its minimum
    count, the length and the exclusion of ambiguous characters.  The
    values a preset stores lie within the ranges of the spin boxes (a
    minimum count between 0 and the length, the length between 4 and 200),
    so [setValue] stores them unchanged. *)
Definition set_character_controls (w : window)
    (lower : bool) (n_lower : Z) (upper : bool) (n_upper : Z)
    (digits : bool) (n_digits : Z) (symbols : bool) (n_symbols : Z)
    (length : Z) (exclude_ambiguous : bool) : window :=
  {| wordlist := wordlist w;
     preset_combo := preset_combo w; cmb_mode := cmb_mode w;
     spin_count := spin_count w; spin_words := spin_words w;
     txt_separator := txt_separator w; chk_capitalize := chk_capitalize w;
     chk_lower := lower; chk_upper := upper;
     chk_digits := digits; chk_symbols := symbols;
     chk_exclude_ambiguous := exclude_ambiguous;
     txt_custom_symbols := txt_custom_symbols w;
     spin_length := length;
     min_lower := n_lower; min_upper := n_upper;
     min_digits := n_digits; min_symbols := n_symbols;
     out := out w |}.

(** [apply_preset]: the passphrase preset and a restoring call leave the
    widgets alone; "Custom" (index 0) does too. *)
Definition apply_preset (w : window) (apply_defaults_if_needed : bool)
    : window :=
  let idx := preset_combo w in
  let passphrase := idx =? 4 in
  if passphrase then w
  else if negb apply_defaults_if_needed then w
  else if idx =? 0 then w
  else if idx =? 1 then   (* Memorable *)
    set_character_controls w true 1 true 1 false 0 false 0 16 true
  else if idx =? 2 then   (* Strong *)
    set_character_controls w true 1 true 1 true 1 true 1 20 true
  else if idx =? 3 then   (* PIN *)
    set_character_controls w false 0 false 0 true 4 false 0 8 false
  else w.

(** [preset_combo.setCurrentIndex(idx)] *)
Definition set_preset (w : window) (idx : Z) : window :=
  {| wordlist := wordlist w;
     preset_combo := idx; cmb_mode := cmb_mode w;
     spin_count := spin_count w; spin_words := spin_words w;
     txt_separator := txt_separator w; chk_capitalize := chk_capitalize w;
     chk_lower := chk_lower w; chk_upper := chk_upper w;
     chk_digits := chk_digits w; chk_symbols := chk_symbols w;
     chk_exclude_ambiguous := chk_exclude_ambiguous w;
     txt_custom_symbols := txt_custom_symbols w;
     spin_length := spin_length w;
     min_lower := min_lower w; min_upper := min_upper w;
     min_digits := min_digits w; min_symbols := min_symbols w;
     out := out w |}.

(** *** The word list and the file it came from *)

(** The window together with [self.wordlist_path] ([None] or a path). *)
Record session : Type := {
  win : window;
  wordlist_path : option str;
}.

(** The truth value of [self.wordlist_path]. *)
Definition path_is_set (path : option str) : bool :=
  match path with
  | Some (_ :: _) => true
  | _ => false
  end.

(** The first statements of [__init__]: the built-in words, the path saved
    in the settings, and the load of that file when the path is set and the
    file exists.  [saved] is [settings.value("wordlist_path", None)];
    [file] is [None] when no file exists at the path and the outcome of
    reading it otherwise (as for [_load_wordlist_from_path]). *)
Definition init_wordlist (w : window) (saved : option str)
    (file : option (option str)) : session * list dialog :=
  let w := set_wordlist w FALLBACK_WORDS in
  match path_is_set saved, file with
  | true, Some read =>
      let '(w', shown, _) := _load_wordlist_from_path w read in
      ({| win := w'; wordlist_path := saved |}, shown)
  | _, _ => ({| win := w; wordlist_path := saved |}, [])
  end.

(** [on_load_wordlist]: [path] is what the file dialog returns (empty when
    it is cancelled), [file] the outcome of reading that file. *)
Definition on_load_wordlist (s : session) (path : str) (file : option str)
    : session * list dialog :=
  if is_empty path then (s, [])
  else
    let '(w', shown, ok) := _load_wordlist_from_path (win s) file in
    if ok then ({| win := w'; wordlist_path := Some path |}, shown)
    else ({| win := w'; wordlist_path := wordlist_path s |}, shown).

(** [_wordlist_label_text]: the two forms of the label, with the number and
    the path they are built from (the label shows the last component of the
    path). *)
Inductive wordlist_label : Type :=
| Words_from (count : Z) (path : str)
    (* f"{len(self.wordlist)} words from: {Path(self.wordlist_path).name}" *)
| Words_fallback_list (count : Z).
    (* f"{len(self.wordlist)} words (fallback list)" *)

Definition _wordlist_label_text (s : session) : wordlist_label :=
  match wordlist_path s with
  | Some (c :: path) => Words_from (len (wordlist (win s))) (c :: path)
  | _ => Words_fallback_list (len (wordlist (win s)))
  end.

(** *** The output box: copy and save *)

(** The characters at which [str.splitlines()] cuts a string. *)
Definition is_line_boundary (c : N) : bool :=
  ((0x0A <=? c) && (c <=? 0x0D))%N || ((0x1C <=? c) && (c <=? 0x1E))%N
  || (c =? 0x85)%N || (c =? 0x2028)%N || (c =? 0x2029)%N.

(** [text.splitlines()]: the lines without their ends; "\r\n" is one line
    end, and a line end at the very end of the text opens no further line.
    [cur] is the part of the current line already read. *)
Fixpoint splitlines_from (cur text : str) : list str :=
  match text with
  | [] => if is_empty cur then [] else [cur]
  | c :: rest =>
      if is_line_boundary c then
        cur :: match rest with
               | c' :: rest' =>
                   if (c =? CR)%N && (c' =? LF)%N
                   then splitlines_from [] rest'
                   else splitlines_from [] rest
               | [] => []
               end
      else splitlines_from (cur ++ [c]) rest
  end.

Definition splitlines (text : str) : list str := splitlines_from [] text.

(** [s.endswith(suffix)] and [sub in s]. *)
Definition endswith (s suffix : str) : bool :=
  bool_decide (suffix `suffix_of` s).

Fixpoint contains (s sub : str) : bool :=
  bool_decide (sub `prefix_of` s)
  || match s with
     | [] => false
     | _ :: rest => contains rest sub
     end.

(** [copy_first] and [copy_all]: the text put on the clipboard, if any. *)
Definition copy_first (w : window) : option str :=
  let lines := splitlines (out w) in
  match lines with
  | [] => None
  | line :: _ =>
      let first := strip line in
      if is_empty first then None else Some first
  end.

Definition copy_all (w : window) : option str :=
  let text := strip (out w) in
  if is_empty text then None else Some text.

(** The boxes of [on_save], and the file it writes: the rows handed to
    [csv.writer], or the text written. *)
Inductive save_box : Type :=
| Nothing_to_save
    (* show_error("Nothing to save. Generate some passwords first.") *)
| Failed_to_save_file
    (* show_error(f"Failed to save file:\n{exc}") *)
| Saved (count : Z) (path : str).
    (* information: f"Saved {len(passwords)} password(s) to:\n{path}" *)

Inductive written_file : Type :=
| Csv_file (rows : list (list str))
| Text_file (content : str).

(** [on_save]: [chosen] is what the file dialog returns when it is shown
    (the path, empty when the dialog is cancelled, and the filter
    selected); [io_ok] tells whether opening and writing the file succeed.
    The result is the boxes shown and the file written, with its path (no
    file is reported when writing fails; the creation of the default folder
    that precedes the dialog is left out). *)
Definition on_save (w : window) (chosen : str * str) (io_ok : bool)
    : list save_box * option (str * written_file) :=
  let text := strip (out w) in
  if is_empty text then ([Nothing_to_save], None)
  else
    let passwords := filter (fun line => strip line <> []) (splitlines text) in
    let '(path, selected_filter) := chosen in
    if is_empty path then ([], None)
    else
      let save_csv :=
        endswith (lower path) (lit ".csv")
        || contains (lower selected_filter) (lit "csv") in
      if negb io_ok then ([Failed_to_save_file], None)
      else if save_csv then
        let path :=
          if negb (endswith (lower path) (lit ".csv"))
          then path ++ lit ".csv" else path in
        ([Saved (len passwords) path],
         Some (path,
               Csv_file ([lit "password"] :: map (fun pw => [pw]) passwords)))
      else
        let path :=
          if negb (endswith (lower path) (lit ".txt"))
          then path ++ lit ".txt" else path in
        ([Saved (len passwords) path],
         Some (path,
               Text_file (concat (map (fun pw => pw ++ [LF]) passwords)))).

(** [clear_output] *)
Definition clear_output (w : window) : window := setPlainText w [].

(** *** The life of a window *)

(** What the word list is expected to be: not empty, without duplicates,
    made of words that are not empty, that [lower] leaves as they are and
    that hold no white space. *)
Definition vocabulary_ok (words : list str) : Prop :=
  words <> [] /\ NoDup words
  /\ Forall (fun word =>
       word <> [] /\ lower word = word
       /\ Forall (fun ch => isspace ch = false) word) words.

(** What happens to a window once it is built: the user edits the widgets
    (any values; the word list is not a widget), loads a word list, applies
    a preset, presses Generate or clears the output. *)
Inductive event : Type :=
| Edit (widgets : window)
| Load_wordlist (path : str) (file : option str)
| Apply_preset (apply_defaults_if_needed : bool)
| Generate (entropy : nat -> nat) (pos : nat)
| Clear_output.

Definition handle (s : session) (e : event) : session :=
  match e with
  | Edit widgets =>
      {| win := set_wordlist widgets (wordlist (win s));
         wordlist_path := wordlist_path s |}
  | Load_wordlist path file => (on_load_wordlist s path file).1
  | Apply_preset apply_defaults_if_needed =>
      {| win := apply_preset (win s) apply_defaults_if_needed;
         wordlist_path := wordlist_path s |}
  | Generate entropy pos =>
      {| win := (on_generate entropy (win s) pos).1;
         wordlist_path := wordlist_path s |}
  | Clear_output =>
      {| win := clear_output (win s); wordlist_path := wordlist_path s |}
  end.

(** The separator [on_generate] hands to [generate_passphrase]:
    [self.txt_separator.text() or "-"]. *)
Definition separator_of_window (w : window) : str :=
  if negb (is_empty (txt_separator w)) then txt_separator w else lit "-".

(** A character of a normalised word: a lowercase ASCII letter, an
    apostrophe or a hyphen. *)
Definition word_char (c : N) : bool :=
  is_ascii_lower c || (c =? APOSTROPHE)%N || (c =? HYPHEN)%N.

(** A character of the words in use: a character of a normalised word, as
    the vocabulary of the specification has them, or the combining dot
    above, which the loader leaves after an "i" when it lowers U+0130.  On
    the words made of these characters [lower] and [capitalize] are
    [str.lower] and [str.capitalize]; on other words they need not be
    ([lower_char] and [upper_char] know the letters of ASCII only). *)
Definition vocabulary_char (c : N) : bool :=
  word_char c || (c =? COMBINING_DOT_ABOVE)%N.

Definition is_vocabulary (words : list str) : Prop :=
  Forall (Forall (fun c => vocabulary_char c = true)) words.

(** The characters the output box does not give back as they are. *)
Definition box_changes (c : N) : bool :=
  (c =? 0x0D)%N || (c =? 0x2028)%N || (c =? 0x2029)%N
  || (c =? 0xFDD0)%N || (c =? 0xFDD1)%N || (c =? 0xA0)%N.

(** The window as [__init__] leaves it when no settings were saved: the
    default values of the widgets and the built-in words. *)
Definition fresh_window : window :=
  {| wordlist := FALLBACK_WORDS;
     preset_combo := 0; cmb_mode := lit "Single";
     spin_count := 10; spin_words := 6;
     txt_separator := lit "-"; chk_capitalize := false;
     chk_lower := true; chk_upper := true;
     chk_digits := true; chk_symbols := true;
     chk_exclude_ambiguous := false;
     txt_custom_symbols := [];
     spin_length := 16;
     min_lower := 1; min_upper := 1; min_digits := 1; min_symbols := 1;
     out := [] |}.

(** The random source answers the requests from [pos] on with the numbers
    of [tape]. *)
Definition reads (entropy : nat -> nat) (pos : nat) (tape : list nat)
    : Prop :=
  forall k i, tape !! k = Some i -> entropy (pos + k)%nat = i.

(** The pools of the classes of [required] do not overlap. *)
Fixpoint pools_apart (pools : gmap string str)
    (required : list (string * Z)) : Prop :=
  match required with
  | [] => True
  | kn :: rest =>
      Forall (fun kn' =>
                forall c, c ∈ pool_of pools (fst kn) ->
                          c ∉ pool_of pools (fst kn')) rest
      /\ pools_apart pools rest
  end.

(** A line of the output box that the copy and save actions give back as
    it is: not empty, with no white space at either end and no line
    boundary inside. *)
Definition clean_line (line : str) : Prop :=
  line <> []
  /\ (forall c, head line = Some c -> isspace c = false)
  /\ (forall c, last line = Some c -> isspace c = false)
  /\ Forall (fun c => is_line_boundary c = false) line.

(** The files [on_load_wordlist] and [__init__] may read: for a path,
    [None] when no file exists there, and otherwise what reading it gives
    (the text, or [None] when reading raises). *)
Definition file_system : Type := str -> option (option str).

(** What [open(path, ...)] and the reading of the file give. *)
Definition read_file (files : file_system) (path : str) : option str :=
  match files path with
  | Some read => read
  | None => None    (* FileNotFoundError *)
  end.

(** The label of the word list tells the truth: it counts the words in
    use, and it names a file exactly when these words are the ones that
    file gives. *)
Definition label_is_right (files : file_system) (s : session) : Prop :=
  match _wordlist_label_text s with
  | Words_from count path =>
      count = len (wordlist (win s))
      /\ exists text,
           files path = Some (Some text)
           /\ wordlist (win s) = filtered_words text
  | Words_fallback_list count =>
      count = len (wordlist (win s)) /\ wordlist (win s) = FALLBACK_WORDS
  end.

(** * Proofs *)

(** ** Swapping and shuffling *)

Lemma swap_elements_length {A} i j (l : list A) :
  List.length (swap_elements i j l) = List.length l.
Proof.
  unfold swap_elements.
  destruct (l !! i), (l !! j); rewrite ?length_insert; reflexivity.
Qed.

Lemma insert_perm_cons {A} (l : list A) j x y :
  l !! j = Some y -> y :: <[j := x]> l ≡ₚ x :: l.
Proof.
  revert j. induction l as [|a l IH]; intros [|j] Hj; simplify_eq/=.
  - apply perm_swap.
  - etrans; [apply perm_swap|].
    etrans; [apply perm_skip, IH, Hj|]. apply perm_swap.
Qed.

Lemma insert_swap_perm {A} (l : list A) i j xi xj :
  l !! i = Some xi -> l !! j = Some xj ->
  <[i := xj]> (<[j := xi]> l) ≡ₚ l.
Proof.
  revert i j. induction l as [|a l IH]; intros [|i] [|j] Hi Hj;
    simplify_eq/=; try done.
  - by apply insert_perm_cons.
  - by apply insert_perm_cons.
  - f_equiv. by apply IH.
Qed.

Lemma swap_elements_perm {A} i j (l : list A) : swap_elements i j l ≡ₚ l.
Proof.
  unfold swap_elements.
  destruct (l !! i) eqn:Hi, (l !! j) eqn:Hj; try done.
  by apply insert_swap_perm.
Qed.

Lemma fisher_yates_from_perm {A} i js (l : list A) :
  fisher_yates_from i js l ≡ₚ l.
Proof.
  revert js l. induction i as [|i IH]; intros [|j js] l; simpl; try done.
  rewrite IH. apply swap_elements_perm.
Qed.

Lemma fisher_yates_from_length {A} i js (l : list A) :
  List.length (fisher_yates_from i js l) = List.length l.
Proof. apply Permutation_length, fisher_yates_from_perm. Qed.

Lemma shuffle_draws_in_range entropy i pos :
  draws_in_range i (shuffle_draws entropy i pos).
Proof.
  revert pos. induction i as [|i IH]; intros pos; simpl; [done|].
  split; [|apply IH].
  pose proof (Nat.mod_upper_bound (entropy pos) (S (S i))). lia.
Qed.

Lemma entropy_of_draws_shuffle_draws i pos js0 js :
  draws_in_range i js ->
  List.length js0 = pos ->
  shuffle_draws (entropy_of_draws 0 (js0 ++ js)) i pos = js.
Proof.
  revert pos js0 js. induction i as [|i IH]; intros pos js0 [|j js] Hr Hlen;
    cbn [shuffle_draws draws_in_range] in *; try done.
  destruct Hr as [Hj Hr]. f_equal.
  - unfold entropy_of_draws. rewrite Nat.sub_0_r, app_nth2 by lia.
    replace (pos - List.length js0)%nat with O by lia. cbn [nth].
    apply Nat.mod_small. lia.
  - replace (js0 ++ j :: js) with ((js0 ++ [j]) ++ js)
      by (by rewrite <- app_assoc).
    apply IH; [done|]. rewrite length_app. simpl. lia.
Qed.

(** *** The shuffle only touches the positions up to its index *)

Lemma swap_elements_app {A} i j (front back : list A) :
  (i < List.length front)%nat -> (j < List.length front)%nat ->
  swap_elements i j (front ++ back) = swap_elements i j front ++ back.
Proof.
  intros Hi Hj. unfold swap_elements.
  rewrite !lookup_app_l by done.
  destruct (front !! i), (front !! j); try done.
  rewrite insert_app_l by done.
  rewrite insert_app_l by (by rewrite length_insert). done.
Qed.

Lemma split_at_last {A} (l : list A) n x :
  List.length l = S n -> l !! n = Some x -> l = take n l ++ [x].
Proof.
  intros Hlen Hx. rewrite <- (take_drop n l) at 1. f_equal.
  rewrite (drop_S l x n Hx), drop_ge by lia. done.
Qed.

Lemma swap_elements_lookup_l {A} i j (l : list A) x :
  (i < List.length l)%nat -> l !! j = Some x ->
  swap_elements i j l !! i = Some x.
Proof.
  intros Hi Hj. unfold swap_elements.
  destruct (lookup_lt_is_Some_2 _ _ Hi) as [xi Hxi]. rewrite Hxi, Hj.
  apply list_lookup_insert_eq. by rewrite length_insert.
Qed.

Lemma fisher_yates_from_app {A} i js (front back : list A) :
  List.length front = S i -> draws_in_range i js ->
  fisher_yates_from i js (front ++ back)
  = fisher_yates_from i js front ++ back.
Proof.
  revert js front back.
  induction i as [|i IH]; intros [|j js] front back Hlen Hr;
    simpl in *; try done.
  destruct Hr as [Hj Hr].
  rewrite swap_elements_app by lia.
  set (X := swap_elements (S i) j front).
  assert (HX : List.length X = S (S i))
    by (unfold X; by rewrite swap_elements_length).
  destruct (lookup_lt_is_Some_2 X (S i) ltac:(lia)) as [x Hx].
  rewrite (split_at_last X (S i) x HX Hx).
  assert (Htake : List.length (take (S i) X) = S i)
    by (rewrite length_take; lia).
  rewrite <- app_assoc, !IH by done. by rewrite <- app_assoc.
Qed.

(** One step of the shuffle: the element found at the drawn position goes to
    the last place, and the shuffle goes on in front of it. *)
Lemma fisher_yates_from_step {A} i j js (l : list A) x :
  List.length l = S (S i) -> (j <= S i)%nat -> draws_in_range i js ->
  l !! j = Some x ->
  fisher_yates_from (S i) (j :: js) l
  = fisher_yates_from i js (take (S i) (swap_elements (S i) j l)) ++ [x].
Proof.
  intros Hlen Hj Hr Hx. cbn [fisher_yates_from].
  set (X := swap_elements (S i) j l).
  assert (HX : List.length X = S (S i))
    by (unfold X; by rewrite swap_elements_length).
  assert (HXx : X !! S i = Some x)
    by (apply swap_elements_lookup_l; [lia|done]).
  rewrite (split_at_last X (S i) x HX HXx) at 1.
  apply fisher_yates_from_app; [|done]. rewrite length_take. lia.
Qed.

(** *** Draws and arrangements correspond one to one *)

Lemma fisher_yates_from_surjective {A} i (l p : list A) :
  List.length l = S i -> p ≡ₚ l ->
  exists js, draws_in_range i js /\ fisher_yates_from i js l = p.
Proof.
  revert l p. induction i as [|i IH]; intros l p Hlen Hperm.
  - exists []. split; [done|].
    destruct l as [|a [|? ?]]; simplify_eq/=.
    symmetry. by apply Permutation_singleton_r.
  - assert (Hplen : List.length p = S (S i))
      by (by rewrite (Permutation_length Hperm)).
    destruct (lookup_lt_is_Some_2 p (S i) ltac:(lia)) as [x Hx].
    pose proof (split_at_last p (S i) x Hplen Hx) as Hp.
    assert (Hxl : x ∈ l).
    { rewrite <- Hperm. by eapply list_elem_of_lookup_2. }
    apply list_elem_of_lookup_1 in Hxl as [j Hj].
    assert (Hjle : (j <= S i)%nat)
      by (apply lookup_lt_Some in Hj; lia).
    set (X := swap_elements (S i) j l).
    assert (HX : List.length X = S (S i))
      by (unfold X; by rewrite swap_elements_length).
    assert (HXx : X !! S i = Some x)
      by (apply swap_elements_lookup_l; [lia|done]).
    pose proof (split_at_last X (S i) x HX HXx) as HXsplit.
    destruct (IH (take (S i) X) (take (S i) p)) as (js & Hr & Hrun).
    { rewrite length_take. lia. }
    { apply (Permutation_app_inv_r [x]).
      rewrite <- Hp, <- HXsplit, Hperm. symmetry.
      apply swap_elements_perm. }
    exists (j :: js). split; [split; [lia|done]|].
    rewrite (fisher_yates_from_step i j js l x) by done.
    fold X. by rewrite Hrun.
Qed.

Lemma fisher_yates_from_injective {A} i (l : list A) js1 js2 :
  List.length l = S i -> NoDup l ->
  draws_in_range i js1 -> draws_in_range i js2 ->
  fisher_yates_from i js1 l = fisher_yates_from i js2 l ->
  js1 = js2.
Proof.
  revert l js1 js2.
  induction i as [|i IH]; intros l [|j1 js1] [|j2 js2] Hlen Hnd Hr1 Hr2 Heq;
    try done.
  destruct Hr1 as [Hj1 Hr1], Hr2 as [Hj2 Hr2].
  destruct (lookup_lt_is_Some_2 l j1 ltac:(lia)) as [x1 Hx1].
  destruct (lookup_lt_is_Some_2 l j2 ltac:(lia)) as [x2 Hx2].
  rewrite (fisher_yates_from_step i j1 js1 l x1),
    (fisher_yates_from_step i j2 js2 l x2) in Heq by done.
  apply app_inj_tail in Heq as [Heq ->].
  assert (j1 = j2) as -> by exact (NoDup_lookup l j1 j2 x2 Hnd Hx1 Hx2).
  f_equal.
  set (X := swap_elements (S i) j2 l) in *.
  apply (IH (take (S i) X)); try done.
  - rewrite length_take. unfold X. rewrite swap_elements_length. lia.
  - apply (NoDup_app (take (S i) X) (drop (S i) X)).
    rewrite take_drop. unfold X.
    by rewrite (swap_elements_perm (S i) j2 l).
Qed.

Lemma fisher_yates_from_unique_draws {A} i (l p : list A) :
  List.length l = S i -> NoDup l -> p ≡ₚ l ->
  exists js,
    (draws_in_range i js /\ fisher_yates_from i js l = p)
    /\ forall js', draws_in_range i js' -> fisher_yates_from i js' l = p ->
                   js' = js.
Proof.
  intros Hlen Hnd Hperm.
  destruct (fisher_yates_from_surjective i l p Hlen Hperm) as (js & Hr & Hrun).
  exists js. split; [done|]. intros js' Hr' Hrun'.
  apply (fisher_yates_from_injective i l); try done. congruence.
Qed.

Lemma fisher_yates_reaches {A} (l p : list A) :
  p ≡ₚ l ->
  exists js, draws_in_range (List.length l - 1) js /\ fisher_yates js l = p.
Proof.
  intros Hperm. unfold fisher_yates. destruct l as [|a l].
  - apply Permutation_nil_r in Hperm as ->. by exists [].
  - apply fisher_yates_from_surjective; [simpl; lia|done].
Qed.

(** *** The shuffle moves elements by position only *)

Lemma swap_elements_fmap {A B} (f : A -> B) i j (l : list A) :
  swap_elements i j (f <$> l) = f <$> swap_elements i j l.
Proof.
  unfold swap_elements. rewrite !list_lookup_fmap.
  destruct (l !! i), (l !! j); simpl; try done.
  by rewrite !list_fmap_insert.
Qed.

Lemma fisher_yates_from_fmap {A B} (f : A -> B) i js (l : list A) :
  fisher_yates_from i js (f <$> l) = f <$> fisher_yates_from i js l.
Proof.
  revert js l. induction i as [|i IH]; intros [|j js] l; simpl; try done.
  by rewrite swap_elements_fmap, IH.
Qed.

Lemma arrange_positions {A} (d : A) (l : list A) :
  arrange d (positions l) l = l.
Proof.
  unfold arrange, positions. apply list_eq. intros k.
  change (map ?f ?l) with (f <$> l). rewrite list_lookup_fmap.
  destruct (decide (k < List.length l)%nat) as [Hk|Hk].
  - rewrite lookup_seq_lt by done. simpl.
    destruct (lookup_lt_is_Some_2 _ _ Hk) as [x Hx]. rewrite Hx.
    f_equal. by apply nth_lookup_Some with (d := d) in Hx.
  - rewrite lookup_seq_ge, lookup_ge_None_2 by lia. done.
Qed.

Lemma fisher_yates_arrange {A} (d : A) js (l : list A) :
  fisher_yates js l = arrange d (fisher_yates js (positions l)) l.
Proof.
  unfold fisher_yates, arrange, positions.
  change (map ?f ?l) with (f <$> l).
  rewrite <- fisher_yates_from_fmap, length_seq.
  f_equal. symmetry. apply (arrange_positions d l).
Qed.

(** *** Counting the draws behind an arrangement *)

Lemma elem_of_all_draws i js : js ∈ all_draws i <-> draws_in_range i js.
Proof.
  revert js. induction i as [|i IH]; intros js.
  - simpl. rewrite list_elem_of_singleton. destruct js; split; done.
  - cbn [all_draws]. rewrite list_elem_of_bind. split.
    + intros (j & Hjs & Hj). apply list_elem_of_fmap in Hjs as (js' & -> & Hjs').
      apply elem_of_seq in Hj. split; [lia|by apply IH].
    + destruct js as [|j js']; [done|]. intros [Hj Hr].
      exists j. split; [|apply elem_of_seq; lia].
      apply list_elem_of_fmap. exists js'. split; [done|by apply IH].
Qed.

Section Counting.
Context `{EqDecision A}.
Implicit Types (l p : list A) (x : A).

Lemma length_filter_bind {B C} (P : C -> Prop) `{forall c, Decision (P c)}
    (f : B -> list C) (L : list B) :
  List.length (filter P (L ≫= f))
  = sum_list_with (fun b => List.length (filter P (f b))) L.
Proof.
  induction L as [|b L IH]; [done|].
  rewrite bind_cons, filter_app, length_app, IH. done.
Qed.

Lemma sum_list_with_ext_in {B} (f g : B -> nat) (L : list B) :
  (forall b, b ∈ L -> f b = g b) -> sum_list_with f L = sum_list_with g L.
Proof.
  induction L as [|b L IH]; intros Hfg; [done|]. simpl.
  rewrite (Hfg b) by left. rewrite IH; [done|].
  intros b' Hb'. apply Hfg. by right.
Qed.

Lemma filter_ext_in {B} (P Q : B -> Prop) `{forall b, Decision (P b)}
    `{forall b, Decision (Q b)} (L : list B) :
  (forall b, b ∈ L -> P b <-> Q b) -> filter P L = filter Q L.
Proof.
  induction L as [|b L IH]; intros HPQ; [done|].
  rewrite !filter_cons.
  rewrite IH by (intros b' Hb'; apply HPQ; by right).
  destruct (decide (P b)) as [HP|HP], (decide (Q b)) as [HQ|HQ]; try done.
  - exfalso. apply HQ, HPQ; [left|done].
  - exfalso. apply HP, HPQ; [left|done].
Qed.

Lemma length_filter_fmap {B C} (P : C -> Prop) `{forall c, Decision (P c)}
    (f : B -> C) (L : list B) :
  List.length (filter P (f <$> L))
  = List.length (filter (fun b => P (f b)) L).
Proof.
  induction L as [|b L IH]; [done|].
  rewrite fmap_cons, !filter_cons.
  destruct (decide (P (f b))); simpl; by rewrite IH.
Qed.

Lemma length_filter_False {B} (P : B -> Prop) `{forall b, Decision (P b)}
    (L : list B) :
  (forall b, b ∈ L -> ~ P b) -> List.length (filter P L) = O.
Proof.
  induction L as [|b L IH]; intros HP; [done|].
  rewrite filter_cons_False by (apply HP; left).
  apply IH. intros b' Hb'. apply HP. by right.
Qed.

(** One step of the count: the last element of the target fixes the
    positions that may be drawn first. *)
Lemma ways_from_step i l p' x :
  List.length l = S (S i) ->
  ways_from (S i) l (p' ++ [x])
  = sum_list_with
      (fun j => if decide (l !! j = Some x)
                then ways_from i (take (S i) (swap_elements (S i) j l)) p'
                else O)
      (seq 0 (S (S i))).
Proof.
  intros Hlen. unfold ways_from at 1. cbn [all_draws].
  rewrite length_filter_bind. apply sum_list_with_ext_in.
  intros j Hj%elem_of_seq. rewrite length_filter_fmap.
  destruct (lookup_lt_is_Some_2 l j ltac:(lia)) as [y Hy].
  destruct (decide (l !! j = Some x)) as [Hx|Hx].
  - unfold ways_from. f_equal. apply filter_ext_in.
    intros js Hjs%elem_of_all_draws.
    rewrite (fisher_yates_from_step i j js l x) by (done || lia).
    split; [by intros [? _]%app_inj_tail|by intros ->].
  - apply length_filter_False. intros js Hjs%elem_of_all_draws.
    rewrite (fisher_yates_from_step i j js l y) by (done || lia).
    intros [_ ->]%app_inj_tail. done.
Qed.

Lemma occurrences_app x l l' :
  occurrences x (l ++ l') = (occurrences x l + occurrences x l')%nat.
Proof. unfold occurrences. by rewrite filter_app, length_app. Qed.

Lemma occurrences_perm x l l' : l ≡ₚ l' -> occurrences x l = occurrences x l'.
Proof. unfold occurrences. by intros ->. Qed.

Lemma occurrences_cons_ne x y l : y <> x -> occurrences x (y :: l) = occurrences x l.
Proof. intros Hne. unfold occurrences. by rewrite filter_cons_False. Qed.

Lemma occurrences_cons_eq x l : occurrences x (x :: l) = S (occurrences x l).
Proof. unfold occurrences. by rewrite filter_cons_True. Qed.

(** The positions that hold [x] count as its occurrences. *)
Lemma sum_positions_of x l (c : nat) :
  sum_list_with (fun j => if decide (l !! j = Some x) then c else O)
    (seq 0 (List.length l))
  = (occurrences x l * c)%nat.
Proof.
  induction l as [|y l IH] using rev_ind; [done|].
  rewrite length_app, Nat.add_1_r, seq_S, sum_list_with_app, occurrences_app.
  rewrite (sum_list_with_ext_in _
             (fun j => if decide (l !! j = Some x) then c else O)).
  - rewrite IH. simpl. rewrite list_lookup_middle by done.
    unfold occurrences. rewrite filter_cons, filter_nil.
    destruct (decide (Some y = Some x)) as [[= ->]|Hne].
    + rewrite decide_True by done. simpl. lia.
    + rewrite decide_False by congruence. simpl. lia.
  - intros j Hj%elem_of_seq. by rewrite lookup_app_l by lia.
Qed.

Lemma repeats_perm l l' : l ≡ₚ l' -> repeats l = repeats l'.
Proof.
  induction 1 as [|x l l' Hperm IH|x y l|l l' l'' _ IH1 _ IH2].
  - done.
  - simpl. by rewrite IH, (occurrences_perm x l l').
  - simpl. destruct (decide (x = y)) as [->|Hne]; [done|].
    rewrite (occurrences_cons_ne y x) by done.
    rewrite (occurrences_cons_ne x y) by done. lia.
  - congruence.
Qed.

Lemma repeats_snoc l x :
  repeats (l ++ [x]) = (S (occurrences x l) * repeats l)%nat.
Proof.
  rewrite (repeats_perm (l ++ [x]) (x :: l)); [done|].
  by rewrite Permutation_app_comm.
Qed.

(** Every arrangement of [l] comes from as many vectors of draws as the
    repeated elements allow. *)
Lemma ways_from_repeats i l p :
  List.length l = S i -> p ≡ₚ l -> ways_from i l p = repeats l.
Proof.
  revert l p. induction i as [|i IH]; intros l p Hlen Hperm.
  - destruct l as [|a [|? ?]]; simplify_eq/=.
    apply Permutation_singleton_r in Hperm as ->.
    unfold ways_from. simpl. rewrite filter_cons_True by done. simpl.
    unfold occurrences. simpl. done.
  - assert (Hplen : List.length p = S (S i))
      by (by rewrite (Permutation_length Hperm)).
    destruct (lookup_lt_is_Some_2 p (S i) ltac:(lia)) as [x Hx].
    pose proof (split_at_last p (S i) x Hplen Hx) as Hp.
    set (p' := take (S i) p) in *.
    rewrite Hp, ways_from_step by done.
    rewrite (sum_list_with_ext_in _
               (fun j => if decide (l !! j = Some x) then repeats p' else O)).
    + rewrite <- Hlen, sum_positions_of.
      rewrite <- (repeats_perm p l Hperm), Hp, repeats_snoc.
      rewrite <- (occurrences_perm x p l Hperm), Hp, occurrences_app.
      unfold occurrences at 2. rewrite filter_cons_True by done. simpl. lia.
    + intros j Hj%elem_of_seq.
      destruct (decide (l !! j = Some x)) as [Hjx|]; [|done].
      set (X := swap_elements (S i) j l).
      assert (HX : List.length X = S (S i))
        by (unfold X; by rewrite swap_elements_length).
      assert (HXx : X !! S i = Some x)
        by (apply swap_elements_lookup_l; [lia|done]).
      pose proof (split_at_last X (S i) x HX HXx) as HXsplit.
      assert (Hperm' : p' ≡ₚ take (S i) X).
      { apply (Permutation_app_inv_r [x]).
        rewrite <- Hp, <- HXsplit, Hperm. symmetry.
        apply swap_elements_perm. }
      rewrite (IH (take (S i) X) p'); [|rewrite length_take; lia|done].
      by apply repeats_perm.
Qed.

Lemma ways_repeats l p : p ≡ₚ l -> ways l p = repeats l.
Proof.
  intros Hperm. unfold ways. destruct l as [|a l].
  - apply Permutation_nil_r in Hperm as ->. done.
  - apply ways_from_repeats; [simpl; lia|done].
Qed.

Lemma repeats_NoDup l : NoDup l -> repeats l = 1%nat.
Proof.
  induction 1 as [|x l Hx _ IH]; [done|]. simpl. rewrite IH.
  unfold occurrences. rewrite length_filter_False; [done|].
  by intros y Hy ->.
Qed.
End Counting.

(** Two draws give "aa" from "aa"; one gives "ba" from "ab". *)
Example ways_with_a_repeated_character :
  ways (lit "aa") (lit "aa") = 2%nat /\ ways (lit "ab") (lit "ba") = 1%nat.
Proof. by vm_compute. Qed.

Lemma length_all_draws i : List.length (all_draws i) = fact (S i).
Proof.
  induction i as [|i IH]; [done|].
  cbn [all_draws].
  assert (Hsum : forall L : list nat,
            List.length (L ≫= (fun j => cons j <$> all_draws i))
            = (List.length L * fact (S i))%nat).
  { induction L as [|j L IHL]; [done|].
    rewrite bind_cons, length_app, length_fmap, IH, IHL. simpl. lia. }
  rewrite Hsum, length_seq. change (fact (S (S i))) with (S (S i) * fact (S i))%nat.
  done.
Qed.

Lemma NoDup_all_draws i : NoDup (all_draws i).
Proof.
  induction i as [|i IH]; [apply NoDup_singleton|].
  cbn [all_draws]. apply NoDup_bind.
  - intros j1 j2 js _ _ (? & -> & _)%list_elem_of_fmap (? & [= -> _] & _)%list_elem_of_fmap.
    done.
  - intros j _. apply NoDup_fmap_2; [|done]. by intros ? ? [= ->].
  - apply NoDup_seq.
Qed.

Lemma fisher_yates_unique_draws {A} (l p : list A) :
  NoDup l -> p ≡ₚ l ->
  exists js,
    (draws_in_range (List.length l - 1) js /\ fisher_yates js l = p)
    /\ forall js', draws_in_range (List.length l - 1) js' ->
                   fisher_yates js' l = p -> js' = js.
Proof.
  intros Hnd Hperm. unfold fisher_yates.
  destruct l as [|a l].
  - apply Permutation_nil_r in Hperm as ->.
    exists []. split; [done|]. by intros [|? ?].
  - apply fisher_yates_from_unique_draws; [simpl; lia|done|done].
Qed.

Section SecretsFacts.
Variable entropy : nat -> nat.

Lemma randbelow_pos n pos :
  0 < n ->
  randbelow entropy n pos
  = Ok ((entropy pos `mod` Z.to_nat n)%nat, S pos).
Proof.
  intros Hn. unfold randbelow.
  destruct (Z.leb_spec n 0); [lia|done].
Qed.

Lemma choice_nonempty {A} (seq : list A) pos :
  seq <> [] ->
  exists x, choice entropy seq pos = Ok (x, S pos) /\ x ∈ seq
    /\ seq !! (entropy pos `mod` List.length seq)%nat = Some x.
Proof.
  intros Hne. unfold choice, bind.
  destruct seq as [|a seq]; [done|]. cbn [is_empty].
  rewrite randbelow_pos by (unfold len; simpl; lia).
  unfold len. rewrite Nat2Z.id.
  set (k := (entropy pos `mod` List.length (a :: seq))%nat).
  assert (Hk : (k < List.length (a :: seq))%nat)
    by (apply Nat.mod_upper_bound; simpl; lia).
  destruct (lookup_lt_is_Some_2 _ _ Hk) as [x Hx].
  exists x. rewrite Hx. split; [done|].
  split; [by eapply list_elem_of_lookup_2|done].
Qed.

(** The code's swap is the specification's swap whenever both indices are
    in range, and raises nothing then. *)
Lemma swap_in_range {A} i j (l : list A) pos :
  (i < List.length l)%nat -> (j < List.length l)%nat ->
  swap i j l pos = Ok (swap_elements i j l, pos).
Proof.
  intros Hi Hj. unfold swap, swap_elements, ret.
  destruct (lookup_lt_is_Some_2 _ _ Hi) as [xi Hxi].
  destruct (lookup_lt_is_Some_2 _ _ Hj) as [xj Hxj].
  rewrite Hxi, Hxj. do 2 f_equal.
  destruct (decide (i = j)) as [->|Hne].
  - assert (xi = xj) as -> by congruence. done.
  - by rewrite list_insert_insert_ne.
Qed.

(** The loop of the code is the procedure of the specification, run on the
    draws the random source hands out. *)
Lemma shuffle_loop_fisher_yates {A} i (l : list A) pos :
  (i < List.length l)%nat ->
  shuffle_loop entropy i l pos
  = Ok (fisher_yates_from i (shuffle_draws entropy i pos) l, (pos + i)%nat).
Proof.
  revert l pos. induction i as [|i IH]; intros l pos Hi.
  - simpl. unfold ret. do 2 f_equal. lia.
  - cbn [shuffle_loop shuffle_draws fisher_yates_from]. unfold bind.
    rewrite randbelow_pos by lia.
    replace (Z.to_nat (Z.of_nat (S i) + 1)) with (S (S i)) by lia.
    assert (Hj : (entropy pos `mod` S (S i) < S (S i))%nat)
      by (apply Nat.mod_upper_bound; lia).
    rewrite swap_in_range by lia.
    rewrite IH by (rewrite swap_elements_length; lia).
    do 2 f_equal. lia.
Qed.

Lemma shuffle_fisher_yates {A} (l : list A) pos :
  shuffle entropy l pos
  = Ok (fisher_yates
          (shuffle_draws entropy (List.length l - 1) pos) l,
        (pos + (List.length l - 1))%nat).
Proof.
  unfold shuffle, fisher_yates, len.
  replace (Z.to_nat (Z.of_nat (List.length l) - 1))
    with (List.length l - 1)%nat by lia.
  destruct l as [|a l].
  - simpl. unfold ret. do 2 f_equal. lia.
  - apply shuffle_loop_fisher_yates. simpl. lia.
Qed.

(** ** Drawing into [pw_chars] *)

(** [n] draws from a pool that is not empty (or no draw at all) append [n]
    characters of the pool and use [n] requests. *)
Lemma append_choices_draws n pool pw_chars pos :
  pool <> [] \/ n = O ->
  exists drawn,
    append_choices entropy n pool pw_chars pos
    = Ok (pw_chars ++ drawn, (pos + n)%nat)
    /\ List.length drawn = n
    /\ Forall (fun c => c ∈ pool) drawn.
Proof.
  revert pw_chars pos. induction n as [|n IH]; intros pw_chars pos Hpool.
  - exists []. simpl. unfold ret. rewrite app_nil_r, Nat.add_0_r. done.
  - destruct Hpool as [Hpool|]; [|done].
    destruct (choice_nonempty pool pos Hpool) as (c & Hc & Hin & _).
    destruct (IH (pw_chars ++ [c]) (S pos) (or_introl Hpool))
      as (drawn & Hrun & Hlen & Hall).
    exists (c :: drawn). cbn [append_choices]. unfold bind.
    rewrite Hc, Hrun, <- app_assoc. simpl.
    split; [do 2 f_equal; lia|]. split; [by rewrite Hlen|].
    by constructor.
Qed.

Lemma place_required_segments pools required pw_chars pos :
  (forall key n, (key, n) ∈ required -> n <> 0 -> pool_of pools key <> []) ->
  exists segs pos',
    place_required entropy pools required pw_chars pos
    = Ok (pw_chars ++ concat segs, pos')
    /\ Forall2 (segment_for pools) required segs.
Proof.
  revert pw_chars pos.
  induction required as [|[key n] rest IH]; intros pw_chars pos Hpools.
  - exists [], pos. simpl. unfold ret. rewrite app_nil_r. done.
  - cbn [place_required]. fold (pool_of pools key).
    assert (Hkey : pool_of pools key <> [] \/ Z.to_nat n = O).
    { destruct (decide (n = 0)) as [->|Hn]; [by right|].
      left. apply (Hpools key n); [left|done]. }
    assert (Hguard : negb (n =? 0) && is_empty (pool_of pools key) = false).
    { destruct Hkey as [Hne|Hz].
      - destruct (pool_of pools key); [done|]. by rewrite andb_false_r.
      - destruct (Z.eqb_spec n 0) as [|Hn]; [done|].
        destruct (pool_of pools key) eqn:E; [|by rewrite andb_false_r].
        exfalso. apply (Hpools key n); [left|done|done]. }
    rewrite Hguard.
    destruct (append_choices_draws (Z.to_nat n) (pool_of pools key)
                pw_chars pos Hkey) as (seg & Hrun & Hlen & Hall).
    destruct (IH (pw_chars ++ seg) (pos + Z.to_nat n)%nat)
      as (segs & pos' & Hrest & Hsegs).
    { intros k m Hin. apply Hpools. by right. }
    exists (seg :: segs), pos'. unfold bind. rewrite Hrun, Hrest.
    simpl. rewrite <- app_assoc. split; [done|].
    constructor; [done|done].
Qed.

End SecretsFacts.

(** ** Counting *)

Lemma count_in_app pool s1 s2 :
  count_in pool (s1 ++ s2) = (count_in pool s1 + count_in pool s2)%nat.
Proof. unfold count_in. by rewrite filter_app, length_app. Qed.

Lemma count_in_perm pool s1 s2 :
  s1 ≡ₚ s2 -> count_in pool s1 = count_in pool s2.
Proof. unfold count_in. by intros ->. Qed.

Lemma count_in_all pool s :
  Forall (fun c => c ∈ pool) s -> count_in pool s = List.length s.
Proof.
  unfold count_in. induction 1 as [|c s Hc _ IH]; [done|].
  rewrite filter_cons_True by done. simpl. by rewrite IH.
Qed.

Lemma count_in_segments pools required segs key n :
  Forall2 (segment_for pools) required segs ->
  (key, n) ∈ required ->
  (Z.to_nat n <= count_in (pool_of pools key) (concat segs))%nat.
Proof.
  induction 1 as [|kn seg required segs [Hlen Hall] _ IH]; intros Hin.
  - by apply elem_of_nil in Hin.
  - simpl. rewrite count_in_app.
    apply elem_of_cons in Hin as [<-|Hin].
    + simpl in *. rewrite (count_in_all _ _ Hall). lia.
    + specialize (IH Hin). lia.
Qed.

Lemma length_concat_segments pools required segs :
  Forall2 (segment_for pools) required segs ->
  len (concat segs) = total_required required.
Proof.
  unfold len, total_required.
  induction 1 as [|kn seg required segs [Hlen Hall] _ IH]; [done|].
  simpl. rewrite length_app, Hlen. lia.
Qed.

Lemma segments_in_full_charset pools required segs (full_charset : str) :
  (forall key pool, pools !! key = Some pool -> pool ⊆ full_charset) ->
  Forall2 (segment_for pools) required segs ->
  Forall (fun c => c ∈ full_charset) (concat segs).
Proof.
  intros Hsub.
  induction 1 as [|[key n] seg required segs [_ Hall] _ IH]; [done|].
  simpl. apply Forall_app. split; [|done].
  eapply Forall_impl; [exact Hall|]. intros c Hc.
  unfold pool_of in Hc. simpl in Hc.
  destruct (pools !! key) as [pool|] eqn:Hpool; simpl in Hc.
  - by apply (Hsub key pool Hpool).
  - by apply elem_of_nil in Hc.
Qed.

Lemma sum_counts_le_total_required required :
  sum_counts required <= total_required required.
Proof.
  unfold sum_counts, total_required.
  induction required as [|[key n] rest IH]; simpl in *; lia.
Qed.

Lemma total_required_nonneg required :
  (forall key n, (key, n) ∈ required -> 0 <= n) ->
  total_required required = sum_counts required.
Proof.
  unfold total_required, sum_counts.
  induction required as [|[key n] rest IH]; intros Hnn; [done|].
  simpl. rewrite IH by (intros k m Hin; apply (Hnn k); by right).
  specialize (Hnn key n ltac:(left)). lia.
Qed.

(** What a shuffle of the placed segments and of the filler is made of. *)
Lemma shuffled_secret_facts pools required segs filler js length
    (full_charset : str) :
  Forall2 (segment_for pools) required segs ->
  List.length filler = Z.to_nat (length - total_required required) ->
  total_required required <= length ->
  let pw := fisher_yates js (concat segs ++ filler) in
  len pw = length
  /\ ((forall key pool, pools !! key = Some pool -> pool ⊆ full_charset) ->
      Forall (fun c => c ∈ full_charset) filler ->
      forall c, c ∈ pw -> c ∈ full_charset)
  /\ (forall key n, (key, n) ∈ required ->
        (Z.to_nat n <= count_in (pool_of pools key) pw)%nat).
Proof.
  intros Hsegs Hflen Htotal pw.
  assert (Hperm : pw ≡ₚ concat segs ++ filler)
    by apply fisher_yates_from_perm.
  pose proof (length_concat_segments pools required segs Hsegs) as Hlen.
  split; [|split].
  - unfold len in *. rewrite (Permutation_length Hperm), length_app. lia.
  - intros Hsub Hfall c Hc. rewrite Hperm in Hc.
    apply elem_of_app in Hc as [Hc|Hc].
    + pose proof (segments_in_full_charset _ _ _ _ Hsub Hsegs) as Hall.
      rewrite Forall_forall in Hall. by apply Hall.
    + rewrite Forall_forall in Hfall. by apply Hfall.
  - intros key n Hin.
    rewrite (count_in_perm _ _ _ Hperm), count_in_app.
    pose proof (count_in_segments pools required segs key n Hsegs Hin). lia.
Qed.

(** ** Returning and raising *)

Section Rejections.
Variable entropy : nat -> nat.

Lemma place_required_unmet pools required pw_chars pos :
  Exists (unmet pools) required ->
  exists key n,
    place_required entropy pools required pw_chars pos
    = Raise (ValueError (Requirement_but_empty_set key))
    /\ (key, n) ∈ required /\ unmet pools (key, n).
Proof.
  revert pw_chars pos.
  induction required as [|[key n] rest IH]; intros pw_chars pos Hex.
  - by apply Exists_nil in Hex.
  - cbn [place_required]. fold (pool_of pools key).
    destruct (decide (unmet pools (key, n))) as [[Hn Hpool]|Hok].
    + simpl in Hn, Hpool. exists key, n. rewrite Hpool.
      destruct (Z.eqb_spec n 0); [done|]. simpl.
      split; [done|]. split; [left|done].
    + apply Exists_cons in Hex as [Hex|Hex]; [done|].
      assert (Hkey : pool_of pools key <> [] \/ Z.to_nat n = O).
      { destruct (decide (n = 0)) as [->|Hn]; [by right|]. left.
        intros Hpool. by apply Hok. }
      assert (Hguard : negb (n =? 0) && is_empty (pool_of pools key) = false).
      { destruct (Z.eqb_spec n 0) as [|Hn]; [done|].
        destruct (pool_of pools key) eqn:E; [|done].
        exfalso. by apply Hok. }
      rewrite Hguard. unfold bind.
      destruct (append_choices_draws entropy (Z.to_nat n)
                  (pool_of pools key) pw_chars pos Hkey) as (seg & -> & _).
      destruct (IH (pw_chars ++ seg) (pos + Z.to_nat n)%nat Hex)
        as (key' & n' & -> & Hin & Hun).
      exists key', n'. split; [done|]. split; [by right|done].
Qed.

(** When every precondition holds the call returns: the secret is a shuffle
    of the characters placed for the classes followed by the filler. *)
Lemma generate_with_requirements_returns length pools required full_charset
    pos :
  full_charset <> [] ->
  total_required required <= length ->
  ~ Exists (unmet pools) required ->
  exists segs filler js pos',
    generate_with_requirements entropy length pools required full_charset pos
    = Ok (fisher_yates js (concat segs ++ filler), pos')
    /\ Forall2 (segment_for pools) required segs
    /\ List.length filler = Z.to_nat (length - total_required required)
    /\ Forall (fun c => c ∈ full_charset) filler.
Proof.
  intros Hfull Htotal Hmet. unfold generate_with_requirements.
  destruct full_charset as [|c0 full]; [done|]. cbn [is_empty].
  set (full_charset := c0 :: full) in *.
  destruct (Z.gtb_spec (total_required required) length) as [|_]; [lia|].
  destruct (place_required_segments entropy pools required [] pos)
    as (segs & pos1 & Hplace & Hsegs).
  { intros key n Hin Hn Hpool. apply Hmet, Exists_exists.
    by exists (key, n). }
  unfold bind. rewrite Hplace. cbn [app].
  pose proof (length_concat_segments pools required segs Hsegs) as Hlen.
  destruct (append_choices_draws entropy
              (Z.to_nat (length - len (concat segs))) full_charset
              (concat segs) pos1 (or_introl Hfull))
    as (filler & Hfill & Hflen & Hfall).
  rewrite Hfill, shuffle_fisher_yates. unfold ret.
  eexists segs, filler, _, _. split; [reflexivity|].
  rewrite <- Hlen. done.
Qed.

(** The four ways a call ends. *)
Lemma generate_with_requirements_cases length pools required full_charset
    pos :
  let run :=
    generate_with_requirements entropy length pools required full_charset pos
  in
  (full_charset = [] /\ run = Raise (ValueError Character_set_is_empty))
  \/ (full_charset <> [] /\ total_required required > length
      /\ run = Raise (ValueError (Required_characters_exceed_length
                                    (total_required required) length)))
  \/ (full_charset <> [] /\ total_required required <= length
      /\ Exists (unmet pools) required
      /\ exists key n,
           run = Raise (ValueError (Requirement_but_empty_set key))
           /\ (key, n) ∈ required /\ unmet pools (key, n))
  \/ (full_charset <> [] /\ total_required required <= length
      /\ ~ Exists (unmet pools) required
      /\ exists pw pos', run = Ok (pw, pos') /\ len pw = length).
Proof.
  intros run. subst run.
  destruct full_charset as [|c0 full]; [by left|]. right.
  destruct (Z.gtb_spec (total_required required) length) as [Hgt|Hle].
  { left. split; [done|]. split; [lia|].
    unfold generate_with_requirements. cbn [is_empty].
    destruct (Z.gtb_spec (total_required required) length); [done|lia]. }
  right.
  destruct (decide (Exists (unmet pools) required)) as [Hex|Hmet].
  - left. do 3 (split; [done|]).
    unfold generate_with_requirements. cbn [is_empty].
    destruct (Z.gtb_spec (total_required required) length); [lia|].
    destruct (place_required_unmet pools required [] pos Hex)
      as (key & n & Hrun & Hin & Hun).
    exists key, n. unfold bind. by rewrite Hrun.
  - right. do 3 (split; [done|]).
    destruct (generate_with_requirements_returns length pools
                required (c0 :: full) pos)
      as (segs & filler & js & pos' & Hrun & Hsegs & Hflen & _);
      [done|done|done|].
    eexists _, _. split; [exact Hrun|].
    by apply (shuffled_secret_facts pools required segs filler js length []).
Qed.

(** A call that returns gives a secret of the length asked for; a call that
    raises gives an error with a kind of the specification. *)
Lemma generate_with_requirements_length length pools required full_charset
    pos pw pos' :
  generate_with_requirements entropy length pools required full_charset pos
  = Ok (pw, pos') ->
  len pw = length.
Proof.
  intros Hrun.
  destruct (generate_with_requirements_cases length pools required
              full_charset pos)
    as [[_ H]|[(_ & _ & H)|[(_ & _ & _ & key & m & H & _)
       |(_ & _ & _ & pw' & pos'' & H & Hlen)]]];
    rewrite H in Hrun; by simplify_eq.
Qed.

Lemma generate_with_requirements_labelled length pools required full_charset
    pos e :
  generate_with_requirements entropy length pools required full_charset pos
  = Raise e ->
  exists kind, kind_of_exn e = Some kind.
Proof.
  intros Hrun.
  destruct (generate_with_requirements_cases length pools required
              full_charset pos)
    as [[_ H]|[(_ & _ & H)|[(_ & _ & _ & key & m & H & _)
       |(_ & _ & _ & pw' & pos'' & H & Hlen)]]];
    rewrite H in Hrun; simplify_eq; by eexists.
Qed.

End Rejections.

(** ** The constrained sampler *)

(** C1. For a non-empty full charset, pools included in it, a non-empty pool
    for every class with a positive count, and a sum of the required counts
    that fits in [length] (the counts being non-negative, as a generation
    configuration has them), [generate_with_requirements] returns, whatever
    the random source hands out; the secret has exactly [length] characters,
    all of the full charset, and for every class at least its required count
    of characters of the class's pool. *)
Theorem generate_with_requirements_meets_requirements
    (entropy : nat -> nat) (pos : nat) (length : Z)
    (pools : gmap string str) (required : list (string * Z))
    (full_charset : str) :
  full_charset <> [] ->
  (forall key pool, pools !! key = Some pool -> pool ⊆ full_charset) ->
  (forall key n, (key, n) ∈ required -> 0 <= n) ->
  (forall key n, (key, n) ∈ required -> 0 < n -> pool_of pools key <> []) ->
  sum_counts required <= length ->
  exists pw pos',
    generate_with_requirements entropy length pools required full_charset pos
    = Ok (pw, pos')
    /\ len pw = length
    /\ (forall c, c ∈ pw -> c ∈ full_charset)
    /\ (forall key n, (key, n) ∈ required ->
          n <= Z.of_nat (count_in (pool_of pools key) pw)).
Proof.
  intros Hfull Hsub Hnonneg Hpools Hsum.
  pose proof (total_required_nonneg required Hnonneg) as Htotal.
  destruct (generate_with_requirements_returns entropy length pools required
              full_charset pos)
    as (segs & filler & js & pos' & Hrun & Hsegs & Hflen & Hfall).
  - done.
  - lia.
  - intros ([key n] & Hin & Hn & Hpool)%Exists_exists. simpl in *.
    apply (Hpools key n Hin); [|done].
    specialize (Hnonneg key n Hin). lia.
  - destruct (shuffled_secret_facts pools required segs filler js length
                full_charset Hsegs Hflen ltac:(lia))
      as (Hlen & Hin & Hcount).
    eexists _, _. split; [exact Hrun|]. split; [done|].
    split; [by apply Hin|].
    intros key n Hkn. specialize (Hcount key n Hkn).
    specialize (Hnonneg key n Hkn). lia.
Qed.

(** ** Rejections *)

(** C3. [generate_with_requirements] rejects every violated precondition
    with one of its labelled errors and returns nothing then: an empty full
    charset, a total of required counts above [length], a class with a
    positive count and an empty pool.  A call either raises one of the three
    labelled errors or returns a secret of exactly [length] characters, and
    it returns only when every precondition holds. *)
Theorem generate_with_requirements_all_or_nothing
    (entropy : nat -> nat) (pos : nat) (length : Z)
    (pools : gmap string str) (required : list (string * Z))
    (full_charset : str) :
  let run :=
    generate_with_requirements entropy length pools required full_charset pos
  in
  (full_charset = [] -> run = Raise (ValueError Character_set_is_empty))
  /\ (full_charset <> [] ->
        sum_counts required > length \/ total_required required > length ->
        run = Raise (ValueError (Required_characters_exceed_length
                                   (total_required required) length)))
  /\ (full_charset <> [] -> total_required required <= length ->
        (exists key n, (key, n) ∈ required /\ 0 < n
                       /\ pool_of pools key = []) ->
        exists key n,
          run = Raise (ValueError (Requirement_but_empty_set key))
          /\ (key, n) ∈ required /\ n <> 0 /\ pool_of pools key = [])
  /\ (forall e, run = Raise e ->
        kind_of_exn e = Some EmptyCharset
        \/ kind_of_exn e = Some RequirementExceedsLength
        \/ kind_of_exn e = Some EmptyRequiredPool)
  /\ (forall pw pos', run = Ok (pw, pos') ->
        len pw = length
        /\ full_charset <> []
        /\ sum_counts required <= length
        /\ forall key n, (key, n) ∈ required -> 0 < n ->
                         pool_of pools key <> []).
Proof.
  intros run.
  pose proof (sum_counts_le_total_required required) as Hsum.
  pose proof (generate_with_requirements_cases entropy length pools required
                full_charset pos) as Hcases.
  cbv zeta in Hcases. fold run in Hcases.
  split; [|split; [|split; [|split]]].
  - intros Hfull.
    destruct Hcases as [[_ H]|[[? _]|[[? _]|[? _]]]]; done.
  - intros Hfull Hgt.
    destruct Hcases as [[? _]|[(_ & _ & H)|[(_ & ? & _)|(_ & ? & _)]]];
      try done; lia.
  - intros Hfull Hle (key & n & Hin & Hn & Hpool).
    assert (Hex : Exists (unmet pools) required).
    { apply Exists_exists. exists (key, n). split; [done|].
      split; simpl; [lia|done]. }
    destruct Hcases as [[? _]|[(_ & ? & _)
                       |[(_ & _ & _ & k & m & H & Hk & Hm & Hp)
                        |(_ & _ & ? & _)]]];
      try done; try lia.
    by exists k, m.
  - intros e He.
    destruct Hcases as [[_ H]|[(_ & _ & H)|[(_ & _ & _ & key & m & H & _)
                       |(_ & _ & _ & pw & pos' & H & _)]]];
      rewrite H in He; simplify_eq; simpl; auto.
  - intros pw pos' Hrun.
    destruct Hcases as [[_ H]|[(_ & _ & H)|[(_ & _ & _ & key & m & H & _)
                       |(Hfull & Hle & Hmet & pw' & pos'' & H & Hlen)]]];
      rewrite H in Hrun; simplify_eq.
    split; [done|]. split; [done|]. split; [lia|].
    intros key n Hin Hn Hpool.
    apply Hmet, Exists_exists. exists (key, n). split; [done|].
    split; simpl; [lia|done].
Qed.

(** ** De-duplication preserving order *)

Section Dedup.
Context `{Countable A}.
Implicit Types (l : list A) (x : A).

Lemma dedup_seen l x :
  x ∈ (fold_left dedup_step l (∅, [])).1 <-> x ∈ dedup l.
Proof.
  unfold dedup. induction l as [|y l IH] using rev_ind.
  - simpl. set_solver.
  - rewrite fold_left_app. cbn [fold_left].
    unfold dedup_step at 1 3.
    destruct (decide (y ∈ (fold_left dedup_step l (∅, [])).1)); [done|].
    simpl. rewrite elem_of_union, elem_of_singleton, elem_of_app, IH.
    rewrite list_elem_of_singleton. tauto.
Qed.

(** The loop, one element at a time. *)
Lemma dedup_snoc l x :
  dedup (l ++ [x]) = if decide (x ∈ dedup l) then dedup l else dedup l ++ [x].
Proof.
  unfold dedup at 1. rewrite fold_left_app. cbn [fold_left].
  unfold dedup_step at 1.
  destruct (decide (x ∈ (fold_left dedup_step l (∅, [])).1)) as [Hin|Hin];
    rewrite dedup_seen in Hin.
  - by rewrite decide_True.
  - by rewrite decide_False.
Qed.

Lemma dedup_nil : dedup (@nil A) = [].
Proof. done. Qed.

Lemma elem_of_dedup l x : x ∈ dedup l <-> x ∈ l.
Proof.
  induction l as [|y l IH] using rev_ind; [done|].
  rewrite dedup_snoc, elem_of_app, list_elem_of_singleton.
  destruct (decide (y ∈ dedup l)) as [Hy|Hy].
  - rewrite IH. split; [tauto|]. intros [?| ->]; [done|]. by apply IH.
  - rewrite elem_of_app, list_elem_of_singleton, IH. tauto.
Qed.

Lemma NoDup_dedup l : NoDup (dedup l).
Proof.
  induction l as [|y l IH] using rev_ind; [constructor|].
  rewrite dedup_snoc. destruct (decide (y ∈ dedup l)) as [Hy|Hy]; [done|].
  apply NoDup_app. split; [done|]. split; [|apply NoDup_singleton].
  intros x Hx ->%list_elem_of_singleton. done.
Qed.

Lemma first_index_app_l x l l' :
  x ∈ l -> first_index x (l ++ l') = first_index x l.
Proof.
  induction l as [|y l IH]; intros Hx; [by apply elem_of_nil in Hx|].
  simpl. destruct (decide (x = y)); [done|].
  apply elem_of_cons in Hx as [?|Hx]; [done|]. by rewrite IH.
Qed.

Lemma first_index_app_r x l l' :
  x ∉ l -> first_index x (l ++ l') = (List.length l + first_index x l')%nat.
Proof.
  induction l as [|y l IH]; intros Hx; [done|].
  simpl. apply not_elem_of_cons in Hx as [? Hx].
  rewrite decide_False by done. by rewrite IH.
Qed.

Lemma first_index_lt x l : x ∈ l -> (first_index x l < List.length l)%nat.
Proof.
  induction l as [|y l IH]; intros Hx; [by apply elem_of_nil in Hx|].
  simpl. destruct (decide (x = y)); [lia|].
  apply elem_of_cons in Hx as [?|Hx]; [done|]. specialize (IH Hx). lia.
Qed.

Lemma StronglySorted_on_elements (R R' : relation A) l :
  (forall a b, a ∈ l -> b ∈ l -> R a b -> R' a b) ->
  StronglySorted R l -> StronglySorted R' l.
Proof.
  intros HR. induction 1 as [|x l Hl IH Hx]; constructor.
  - apply IH. intros a b Ha Hb. apply HR; by right.
  - rewrite Forall_forall in *. intros b Hb.
    apply HR; [left|by right|by apply Hx].
Qed.

Lemma StronglySorted_filter (R : relation A) (P : A -> Prop)
    `{forall x, Decision (P x)} l :
  StronglySorted R l -> StronglySorted R (filter P l).
Proof.
  induction 1 as [|x l Hl IH Hx]; [constructor|].
  rewrite filter_cons. destruct (decide (P x)); [|done].
  constructor; [done|]. rewrite Forall_forall in *.
  intros b [_ Hb]%list_elem_of_filter. by apply Hx.
Qed.

(** Every element stands where its first occurrence puts it. *)
Lemma dedup_in_first_occurrence_order l :
  in_first_occurrence_order l (dedup l).
Proof.
  unfold in_first_occurrence_order.
  induction l as [|y l IH] using rev_ind; [constructor|].
  rewrite dedup_snoc.
  assert (Hkeep : StronglySorted
            (fun a b => (first_index a (l ++ [y])
                         < first_index b (l ++ [y]))%nat) (dedup l)).
  { eapply StronglySorted_on_elements; [|exact IH]. simpl.
    intros a b Ha Hb.
    apply (proj1 (elem_of_dedup l a)) in Ha.
    apply (proj1 (elem_of_dedup l b)) in Hb.
    by rewrite (first_index_app_l a), (first_index_app_l b). }
  destruct (decide (y ∈ dedup l)) as [Hy|Hy]; [done|].
  apply StronglySorted_app. split; [|split; [done|repeat constructor]].
  intros a b Ha ->%list_elem_of_singleton.
  apply (proj1 (elem_of_dedup l a)) in Ha.
  rewrite elem_of_dedup in Hy.
  rewrite first_index_app_l, first_index_app_r by done.
  pose proof (first_index_lt a l Ha). lia.
Qed.

(** Filtering before or after the loop gives the same list. *)
Lemma dedup_filter (P : A -> Prop) `{forall x, Decision (P x)} l :
  dedup (filter P l) = filter P (dedup l).
Proof.
  induction l as [|y l IH] using rev_ind; [done|].
  rewrite filter_app, dedup_snoc, filter_cons, filter_nil.
  destruct (decide (P y)) as [HP|HP].
  - rewrite dedup_snoc, IH.
    destruct (decide (y ∈ dedup l)) as [Hy|Hy].
    + rewrite decide_True; [done|]. by apply list_elem_of_filter.
    + rewrite decide_False by (by intros [_ ?]%list_elem_of_filter).
      rewrite filter_app, filter_cons, filter_nil.
      by rewrite decide_True.
  - rewrite app_nil_r, IH.
    destruct (decide (y ∈ dedup l)) as [Hy|Hy]; [done|].
    rewrite filter_app, filter_cons, filter_nil.
    rewrite decide_False by done. by rewrite app_nil_r.
Qed.

End Dedup.

(** ** The charset *)

(** Removing the ambiguous characters before the de-duplication, as the
    code does, or after it gives the same charset. *)
Lemma build_charset_exclusion_after include_lower include_upper
    include_digits include_symbols custom_symbols exclude_ambiguous :
  build_charset include_lower include_upper include_digits include_symbols
    custom_symbols exclude_ambiguous
  = let cands :=
      candidates include_lower include_upper include_digits include_symbols
        custom_symbols in
    if exclude_ambiguous
    then filter (fun ch => ch ∉ AMBIGUOUS) (dedup cands)
    else dedup cands.
Proof.
  unfold build_charset.
  destruct exclude_ambiguous; [apply dedup_filter|done].
Qed.

Lemma elem_of_build_charset include_lower include_upper include_digits
    include_symbols custom_symbols exclude_ambiguous ch :
  ch ∈ build_charset include_lower include_upper include_digits
         include_symbols custom_symbols exclude_ambiguous
  <-> ch ∈ candidates include_lower include_upper include_digits
             include_symbols custom_symbols
      /\ (exclude_ambiguous = true -> ch ∉ AMBIGUOUS).
Proof.
  rewrite build_charset_exclusion_after. cbv zeta.
  destruct exclude_ambiguous.
  - rewrite list_elem_of_filter, elem_of_dedup.
    split; [by intros [? ?]|]. intros [? Hx]. split; [by apply Hx|done].
  - rewrite elem_of_dedup. split; [done|by intros [? _]].
Qed.

(** C4. Whatever the flags and the custom symbols, [build_charset] returns a
    string without duplicates whose characters are the candidates (the
    alphabets of the selected classes in the order lower, upper, digits,
    symbols) that are not excluded, each at the place of its first
    occurrence among the candidates; the ambiguous characters are removed
    before the de-duplication (which gives the same string as removing them
    after it), so with the flag set none of them is left; and the lowercase
    class alone gives the 26 lowercase letters in order. *)
Theorem build_charset_guarantees
    (include_lower include_upper include_digits include_symbols : bool)
    (custom_symbols : str) (exclude_ambiguous : bool) :
  let charset :=
    build_charset include_lower include_upper include_digits include_symbols
      custom_symbols exclude_ambiguous in
  let cands :=
    candidates include_lower include_upper include_digits include_symbols
      custom_symbols in
  NoDup charset
  /\ cands = (if include_lower then ascii_lowercase else [])
             ++ (if include_upper then ascii_uppercase else [])
             ++ (if include_digits then digits else [])
             ++ (if include_symbols then symbols_of custom_symbols else [])
  /\ in_first_occurrence_order cands charset
  /\ (forall ch, ch ∈ charset <->
        ch ∈ cands /\ (exclude_ambiguous = true -> ch ∉ AMBIGUOUS))
  /\ charset = dedup (if exclude_ambiguous
                      then filter (fun ch => ch ∉ AMBIGUOUS) cands
                      else cands)
  /\ charset = (if exclude_ambiguous
                then filter (fun ch => ch ∉ AMBIGUOUS) (dedup cands)
                else dedup cands)
  /\ build_charset true false false false [] false
     = lit "abcdefghijklmnopqrstuvwxyz".
Proof.
  intros charset cands.
  pose proof (build_charset_exclusion_after include_lower include_upper
                include_digits include_symbols custom_symbols
                exclude_ambiguous) as Hafter.
  cbv zeta in Hafter. fold charset cands in Hafter.
  split; [apply NoDup_dedup|].
  split.
  { unfold cands, candidates.
    destruct include_lower, include_upper, include_digits, include_symbols;
      by rewrite ?app_nil_r, <- ?app_assoc. }
  split.
  { rewrite Hafter. destruct exclude_ambiguous.
    - apply StronglySorted_filter, dedup_in_first_occurrence_order.
    - apply dedup_in_first_occurrence_order. }
  split; [intros ch; apply elem_of_build_charset|].
  split; [done|]. split; [done|]. by vm_compute.
Qed.

(** ** The entropy estimate *)

(** *** The conversion of an int to a float *)

Lemma shr_1_nonneg m r s :
  0 <= m ->
  shr_1 {| shr_m := m; shr_r := r; shr_s := s |}
  = {| shr_m := m / 2; shr_r := Z.odd m; shr_s := r || s |}.
Proof.
  intros Hm. rewrite <- Z.div2_div.
  destruct m as [|[p|p|]|p]; try done; lia.
Qed.

Lemma iter_pos_iter {A} (f : A -> A) p x :
  SpecFloat.iter_pos f p x = Nat.iter (Pos.to_nat p) f x.
Proof.
  revert x. induction p as [p IH|p IH|]; intros x; cbn [SpecFloat.iter_pos].
  - rewrite !IH, Pos2Nat.inj_xI, Nat.iter_succ_r.
    replace (2 * Pos.to_nat p)%nat with (Pos.to_nat p + Pos.to_nat p)%nat
      by lia.
    by rewrite Nat.iter_add.
  - rewrite !IH, Pos2Nat.inj_xO.
    replace (2 * Pos.to_nat p)%nat with (Pos.to_nat p + Pos.to_nat p)%nat
      by lia.
    by rewrite Nat.iter_add.
  - done.
Qed.

Lemma iter_shr_1 k m :
  0 <= m ->
  exists s,
    Nat.iter (S k) shr_1 {| shr_m := m; shr_r := false; shr_s := false |}
    = {| shr_m := m / 2 ^ Z.of_nat (S k);
         shr_r := Z.odd (m / 2 ^ Z.of_nat k);
         shr_s := s |}.
Proof.
  intros Hm. induction k as [|k [s IH]].
  - exists false. cbn [Nat.iter nat_rect]. rewrite shr_1_nonneg by done.
    change (2 ^ Z.of_nat 1) with 2. change (2 ^ Z.of_nat 0) with 1.
    by rewrite Z.div_1_r.
  - rewrite Nat.iter_succ, IH.
    rewrite shr_1_nonneg by (apply Z.div_pos; lia).
    eexists. f_equal.
    rewrite Z.div_div by lia. f_equal.
    rewrite (Nat2Z.inj_succ (S k)), Z.pow_succ_r by lia. lia.
Qed.

Lemma digits2_pos_log2 p : Z.pos (digits2_pos p) = Z.log2 (Z.pos p) + 1.
Proof.
  assert (Hsize : forall q, digits2_pos q = Pos.size q).
  { induction q as [q IH|q IH|]; cbn [digits2_pos Pos.size]; by rewrite ?IH. }
  destruct p as [p|p|]; cbn [digits2_pos Z.log2]; rewrite ?Hsize; lia.
Qed.

Lemma digits2_pos_bounds p :
  2 ^ (Z.pos (digits2_pos p) - 1) <= Z.pos p < 2 ^ Z.pos (digits2_pos p).
Proof.
  rewrite digits2_pos_log2.
  pose proof (Z.log2_spec (Z.pos p) ltac:(lia)) as H.
  replace (Z.log2 (Z.pos p) + 1 - 1) with (Z.log2 (Z.pos p)) by lia.
  unfold Z.succ in H. lia.
Qed.

Lemma digits2_pos_unique p d :
  2 ^ (d - 1) <= Z.pos p < 2 ^ d -> Z.pos (digits2_pos p) = d.
Proof.
  intros H. rewrite digits2_pos_log2.
  assert (0 < d).
  { destruct (Z.le_gt_cases d 0) as [Hd|]; [|done].
    assert (2 ^ d <= 2 ^ 0) by (apply Z.pow_le_mono_r; lia).
    change (2 ^ 0) with 1 in *. lia. }
  rewrite (Z.log2_unique (Z.pos p) (d - 1)); [lia|lia|].
  unfold Z.succ. by replace (d - 1 + 1) with d by lia.
Qed.

Lemma fexp_above d : -1021 <= d -> fexp 53 1024 d = d - 53.
Proof. unfold fexp, emin. lia. Qed.

Lemma binary_round_aux_canonical m e :
  Z.pos (digits2_pos m) = 53 -> -1074 <= e ->
  binary_round_aux 53 1024 false (Z.pos m) e loc_Exact
  = if e <=? 971 then S754_finite false m e else S754_infinity false.
Proof.
  intros Hd He.
  assert (Hfexp : fexp 53 1024 (53 + e) - e = 0)
    by (unfold fexp, emin; lia).
  assert (Hshr : shr_fexp 53 1024 (Z.pos m) e loc_Exact
                 = ({| shr_m := Z.pos m; shr_r := false; shr_s := false |}, e)).
  { unfold shr_fexp. cbn [Zdigits2 shr_record_of_loc]. by rewrite Hd, Hfexp. }
  unfold binary_round_aux. rewrite Hshr.
  cbn [shr_m loc_of_shr_record round_nearest_even]. rewrite Hshr.
  cbn [shr_m]. done.
Qed.

Lemma Pos_iter_xO p s : Z.pos (Pos.iter xO p s) = Z.pos p * 2 ^ Z.pos s.
Proof.
  induction s as [|s IH] using Pos.peano_ind.
  - cbn [Pos.iter]. lia.
  - rewrite Pos.iter_succ, Pos2Z.inj_xO, IH, Pos2Z.inj_succ.
    rewrite Z.pow_succ_r by lia. lia.
Qed.

(** An int of at most 53 bits: the double holds it as it is. *)
Lemma binary_normalize_small p :
  Z.pos p < 2 ^ 53 ->
  exists m e,
    binary_normalize 53 1024 (Z.pos p) 0 false = S754_finite false m e
    /\ -52 <= e <= 0 /\ Z.pos m = Z.pos p * 2 ^ (- e).
Proof.
  intros Hp. pose proof (digits2_pos_bounds p) as Hd.
  set (d := Z.pos (digits2_pos p)) in *.
  assert (Hd53 : 1 <= d <= 53).
  { split; [subst d; lia|].
    destruct (Z.le_gt_cases d 53) as [|Hgt]; [done|].
    assert (2 ^ 53 <= 2 ^ (d - 1)) by (apply Z.pow_le_mono_r; lia). lia. }
  unfold binary_normalize, binary_round. fold d.
  rewrite Z.add_0_r, fexp_above by lia. unfold shl_align.
  rewrite Z.sub_0_r.
  destruct (d - 53) as [|s|s] eqn:Hs; [|lia|].
  - rewrite binary_round_aux_canonical by (fold d; lia).
    exists p, 0. cbn [Z.leb Z.compare]. split; [done|]. split; [lia|].
    change (2 ^ (- 0)) with 1. lia.
  - assert (Hm : Z.pos (digits2_pos (Pos.iter xO p s)) = 53).
    { apply digits2_pos_unique. rewrite Pos_iter_xO.
      replace (Z.pos s) with (53 - d) by lia.
      replace (2 ^ (53 - 1)) with (2 ^ (d - 1) * 2 ^ (53 - d))
        by (rewrite <- Z.pow_add_r by lia; f_equal; lia).
      replace (2 ^ 53) with (2 ^ d * 2 ^ (53 - d))
        by (rewrite <- Z.pow_add_r by lia; f_equal; lia).
      assert (0 < 2 ^ (53 - d)) by (apply Z.pow_pos_nonneg; lia).
      nia. }
    rewrite binary_round_aux_canonical by (done || lia).
    destruct (Z.leb_spec (Z.neg s) 971); [|lia].
    eexists _, _. split; [done|]. split; [lia|].
    rewrite Pos_iter_xO. done.
Qed.

(** A longer int: the 53 leading bits, rounded to nearest with ties to
    even by the bit that follows them, the bits after it and the last bit
    kept. *)
Lemma binary_normalize_large p :
  let n := Z.pos p in
  let k := Z.pos (digits2_pos p) - 53 in
  let q := n / 2 ^ k in
  2 ^ 53 <= n ->
  0 < k /\ 2 ^ 52 <= q < 2 ^ 53
  /\ exists m1 : positive,
       (Z.pos m1 = q \/ Z.pos m1 = q + 1)
       /\ (Z.odd (n / 2 ^ (k - 1)) = false -> Z.pos m1 = q)
       /\ (Z.odd (n / 2 ^ (k - 1)) = true -> Z.odd q = true ->
           Z.pos m1 = q + 1)
       /\ binary_normalize 53 1024 n 0 false
          = if Z.pos m1 =? 2 ^ 53
            then if k + 1 <=? 971
                 then S754_finite false (2 ^ 52)%positive (k + 1)
                 else S754_infinity false
            else if k <=? 971 then S754_finite false m1 k
                 else S754_infinity false.
Proof.
  intros n k q Hn. pose proof (digits2_pos_bounds p) as Hd.
  set (d := Z.pos (digits2_pos p)) in *. fold n in Hd.
  assert (Hk : 0 < k).
  { subst k. destruct (Z.le_gt_cases d 53) as [Hle|]; [|lia].
    assert (2 ^ d <= 2 ^ 53) by (apply Z.pow_le_mono_r; lia). lia. }
  assert (Hpow : 0 < 2 ^ k) by (apply Z.pow_pos_nonneg; lia).
  assert (Hq : 2 ^ 52 <= q < 2 ^ 53).
  { subst q. split.
    - apply Z.div_le_lower_bound; [done|].
      replace (2 ^ k * 2 ^ 52) with (2 ^ (d - 1)); [lia|].
      rewrite <- Z.pow_add_r by lia. f_equal. lia.
    - apply Z.div_lt_upper_bound; [done|].
      replace (2 ^ k * 2 ^ 53) with (2 ^ d); [lia|].
      rewrite <- Z.pow_add_r by lia. f_equal. lia. }
  split; [done|]. split; [done|].
  change (binary_normalize 53 1024 n 0 false)
    with (binary_round 53 1024 false p 0).
  assert (Hkd : d - 53 = k) by done.
  assert (Hk' : exists k', k = Z.pos k') by (exists (Z.to_pos k); lia).
  destruct Hk' as [k' Hk']. clearbody k.
  unfold binary_round. fold d.
  rewrite Z.add_0_r, fexp_above by lia. unfold shl_align.
  rewrite Z.sub_0_r, Hkd, Hk'. rewrite <- Hk'.
  unfold binary_round_aux.
  assert (Hshr : exists s,
            shr_fexp 53 1024 (Z.pos p) 0 loc_Exact
            = ({| shr_m := q; shr_r := Z.odd (n / 2 ^ (k - 1));
                  shr_s := s |}, k)).
  { unfold shr_fexp. cbn [Zdigits2 shr_record_of_loc]. fold d.
    rewrite Z.add_0_r, fexp_above, Z.sub_0_r, Hkd by lia.
    rewrite Hk'. unfold shr. rewrite iter_pos_iter.
    destruct (Pos2Nat.is_succ k') as [j Hj]. rewrite Hj.
    destruct (iter_shr_1 j (Z.pos p) ltac:(lia)) as [s ->].
    exists s. subst q n. rewrite <- Hj, positive_nat_Z, Hk'.
    replace (Z.of_nat j) with (Z.pos k' - 1) by lia. done. }
  destruct Hshr as [s ->]. cbn [shr_m].
  set (r := Z.odd (n / 2 ^ (k - 1))).
  set (m1 := round_nearest_even q
               (loc_of_shr_record {| shr_m := q; shr_r := r; shr_s := s |})).
  assert (Hm1 : (m1 = q \/ m1 = q + 1)
                /\ (r = false -> m1 = q)
                /\ (r = true -> Z.odd q = true -> m1 = q + 1)).
  { subst m1. destruct r, s; cbn [loc_of_shr_record round_nearest_even];
      try (split; [by auto|split; by auto]).
    rewrite <- Z.negb_odd. destruct (Z.odd q); cbn [negb];
      (split; [by auto|split; by auto]). }
  clearbody m1. destruct Hm1 as (Hcases & Hdown & Hup).
  destruct m1 as [|m1|m1]; [lia| |lia].
  exists m1. split; [done|]. split; [done|]. split; [done|].
  destruct (Z.eqb_spec (Z.pos m1) (2 ^ 53)) as [Heq|Hne].
  - assert (m1 = (2 ^ 53)%positive) as -> by lia.
    assert (Hshr : shr_fexp 53 1024 (Z.pos (2 ^ 53)) k loc_Exact
                   = ({| shr_m := Z.pos (2 ^ 52); shr_r := false;
                         shr_s := false |}, k + 1)).
    { unfold shr_fexp. cbn [Zdigits2 shr_record_of_loc].
      change (Z.pos (digits2_pos (2 ^ 53))) with 54.
      rewrite fexp_above by lia.
      replace (54 + k - 53 - k) with 1 by lia. done. }
    rewrite Hshr. cbn [shr_m]. done.
  - assert (Hdig : Z.pos (digits2_pos m1) = 53).
    { apply digits2_pos_unique. change (2 ^ 53) with 9007199254740992 in *.
      change (2 ^ (53 - 1)) with 4503599627370496.
      change (2 ^ 52) with 4503599627370496 in *. lia. }
    assert (Hshr : shr_fexp 53 1024 (Z.pos m1) k loc_Exact
                   = ({| shr_m := Z.pos m1; shr_r := false;
                         shr_s := false |}, k)).
    { unfold shr_fexp. cbn [Zdigits2 shr_record_of_loc].
      rewrite Hdig, fexp_above by lia.
      replace (53 + k - 53 - k) with 0 by lia. done. }
    rewrite Hshr. cbn [shr_m]. done.
Qed.

(** The ints that convert are those below [int_too_large]: it is the first
    int whose nearest double would be [2 ^ 1024]. *)
Lemma float_of_int_positive n :
  0 < n ->
  (n < int_too_large
   /\ exists m e, float_of_int n = Returns (S754_finite false m e))
  \/ (int_too_large <= n /\ float_of_int n = Raises OverflowError).
Proof.
  intros Hn. destruct n as [|p|p]; [lia| |lia]. unfold float_of_int.
  destruct (Z.lt_ge_cases (Z.pos p) (2 ^ 53)) as [Hsmall|Hlarge].
  { left. split.
    - assert (2 ^ 53 <= int_too_large) by (by vm_compute). lia.
    - destruct (binary_normalize_small p Hsmall) as (m & e & -> & _).
      by exists m, e. }
  destruct (binary_normalize_large p Hlarge)
    as (Hk & Hq & m1 & Hcases & Hdown & Hup & ->).
  pose proof (digits2_pos_bounds p) as Hd.
  set (d := Z.pos (digits2_pos p)) in *.
  set (k := d - 53) in *. set (n := Z.pos p) in *.
  destruct (Z.lt_trichotomy k 971) as [Hlt|[Heq|Hgt]].
  - left. split.
    + assert (2 ^ d <= 2 ^ 1023) by (apply Z.pow_le_mono_r; lia).
      assert (2 ^ 1023 < int_too_large) by (by vm_compute). lia.
    + destruct (Z.leb_spec (k + 1) 971); [|lia].
      destruct (Z.leb_spec k 971); [|lia].
      destruct (_ =? _); by eexists _, _.
  - rewrite Heq in *. change (971 + 1 <=? 971) with false.
    change (971 <=? 971) with true.
    set (a := n / 2 ^ 970) in *. change (971 - 1) with 970 in *.
    fold a in Hdown, Hup.
    assert (Ha : a / 2 = n / 2 ^ 971).
    { subst a. rewrite Z.div_div by lia. done. }
    assert (Hodd : a = 2 * (n / 2 ^ 971) + (if Z.odd a then 1 else 0)).
    { rewrite <- Ha. rewrite (Z.div_mod a 2) at 1 by lia.
      rewrite Zmod_odd. done. }
    assert (Hthreshold : int_too_large <= n <-> 2 ^ 54 - 1 <= a).
    { subst a. unfold int_too_large. split.
      - intros H. apply Z.div_le_lower_bound; [lia|].
        replace (2 ^ 970 * (2 ^ 54 - 1)) with (2 ^ 1024 - 2 ^ 970)
          by (by vm_compute). lia.
      - intros H.
        assert (2 ^ 970 * (2 ^ 54 - 1) <= n).
        { etrans; [apply Z.mul_le_mono_nonneg_l; [lia|exact H]|].
          apply Z.mul_div_le. lia. }
        replace (2 ^ 970 * (2 ^ 54 - 1)) with (2 ^ 1024 - 2 ^ 970) in *
          by (by vm_compute). lia. }
    change (2 ^ 53) with 9007199254740992 in *.
    change (2 ^ 52) with 4503599627370496 in *.
    change (2 ^ 54 - 1) with 18014398509481983 in *.
    destruct (Z.eqb_spec (Z.pos m1) 9007199254740992) as [Hm|Hm].
    + right. split; [|done]. apply Hthreshold.
      destruct (Z.odd a) eqn:Hr; [lia|].
      specialize (Hdown eq_refl). lia.
    + left. split; [|by eexists _, _].
      apply Z.nle_gt. intros Habove%Hthreshold.
      destruct (Z.odd a) eqn:Hr.
      * assert (n / 2 ^ 971 = 9007199254740991) as Hq' by lia.
        rewrite Hq' in Hup. specialize (Hup eq_refl eq_refl). lia.
      * lia.
  - right. split.
    + assert (2 ^ 1024 <= 2 ^ (d - 1)) by (apply Z.pow_le_mono_r; lia).
      assert (int_too_large < 2 ^ 1024) by (by vm_compute). lia.
    + destruct (Z.leb_spec (k + 1) 971); [lia|].
      destruct (Z.leb_spec k 971); [lia|].
      by destruct (_ =? _).
Qed.

(** The largest double is what the last int that converts gives, and the
    next int raises. *)
Lemma float_of_int_at_the_limit :
  float_of_int (int_too_large - 1)
  = Returns (S754_finite false (2 ^ 53 - 1) 971)
  /\ float_of_int int_too_large = Raises OverflowError.
Proof. split; by vm_compute. Qed.

(** C6, amended.  The estimate is [0.0] when the size is at most 1 or the
    length is at most 0.  Otherwise it is the product of two doubles,
    rounded to the nearest double: the length converted to a float, which
    for a length below [2 ^ 53] is the length itself, and [math.log2] of
    the size.  This holds for the lengths below [2 ^ 1024 - 2 ^ 970]; from
    that length on the conversion raises OverflowError and no estimate is
    returned. *)
Theorem estimate_entropy_bits_formula `{MathLibrary}
    (length charset_size : Z) :
  (charset_size <= 1 \/ length <= 0 ->
     estimate_entropy_bits length charset_size = Returns float_zero)
  /\ (0 < length -> 1 < charset_size ->
        (length < int_too_large ->
           exists m e,
             float_of_int length = Returns (S754_finite false m e)
             /\ (length < 2 ^ 53 ->
                  e <= 0 /\ Z.pos m = length * 2 ^ (- e))
             /\ estimate_entropy_bits length charset_size
                = Returns (SFmul 53 1024 (S754_finite false m e)
                             (log2_of_positive charset_size)))
        /\ (int_too_large <= length ->
              estimate_entropy_bits length charset_size
              = Raises OverflowError)).
Proof.
  split.
  - unfold estimate_entropy_bits. intros [HS|HL].
    + destruct (Z.leb_spec charset_size 1); [|lia]. by rewrite orb_true_r.
    + destruct (Z.leb_spec length 0); [done|lia].
  - intros HL HS.
    assert (Hrun : estimate_entropy_bits length charset_size
                   = int_mul_float length (log2_of_positive charset_size)).
    { unfold estimate_entropy_bits, math_log2.
      destruct (Z.leb_spec length 0); [lia|].
      destruct (Z.leb_spec charset_size 1); [lia|]. cbn [orb].
      destruct (Z.leb_spec charset_size 0); [lia|done]. }
    rewrite Hrun. unfold int_mul_float. split.
    + intros Hbelow.
      destruct (Z.lt_ge_cases length (2 ^ 53)) as [Hsmall|Hlarge].
      * destruct length as [|p|p]; [lia| |lia].
        destruct (binary_normalize_small p Hsmall)
          as (m & e & Hm & He & Hvalue).
        exists m, e. unfold float_of_int. rewrite Hm.
        split; [done|]. split; [|done]. intros _. split; [lia|done].
      * destruct (float_of_int_positive length HL)
          as [(_ & m & e & Hm)|[Hover _]]; [|lia].
        exists m, e. rewrite Hm. split; [done|]. split; [lia|done].
    + intros Hover.
      destruct (float_of_int_positive length HL)
        as [[Hbelow _]|[_ ->]]; [lia|done].
Qed.

(** C6, as it is stated, fails: for the length [10 ^ 400] and the size 26
    the estimate is not returned, the call raises OverflowError. *)
Lemma estimate_entropy_bits_overflows :
  0 < 10 ^ 400 /\ 1 < 26
  /\ @estimate_entropy_bits example_library (10 ^ 400) 26
     = Raises OverflowError.
Proof. repeat split; by vm_compute. Qed.

(** ** Word lists *)

Lemma fold_scan_line lines words :
  fold_left scan_line lines words = words ++ omap word_of_line lines.
Proof.
  revert words. induction lines as [|line lines IH]; intros words.
  - by rewrite app_nil_r.
  - cbn [fold_left]. rewrite IH.
    change (omap word_of_line (line :: lines))
      with (match word_of_line line with
            | Some word => word :: omap word_of_line lines
            | None => omap word_of_line lines
            end).
    unfold scan_line, word_of_line at 2.
    destruct (is_empty (strip line)); [done|].
    destruct (forallb acceptable (strip line)); [|done].
    by rewrite <- app_assoc.
Qed.

(** The loader, line by line: the words of the accepted lines, lowered, in
    the order of the file, each kept where it comes first. *)
Lemma filtered_words_spec text :
  filtered_words text = dedup (omap word_of_line (readlines text))
  /\ NoDup (filtered_words text)
  /\ (forall word, word ∈ filtered_words text <->
        exists line, line ∈ readlines text
                     /\ word_of_line line = Some word)
  /\ in_first_occurrence_order (omap word_of_line (readlines text))
       (filtered_words text).
Proof.
  assert (Heq : filtered_words text
                = dedup (omap word_of_line (readlines text))).
  { unfold filtered_words. by rewrite fold_scan_line. }
  split; [done|]. rewrite Heq. split; [apply NoDup_dedup|]. split.
  - intros word. rewrite elem_of_dedup. apply list_elem_of_omap.
  - apply dedup_in_first_occurrence_order.
Qed.

(** The characters a line may be made of: the ASCII letters, the apostrophe,
    the hyphen, and the two characters whose lowercase form begins with an
    ASCII letter. *)
Lemma acceptable_characters ch :
  acceptable ch
  = letter_apostrophe_or_hyphen ch
    || (ch =? CAPITAL_I_WITH_DOT_ABOVE)%N || (ch =? KELVIN_SIGN)%N.
Proof.
  unfold acceptable, letter_apostrophe_or_hyphen, lower_char,
    is_ascii_lower, is_ascii_upper, APOSTROPHE, HYPHEN,
    CAPITAL_I_WITH_DOT_ABOVE, KELVIN_SIGN.
  change (lit "a") with [0x61%N]. change (lit "z") with [0x7A%N].
  destruct (N.leb_spec 0x41 ch), (N.leb_spec ch 0x5A); cbn [andb];
    [cbn [str_le];
     destruct (N.ltb_spec 0x61 (ch + 0x20)), (N.eqb_spec 0x61 (ch + 0x20)),
       (N.ltb_spec (ch + 0x20) 0x7A), (N.eqb_spec (ch + 0x20) 0x7A),
       (N.leb_spec 0x61 ch), (N.leb_spec ch 0x7A),
       (N.eqb_spec ch 0x27), (N.eqb_spec ch 0x2D),
       (N.eqb_spec ch 0x130), (N.eqb_spec ch 0x212A);
     cbn [andb orb]; try reflexivity; lia | | |].
  all: destruct (N.eqb_spec ch 0x130) as [->|?]; [reflexivity|];
    destruct (N.eqb_spec ch 0x212A) as [->|?]; [reflexivity|];
    cbn [str_le];
    destruct (N.ltb_spec 0x61 ch), (N.eqb_spec 0x61 ch),
      (N.ltb_spec ch 0x7A), (N.eqb_spec ch 0x7A),
      (N.leb_spec 0x61 ch), (N.leb_spec ch 0x7A),
      (N.eqb_spec ch 0x27), (N.eqb_spec ch 0x2D);
    cbn [andb orb]; try reflexivity; lia.
Qed.

(** On ASCII text the loader accepts exactly the lines made of letters,
    apostrophes and hyphens. *)
Lemma acceptable_ascii ch :
  (ch < 0x80)%N -> acceptable ch = letter_apostrophe_or_hyphen ch.
Proof.
  intros Hch. rewrite acceptable_characters.
  unfold CAPITAL_I_WITH_DOT_ABOVE, KELVIN_SIGN.
  destruct (N.eqb_spec ch 0x130), (N.eqb_spec ch 0x212A); try lia.
  by rewrite !orb_false_r.
Qed.

(** The example of the specification: "cat\ncat\nDog\n123\nfoo-bar\n". *)
Example filtered_words_example :
  filtered_words
    (lit "cat" ++ [LF] ++ lit "cat" ++ [LF] ++ lit "Dog" ++ [LF]
     ++ lit "123" ++ [LF] ++ lit "foo-bar" ++ [LF])
  = [lit "cat"; lit "dog"; lit "foo-bar"].
Proof. by vm_compute. Qed.

(** C5. The loader accepts a character when it is an ASCII letter, an
    apostrophe or a hyphen, and also when it is one of two other characters.
    A line that consists of the Kelvin sign (U+212A), which is not an ASCII
    letter, an apostrophe or a hyphen, is accepted and gives the word "k"; a
    line that consists of the capital I with dot above (U+0130) is accepted
    and gives a word with a combining dot, which is none of the characters a
    word may have. *)
Theorem non_ascii_letters_are_accepted :
  (forall ch,
      acceptable ch
      = letter_apostrophe_or_hyphen ch
        || (ch =? CAPITAL_I_WITH_DOT_ABOVE)%N || (ch =? KELVIN_SIGN)%N)
  /\ letter_apostrophe_or_hyphen KELVIN_SIGN = false
  /\ filtered_words [KELVIN_SIGN; LF] = [lit "k"]
  /\ letter_apostrophe_or_hyphen CAPITAL_I_WITH_DOT_ABOVE = false
  /\ filtered_words [CAPITAL_I_WITH_DOT_ABOVE; LF]
     = [lit "i" ++ [COMBINING_DOT_ABOVE]]
  /\ letter_apostrophe_or_hyphen COMBINING_DOT_ABOVE = false.
Proof.
  split; [apply acceptable_characters|].
  repeat split; by vm_compute.
Qed.

(** C7. Loading is all or nothing for the word list of the window.  When
    the file cannot be read, or no line of it gives a word, the call returns
    [False], shows an error and leaves the window as it was; otherwise it
    returns [True] and the word list becomes the list read from the file, so
    that a word of the old list is in the new one only if the file has
    it. *)
Theorem load_wordlist_is_all_or_nothing (w : window) (file : option str) :
  let '(w', shown, ok) := _load_wordlist_from_path w file in
  match file with
  | None =>
      w' = w /\ ok = false /\ shown = [Error Failed_to_load_wordlist]
  | Some text =>
      (filtered_words text = [] ->
         w' = w /\ ok = false
         /\ last shown = Some (Error No_usable_words)
         /\ kind_of_message No_usable_words = Some EmptyVocabulary)
      /\ (filtered_words text <> [] ->
            ok = true
            /\ wordlist w' = filtered_words text
            /\ w' = set_wordlist w (filtered_words text)
            /\ (forall msg, Error msg ∉ shown)
            /\ forall word, word ∈ wordlist w -> word ∈ wordlist w' ->
                            word ∈ filtered_words text)
  end.
Proof.
  unfold _load_wordlist_from_path. destruct file as [text|]; [|done].
  destruct (filtered_words text) as [|word words] eqn:Hwords; cbn [is_empty negb].
  - split; [|done]. intros _. split; [done|]. split; [done|].
    split; [|done]. by destruct (len [] <? 256).
  - split; [done|]. intros _. split; [done|]. split; [done|].
    split; [done|]. split; [|done].
    intros msg. destruct (len (word :: words) <? 256).
    + by intros ?%list_elem_of_singleton.
    + apply not_elem_of_nil.
Qed.

(** ** Passphrases *)

Section Passphrases.
Variable entropy : nat -> nat.

Lemma repeat_choice_drawn_words words n pos :
  words <> [] ->
  repeat_M n (choice entropy words) pos
  = Ok (drawn_words entropy pos n words, (pos + n)%nat).
Proof.
  intros Hwords. revert pos. induction n as [|n IH]; intros pos.
  - simpl. unfold ret. do 2 f_equal. lia.
  - cbn [repeat_M drawn_words]. unfold bind.
    destruct (choice_nonempty entropy words pos Hwords) as (w & -> & _ & Hw).
    rewrite IH. unfold ret. do 2 f_equal; [|lia].
    f_equal. symmetry. by apply nth_lookup_Some.
Qed.

Lemma drawn_words_length words n pos :
  List.length (drawn_words entropy pos n words) = n.
Proof.
  revert pos. induction n as [|n IH]; intros pos; simpl; [done|].
  by rewrite IH.
Qed.

Lemma drawn_words_lookup words n pos k :
  words <> [] -> (k < n)%nat ->
  drawn_words entropy pos n words !! k
  = words !! (entropy (pos + k)%nat `mod` List.length words)%nat.
Proof.
  intros Hwords. revert pos k.
  induction n as [|n IH]; intros pos [|k] Hk; try lia.
  - cbn [drawn_words]. rewrite Nat.add_0_r. simpl.
    assert (Hlt : (entropy pos `mod` List.length words
                   < List.length words)%nat).
    { apply Nat.mod_upper_bound. by destruct words. }
    destruct (lookup_lt_is_Some_2 _ _ Hlt) as [w Hw]. rewrite Hw.
    f_equal. by apply nth_lookup_Some.
  - cbn [drawn_words]. simpl. rewrite IH by lia. do 3 f_equal. lia.
Qed.

Lemma drawn_words_in words n pos :
  words <> [] -> Forall (fun w => w ∈ words) (drawn_words entropy pos n words).
Proof.
  intros Hwords. apply Forall_lookup. intros k w Hk.
  assert (Hlt : (k < n)%nat).
  { apply lookup_lt_Some in Hk. by rewrite drawn_words_length in Hk. }
  rewrite drawn_words_lookup in Hk by done.
  by eapply list_elem_of_lookup_2.
Qed.

(** With an empty list and at least one word to draw the call ends in the
    [IndexError] of [secrets.choice]; with no word to draw it returns the
    empty string. *)
Lemma generate_passphrase_empty_words n_words sep cap pos :
  generate_passphrase entropy n_words [] sep cap pos
  = if n_words <=? 0 then Ok ([], pos) else Raise IndexError.
Proof.
  unfold generate_passphrase, bind.
  destruct (Z.leb_spec n_words 0) as [Hn|Hn].
  - replace (Z.to_nat n_words) with O by lia. simpl. by destruct cap.
  - destruct (Z.to_nat n_words) as [|n] eqn:E; [lia|]. done.
Qed.

End Passphrases.



(** ** The Generate button *)

Lemma repeat_M_returns {A} (m : M A) n pos :
  (forall p, exists a p', m p = Ok (a, p')) ->
  exists l pos', repeat_M n m pos = Ok (l, pos') /\ List.length l = n.
Proof.
  intros Hm. revert pos. induction n as [|n IH]; intros pos.
  - by exists [], pos.
  - destruct (Hm pos) as (a & p' & Ha).
    destruct (IH p') as (l & pos' & Hl & Hlen).
    exists (a :: l), pos'. cbn [repeat_M]. unfold bind, ret.
    rewrite Ha, Hl. simpl. by rewrite Hlen.
Qed.

(** C9. In passphrase mode a request with an empty word list is answered
    with the error box "No wordlist available. Load a wordlist first." (the
    EmptyVocabulary kind) before any word is drawn, and the window is left as
    it was; with a word list that is not empty the request never fails.  So
    no exception of [generate_passphrase] reaches the user. *)
Theorem on_generate_passphrase_without_wordlist
    (entropy : nat -> nat) (w : window) (pos : nat) :
  preset_combo w = 4 ->
  (wordlist w = [] ->
     on_generate entropy w pos = (w, [Error No_wordlist_available])
     /\ kind_of_message No_wordlist_available = Some EmptyVocabulary)
  /\ (wordlist w <> [] ->
        exists passwords,
          on_generate entropy w pos
          = (setPlainText w (join [LF] passwords), []))
  /\ forall exc,
       on_generate entropy w pos <> (w, [Error (Generation_failed exc)]).
Proof.
  intros Hmode. unfold on_generate. rewrite Hmode. cbn [Z.eqb Pos.eqb].
  set (count := count_of_window w).
  set (sep := if negb _ then _ else _).
  destruct (wordlist w) as [|word words] eqn:Hwords; cbn [is_empty].
  - split; [done|]. split; [done|]. intros exc. congruence.
  - destruct (repeat_M_returns
                (generate_passphrase entropy (spin_words w) (word :: words)
                   sep (chk_capitalize w)) (Z.to_nat count) pos)
      as (passwords & pos' & Hrun & _).
    { intros p. unfold generate_passphrase, bind.
      rewrite repeat_choice_drawn_words by done. by eexists _, _. }
    rewrite Hrun. split; [done|]. split; [by exists passwords|].
    intros exc. congruence.
Qed.

(** The check of [on_generate] before it calls the sampler: a total of the
    minimum counts above the length ends in an error box of the
    RequirementExceedsLength kind, and nothing is generated. *)
Lemma on_generate_requirement_exceeds_length entropy w pos :
  preset_combo w <> 4 ->
  (chk_lower w || chk_upper w || chk_digits w || chk_symbols w) = true ->
  build_charset (chk_lower w) (chk_upper w) (chk_digits w) (chk_symbols w)
    (txt_custom_symbols w) (chk_exclude_ambiguous w) <> [] ->
  sum_counts (req_of_window w) > spin_length w ->
  on_generate entropy w pos
  = (w, [Error (Total_required_exceed_length
                  (sum_counts (req_of_window w)) (spin_length w))]).
Proof.
  intros Hmode Hany Hcharset Hsum. unfold on_generate.
  destruct (Z.eqb_spec (preset_combo w) 4); [done|].
  rewrite Hany. cbn [negb].
  destruct (build_charset _ _ _ _ _ _); [done|]. cbn [is_empty].
  destruct (Z.gtb_spec (sum_counts (req_of_window w)) (spin_length w));
    [done|lia].
Qed.

(** ** Negative counts *)

Section NegativeCounts.
Variable entropy : nat -> nat.

(** A negative count draws nothing and adds nothing to the total: when the
    pool of its class is not empty, the call is the call with the count
    0. *)
Lemma place_required_negative_count pools before key n after pw_chars pos :
  n < 0 -> pool_of pools key <> [] ->
  place_required entropy pools (before ++ (key, n) :: after) pw_chars pos
  = place_required entropy pools (before ++ (key, 0) :: after) pw_chars pos.
Proof.
  intros Hn Hpool. revert pw_chars pos.
  induction before as [|[k m] before IH]; intros pw_chars pos.
  - cbn [app place_required]. fold (pool_of pools key).
    destruct (pool_of pools key) as [|c pool]; [done|].
    cbn [is_empty]. rewrite !andb_false_r.
    by replace (Z.to_nat n) with (Z.to_nat 0) by lia.
  - cbn [app place_required].
    destruct (negb (m =? 0) && is_empty (pool_of pools k)); [done|].
    unfold bind.
    destruct (append_choices entropy (Z.to_nat m) _ pw_chars pos)
      as [[pw pos']|e]; [apply IH|done].
Qed.

Lemma total_required_negative_count before key n after :
  n < 0 ->
  total_required (before ++ (key, n) :: after)
  = total_required (before ++ (key, 0) :: after).
Proof.
  intros Hn. unfold total_required. rewrite !map_app, !fold_right_app.
  simpl. f_equal. lia.
Qed.

Lemma generate_with_requirements_negative_count length pools before key n
    after full_charset pos :
  n < 0 -> pool_of pools key <> [] ->
  generate_with_requirements entropy length pools
    (before ++ (key, n) :: after) full_charset pos
  = generate_with_requirements entropy length pools
      (before ++ (key, 0) :: after) full_charset pos.
Proof.
  intros Hn Hpool. unfold generate_with_requirements.
  rewrite (total_required_negative_count before key n after Hn).
  destruct (is_empty full_charset); [done|].
  destruct (_ >? _); [done|]. unfold bind.
  by rewrite (place_required_negative_count pools before key n after).
Qed.

End NegativeCounts.

(** C10. A negative count is treated as zero when the pool of its class is
    not empty, but not always: with the count -1 for a class that has no
    pool the call raises the error of an empty character set for the class,
    where the same call with the count 0 returns a secret of the length
    asked for. *)
Theorem negative_count_with_empty_pool_raises
    (entropy : nat -> nat) (pos : nat) :
  generate_with_requirements entropy 4 ∅ [("lower"%string, -1)] (lit "ab") pos
  = Raise (ValueError (Requirement_but_empty_set "lower"))
  /\ (exists pw pos',
        generate_with_requirements entropy 4 ∅ [("lower"%string, 0)]
          (lit "ab") pos
        = Ok (pw, pos')
        /\ len pw = 4)
  /\ (forall length pools before key n after full_charset,
        n < 0 -> pool_of pools key <> [] ->
        generate_with_requirements entropy length pools
          (before ++ (key, n) :: after) full_charset pos
        = generate_with_requirements entropy length pools
            (before ++ (key, 0) :: after) full_charset pos).
Proof.
  split; [done|]. split.
  - destruct (generate_with_requirements_returns entropy 4 ∅
                [("lower"%string, 0)] (lit "ab") pos)
      as (segs & filler & js & pos' & Hrun & Hsegs & Hflen & _).
    + done.
    + by vm_compute.
    + intros [[Hn _]|Hex]%Exists_cons; [done|]. by apply Exists_nil in Hex.
    + eexists _, _. split; [exact Hrun|].
      by apply (shuffled_secret_facts ∅ [("lower"%string, 0)] segs filler
                  js 4 []).
  - intros length pools before key n after full_charset Hn Hpool.
    by apply generate_with_requirements_negative_count.
Qed.

(** ** Words are lowercase *)

Lemma lower_app s t : lower (s ++ t) = lower s ++ lower t.
Proof. unfold lower. by rewrite map_app, concat_app. Qed.

Lemma lower_lower_char ch : lower (lower_char ch) = lower_char ch.
Proof.
  unfold lower_char, is_ascii_upper.
  destruct (N.leb_spec 0x41 ch), (N.leb_spec ch 0x5A); cbn [andb];
    [unfold lower, lower_char, is_ascii_upper; cbn [map concat];
     destruct (N.leb_spec 0x41 (ch + 0x20)), (N.leb_spec (ch + 0x20) 0x5A),
       (N.eqb_spec (ch + 0x20) 0x130), (N.eqb_spec (ch + 0x20) 0x212A);
     cbn [andb]; try reflexivity; lia | | |].
  all: destruct (N.eqb_spec ch 0x130); [reflexivity|];
    destruct (N.eqb_spec ch 0x212A); [reflexivity|];
    unfold lower, lower_char, is_ascii_upper; cbn [map concat];
    destruct (N.leb_spec 0x41 ch), (N.leb_spec ch 0x5A),
      (N.eqb_spec ch 0x130), (N.eqb_spec ch 0x212A);
    cbn [andb]; try reflexivity; try lia.
Qed.

Lemma lower_lower w : lower (lower w) = lower w.
Proof.
  induction w as [|ch w IH]; [done|].
  change (lower (ch :: w)) with (lower_char ch ++ lower w).
  by rewrite lower_app, lower_lower_char, IH.
Qed.

(** Every word the loader keeps is left as it is by [lower]. *)
Lemma filtered_words_lowercase text word :
  word ∈ filtered_words text -> lower word = word.
Proof.
  intros Hword.
  apply (proj1 (proj1 (proj2 (proj2 (filtered_words_spec text))) word))
    in Hword as (line & _ & Hline).
  unfold word_of_line in Hline.
  destruct (is_empty (strip line)); [done|].
  destruct (forallb acceptable (strip line)); [|done].
  injection Hline as <-. apply lower_lower.
Qed.

Lemma FALLBACK_WORDS_lowercase :
  Forall (fun word => lower word = word) FALLBACK_WORDS.
Proof. apply (bool_decide_unpack _). by vm_compute. Qed.

(** On a word that [lower] leaves as it is, [capitalize] uppercases the
    first character and keeps the others. *)
Lemma capitalize_lowercase_word w :
  lower w = w -> capitalize w = uppercase_first w.
Proof.
  destruct w as [|ch rest]; [done|]. intros Hw.
  change (lower (ch :: rest)) with (lower_char ch ++ lower rest) in Hw.
  simpl. f_equal. unfold lower_char in Hw.
  destruct (is_ascii_upper ch); [by injection Hw|].
  destruct (N.eqb_spec ch 0x130) as [->|_]; [done|].
  destruct (ch =? 0x212A)%N; by injection Hw.
Qed.

(** Loading never empties the word list, which starts as the fallback
    list: the window never has an empty one. *)
Lemma load_wordlist_keeps_words w file :
  wordlist w <> [] ->
  wordlist (_load_wordlist_from_path w file).1.1 <> [].
Proof.
  intros Hw. unfold _load_wordlist_from_path.
  destruct file as [text|]; [|done].
  by destruct (filtered_words text).
Qed.

(** ** The Generate button, character mode *)

Lemma repeat_M_inv {A} (m : M A) (Q : A -> Prop) (E : exn -> Prop) n pos :
  (forall p a p', m p = Ok (a, p') -> Q a) ->
  (forall p e, m p = Raise e -> E e) ->
  match repeat_M n m pos with
  | Ok (l, _) => List.length l = n /\ Forall Q l
  | Raise e => E e
  end.
Proof.
  intros HQ HE. revert pos. induction n as [|n IH]; intros pos; [done|].
  cbn [repeat_M]. unfold bind.
  destruct (m pos) as [[a p']|e] eqn:Hm; [|by eapply HE].
  specialize (IH p').
  destruct (repeat_M n m p') as [[l p'']|e]; [|done].
  destruct IH as [Hlen Hall]. simpl. split; [by rewrite Hlen|].
  constructor; [by eapply HQ|done].
Qed.

(** Outside passphrase mode the button ends in one error box with a kind of
    the specification, or in as many secrets as asked for, each of exactly
    the length asked for. *)
Lemma on_generate_character_mode entropy w pos :
  preset_combo w <> 4 ->
  (exists msg kind,
      on_generate entropy w pos = (w, [Error msg])
      /\ kind_of_message msg = Some kind)
  \/ (exists passwords,
         on_generate entropy w pos
         = (setPlainText w (join [LF] passwords), [])
         /\ List.length passwords = Z.to_nat (count_of_window w)
         /\ Forall (fun pw => len pw = spin_length w) passwords).
Proof.
  intros Hmode. unfold on_generate. fold (count_of_window w).
  destruct (Z.eqb_spec (preset_combo w) 4); [done|].
  destruct (negb _); [left; by eexists _, _|].
  destruct (is_empty _); [left; by eexists _, _|].
  destruct (_ >? _); [left; by eexists _, _|].
  set (charset := build_charset _ _ _ _ _ _).
  pose proof (repeat_M_inv
    (generate_with_requirements entropy (spin_length w)
       (pools_of_window w charset) (req_of_window w) charset)
    (fun pw => len pw = spin_length w)
    (fun e => exists kind, kind_of_exn e = Some kind)
    (Z.to_nat (count_of_window w)) pos) as Hinv.
  destruct (repeat_M _ _ pos) as [[passwords pos']|e].
  - right. exists passwords. split; [done|]. apply Hinv.
    + intros p pw p'. apply generate_with_requirements_length.
    + intros p e. apply generate_with_requirements_labelled.
  - left. destruct Hinv as [kind Hkind].
    + intros p pw p'. apply generate_with_requirements_length.
    + intros p e'. apply generate_with_requirements_labelled.
    + by exists (Generation_failed e), kind.
Qed.

(** The call [on_generate] makes once its own checks are passed. *)
Lemma on_generate_calls_sampler entropy w pos :
  let charset :=
    build_charset (chk_lower w) (chk_upper w) (chk_digits w) (chk_symbols w)
      (txt_custom_symbols w) (chk_exclude_ambiguous w) in
  preset_combo w <> 4 ->
  (chk_lower w || chk_upper w || chk_digits w || chk_symbols w) = true ->
  charset <> [] ->
  sum_counts (req_of_window w) <= spin_length w ->
  on_generate entropy w pos
  = match repeat_M (Z.to_nat (count_of_window w))
            (generate_with_requirements entropy (spin_length w)
               (pools_of_window w charset) (req_of_window w) charset) pos with
    | Ok (passwords, _) => (setPlainText w (join [LF] passwords), [])
    | Raise exc => (w, [Error (Generation_failed exc)])
    end.
Proof.
  intros charset Hmode Hany Hcharset Hsum. unfold on_generate.
  fold (count_of_window w). fold charset.
  destruct (Z.eqb_spec (preset_combo w) 4); [done|].
  rewrite Hany. cbn [negb].
  destruct charset; [done|]. cbn [is_empty].
  destruct (Z.gtb_spec (sum_counts (req_of_window w)) (spin_length w));
    [lia|done].
Qed.

(** The pools [on_generate] builds are parts of the charset and of the
    alphabets of their classes. *)
Lemma pools_of_window_subseteq w charset key pool :
  pools_of_window w charset !! key = Some pool -> pool ⊆ charset.
Proof.
  unfold pools_of_window.
  destruct (chk_lower w), (chk_upper w), (chk_digits w), (chk_symbols w);
    intros Hpool;
    repeat (apply lookup_insert_Some in Hpool as [[_ <-]|[_ Hpool]];
            [by intros ch [? _]%list_elem_of_filter|]);
    by rewrite lookup_empty in Hpool.
Qed.

Lemma count_in_subseteq (pool pool' s : str) :
  pool ⊆ pool' -> (count_in pool s <= count_in pool' s)%nat.
Proof.
  intros Hsub. unfold count_in. induction s as [|ch s IH]; [done|].
  rewrite !filter_cons.
  destruct (decide (ch ∈ pool)) as [Hin|Hin].
  - rewrite decide_True by (by apply Hsub). simpl. lia.
  - destruct (decide (ch ∈ pool')); simpl; lia.
Qed.

(** The example of the specification: all four classes, length 20, one
    character of each at least, default symbols, ambiguous characters
    excluded.  The button gives a string of 20 characters with a lowercase
    letter, an uppercase letter, a digit and a symbol, and no ambiguous
    character. *)
Lemma strong_preset_example entropy pos :
  exists pw,
    on_generate entropy strong_preset_window pos
    = (setPlainText strong_preset_window pw, [])
    /\ len pw = 20
    /\ (1 <= count_in ascii_lowercase pw)%nat
    /\ (1 <= count_in ascii_uppercase pw)%nat
    /\ (1 <= count_in digits pw)%nat
    /\ (1 <= count_in DEFAULT_SYMBOLS pw)%nat
    /\ forall ch, ch ∈ pw -> ch ∉ AMBIGUOUS.
Proof.
  set (w := strong_preset_window).
  set (charset := build_charset true true true true [] true).
  set (pools := pools_of_window w charset).
  destruct (generate_with_requirements_returns entropy 20 pools
              (req_of_window w) charset pos)
    as (segs & filler & js & pos' & Hrun & Hsegs & Hflen & Hfall).
  { by vm_compute. }
  { by vm_compute. }
  { apply (bool_decide_unpack _). by vm_compute. }
  destruct (shuffled_secret_facts pools (req_of_window w) segs filler js 20
              charset Hsegs Hflen ltac:(by vm_compute))
    as (Hlen & Hin & Hcount).
  set (pw := fisher_yates js (concat segs ++ filler)) in *.
  exists pw.
  pose proof (on_generate_calls_sampler entropy w pos) as Hcall.
  cbv zeta in Hcall. rewrite Hcall; [|by vm_compute..].
  change (Z.to_nat (count_of_window w)) with 1%nat.
  cbn [repeat_M]. unfold bind, ret.
  change (build_charset _ _ _ _ _ _) with charset.
  change (spin_length w) with 20. fold pools. rewrite Hrun. cbn [join].
  split; [done|]. split; [done|].
  assert (Hclass : forall key alphabet,
            (key, 1) ∈ req_of_window w ->
            pool_of pools key ⊆ alphabet ->
            (1 <= count_in alphabet pw)%nat).
  { intros key alphabet Hkey Hsub. specialize (Hcount key 1 Hkey).
    pose proof (count_in_subseteq _ _ pw Hsub). lia. }
  assert (Hclear : forall ch, ch ∈ pw -> ch ∉ AMBIGUOUS).
  { intros ch Hch. apply Hin in Hch; [|apply pools_of_window_subseteq|done].
    apply elem_of_build_charset in Hch as [_ Hex]. by apply Hex. }
  split; [|split; [|split; [|split; [|done]]]].
  - apply (Hclass "lower"%string);
      apply (bool_decide_unpack _); by vm_compute.
  - apply (Hclass "upper"%string);
      apply (bool_decide_unpack _); by vm_compute.
  - apply (Hclass "digits"%string);
      apply (bool_decide_unpack _); by vm_compute.
  - apply (Hclass "symbols"%string);
      apply (bool_decide_unpack _); by vm_compute.
Qed.

(** In passphrase mode an empty separator field stands for "-". *)
Lemma on_generate_empty_separator entropy w pos :
  preset_combo w = 4 -> txt_separator w = [] -> wordlist w <> [] ->
  exists passwords pos',
    repeat_M (Z.to_nat (count_of_window w))
      (generate_passphrase entropy (spin_words w) (wordlist w) (lit "-")
         (chk_capitalize w)) pos
    = Ok (passwords, pos')
    /\ on_generate entropy w pos
       = (setPlainText w (join [LF] passwords), []).
Proof.
  intros Hmode Hsep Hwords. unfold on_generate. fold (count_of_window w).
  rewrite Hmode, Hsep. cbn [Z.eqb Pos.eqb is_empty negb].
  destruct (wordlist w) as [|word words] eqn:Hw; [done|]. cbn [is_empty].
  destruct (repeat_M_returns
              (generate_passphrase entropy (spin_words w) (word :: words)
                 (lit "-") (chk_capitalize w))
              (Z.to_nat (count_of_window w)) pos)
    as (passwords & pos' & Hrun & _).
  { intros p. unfold generate_passphrase, bind.
    rewrite repeat_choice_drawn_words by done. by eexists _, _. }
  exists passwords, pos'. by rewrite Hrun.
Qed.

(** ** The theorems at work *)

(** Two lowercase letters asked for in a password of six characters. *)
Lemma generate_with_requirements_meets_requirements_witness :
  exists pw pos',
    generate_with_requirements (fun k => k) 6
      {[ "lower"%string := lit "abc" ]} [("lower"%string, 2)]
      (lit "abcXYZ") 0%nat
    = Ok (pw, pos')
    /\ len pw = 6
    /\ (forall c, c ∈ pw -> c ∈ lit "abcXYZ")
    /\ (forall key n, (key, n) ∈ [("lower"%string, 2)] ->
          n <= Z.of_nat
                 (count_in (pool_of {[ "lower"%string := lit "abc" ]} key) pw)).
Proof.
  apply generate_with_requirements_meets_requirements.
  - vm_compute. discriminate.
  - intros key pool [<- <-]%lookup_singleton_Some.
    apply (bool_decide_unpack _). vm_compute. exact I.
  - intros key n Hin%list_elem_of_singleton. injection Hin as -> ->. lia.
  - intros key n Hin%list_elem_of_singleton _. injection Hin as -> ->.
    vm_compute. discriminate.
  - vm_compute. discriminate.
Defined.

(** The example of the specification: 25 required characters, length 20. *)
Lemma generate_with_requirements_all_or_nothing_witness :
  generate_with_requirements (fun k => k) 20
    {[ "lower"%string := lit "abc"; "upper"%string := lit "XYZ" ]}
    [("lower"%string, 10); ("upper"%string, 15)] (lit "abcXYZ") 0%nat
  = Raise (ValueError (Required_characters_exceed_length 25 20))
  /\ kind_of_exn (ValueError (Required_characters_exceed_length 25 20))
     = Some RequirementExceedsLength.
Proof.
  split; [|reflexivity].
  destruct (generate_with_requirements_all_or_nothing (fun k => k) 0%nat 20
              {[ "lower"%string := lit "abc"; "upper"%string := lit "XYZ" ]}
              [("lower"%string, 10); ("upper"%string, 15)] (lit "abcXYZ"))
    as (_ & Hexceeds & _).
  apply Hexceeds.
  - vm_compute. discriminate.
  - left. vm_compute. reflexivity.
Defined.

(** Twelve characters over the 26 lowercase letters: 56.405276617693104
    bits, the double [0x1.c33e01aad69a6p+5]; and no bits over a charset of
    one character. *)
Lemma estimate_entropy_bits_formula_witness :
  @estimate_entropy_bits example_library 12 26
  = Returns (S754_finite false 0x1c33e01aad69a6 (-47))
  /\ @estimate_entropy_bits example_library 12 1 = Returns float_zero.
Proof.
  destruct (@estimate_entropy_bits_formula example_library 12 26)
    as [_ Hformula].
  destruct (@estimate_entropy_bits_formula example_library 12 1)
    as [Hzero _].
  split.
  - destruct (Hformula ltac:(lia) ltac:(lia)) as [Hreturns _].
    destruct (Hreturns ltac:(by vm_compute))
      as (m & e & Hconvert & _ & ->).
    vm_compute in Hconvert. injection Hconvert as <- <-.
    by vm_compute.
  - apply Hzero. left. lia.
Defined.

Lemma on_generate_passphrase_without_wordlist_witness :
  on_generate (fun k => k) window_without_words 0%nat
  = (window_without_words, [Error No_wordlist_available]).
Proof.
  destruct (on_generate_passphrase_without_wordlist (fun k => k)
              window_without_words 0%nat) as ([Hshown _] & _).
  - reflexivity.
  - reflexivity.
  - exact Hshown.
Defined.

(** Loading a file without a usable line into that window. *)
Lemma load_wordlist_is_all_or_nothing_witness :
  _load_wordlist_from_path window_without_words (Some (lit "123"))
  = (window_without_words,
     [Warning_wordlist_too_small; Error No_usable_words], false).
Proof.
  pose proof (load_wordlist_is_all_or_nothing window_without_words
                (Some (lit "123"))) as Hload.
  destruct (_load_wordlist_from_path window_without_words (Some (lit "123")))
    as [[w' shown] ok] eqn:Hrun.
  destruct Hload as [Hempty _].
  destruct Hempty as (-> & -> & _); [by vm_compute|].
  vm_compute in Hrun. by injection Hrun as <-.
Defined.

(** * The window as a whole

    ** The charset and the pools of the window *)

Lemma elem_of_candidates include_lower include_upper include_digits
    include_symbols custom_symbols ch :
  ch ∈ candidates include_lower include_upper include_digits include_symbols
         custom_symbols
  <-> (include_lower = true /\ ch ∈ ascii_lowercase)
      \/ (include_upper = true /\ ch ∈ ascii_uppercase)
      \/ (include_digits = true /\ ch ∈ digits)
      \/ (include_symbols = true /\ ch ∈ symbols_of custom_symbols).
Proof.
  unfold candidates.
  destruct include_lower, include_upper, include_digits, include_symbols;
    cbv zeta; rewrite ?elem_of_app, ?elem_of_nil; intuition congruence.
Qed.

Lemma symbols_of_not_empty custom_symbols : symbols_of custom_symbols <> [].
Proof.
  unfold symbols_of. destruct (strip custom_symbols); [|done].
  by vm_compute.
Qed.

(** Each of the three fixed alphabets has a character that is not
    ambiguous. *)
Lemma alphabets_keep_a_character :
  (exists ch, ch ∈ ascii_lowercase /\ ch ∉ AMBIGUOUS)
  /\ (exists ch, ch ∈ ascii_uppercase /\ ch ∉ AMBIGUOUS)
  /\ (exists ch, ch ∈ digits /\ ch ∉ AMBIGUOUS).
Proof.
  split; [|split].
  - exists 0x61%N. split; apply (bool_decide_unpack _); by vm_compute.
  - exists 0x41%N. split; apply (bool_decide_unpack _); by vm_compute.
  - exists 0x33%N. split; apply (bool_decide_unpack _); by vm_compute.
Qed.

Lemma filter_nil_Forall {B} (P : B -> Prop) `{forall b, Decision (P b)}
    (l : list B) :
  filter P l = [] <-> Forall (fun b => ~ P b) l.
Proof.
  induction l as [|b l IH]; [by split|].
  rewrite filter_cons, Forall_cons. destruct (decide (P b)); [|tauto].
  split; [done|]. by intros [? _].
Qed.

Lemma dedup_nil_iff `{Countable B} (l : list B) : dedup l = [] <-> l = [].
Proof.
  split; [|by intros ->].
  destruct l as [|b l]; [done|]. intros Hnil.
  assert (b ∈ dedup (b :: l)) as Hin by (apply elem_of_dedup; left).
  rewrite Hnil in Hin. by apply elem_of_nil in Hin.
Qed.

(** The pool of each class, as [on_generate] builds it. *)
Lemma pool_of_pools_of_window w charset :
  let keep (alphabet : str) := filter (fun ch => ch ∈ charset) alphabet in
  let pools := pools_of_window w charset in
  pool_of pools "lower" = (if chk_lower w then keep ascii_lowercase else [])
  /\ pool_of pools "upper" = (if chk_upper w then keep ascii_uppercase else [])
  /\ pool_of pools "digits" = (if chk_digits w then keep digits else [])
  /\ pool_of pools "symbols"
     = (if chk_symbols w then keep (symbols_of (txt_custom_symbols w))
        else []).
Proof.
  unfold pools_of_window, pool_of.
  destruct (chk_lower w), (chk_upper w), (chk_digits w), (chk_symbols w);
    cbv zeta; repeat split;
    repeat (first [rewrite lookup_insert_eq | rewrite lookup_insert_ne by done]);
    by rewrite ?lookup_empty.
Qed.

(** X1. [build_charset] gives the empty charset in two cases only: no class is
    selected, or the symbols are the only class selected, ambiguous
    characters are excluded and every symbol in use is ambiguous. *)
Theorem build_charset_empty_iff
    (include_lower include_upper include_digits include_symbols : bool)
    (custom_symbols : str) (exclude_ambiguous : bool) :
  build_charset include_lower include_upper include_digits include_symbols
    custom_symbols exclude_ambiguous = []
  <-> include_lower = false /\ include_upper = false
      /\ include_digits = false
      /\ (include_symbols = false
          \/ (exclude_ambiguous = true
              /\ Forall (fun ch => ch ∈ AMBIGUOUS)
                   (symbols_of custom_symbols))).
Proof.
  destruct alphabets_keep_a_character
    as ((a & Ha & Ha') & (b & Hb & Hb') & (c & Hc & Hc')).
  split.
  - intros Hnil.
    assert (Hnone : forall ch,
              ch ∈ candidates include_lower include_upper include_digits
                     include_symbols custom_symbols ->
              exclude_ambiguous = true /\ ch ∈ AMBIGUOUS).
    { intros ch Hch.
      assert (exclude_ambiguous = true -> ch ∉ AMBIGUOUS -> False) as Hno.
      { intros Hex Hamb.
        assert (ch ∈ build_charset include_lower include_upper include_digits
                       include_symbols custom_symbols exclude_ambiguous)
          as Hin by (apply elem_of_build_charset; by split).
        rewrite Hnil in Hin. by apply elem_of_nil in Hin. }
      assert (exclude_ambiguous = false -> False) as Hno'.
      { intros Hex.
        assert (ch ∈ build_charset include_lower include_upper include_digits
                       include_symbols custom_symbols exclude_ambiguous)
          as Hin by (apply elem_of_build_charset; split; [done|congruence]).
        rewrite Hnil in Hin. by apply elem_of_nil in Hin. }
      destruct exclude_ambiguous; [|by destruct Hno'].
      split; [done|]. destruct (decide (ch ∈ AMBIGUOUS)); [done|].
      by destruct Hno. }
    assert (Hl : include_lower = false).
    { destruct include_lower; [|done].
      destruct (Hnone a) as [_ ?]; [|done].
      apply elem_of_candidates. by left. }
    assert (Hu : include_upper = false).
    { destruct include_upper; [|done].
      destruct (Hnone b) as [_ ?]; [|done].
      apply elem_of_candidates. right. by left. }
    assert (Hd : include_digits = false).
    { destruct include_digits; [|done].
      destruct (Hnone c) as [_ ?]; [|done].
      apply elem_of_candidates. right. right. by left. }
    repeat split; try done.
    destruct include_symbols; [right|by left].
    assert (Hsym : forall ch, ch ∈ symbols_of custom_symbols ->
                     exclude_ambiguous = true /\ ch ∈ AMBIGUOUS).
    { intros ch Hch. apply Hnone, elem_of_candidates. by repeat right. }
    split.
    + destruct (symbols_of custom_symbols) as [|ch rest] eqn:Hsymbols.
      * by destruct (symbols_of_not_empty custom_symbols).
      * apply (Hsym ch). left.
    + apply Forall_forall. intros ch Hch. by apply Hsym.
  - intros (-> & -> & -> & Hsym).
    destruct (build_charset false false false include_symbols custom_symbols
                exclude_ambiguous) as [|ch rest] eqn:Hcharset; [done|].
    exfalso.
    assert (ch ∈ build_charset false false false include_symbols
                   custom_symbols exclude_ambiguous) as Hin
      by (rewrite Hcharset; left).
    apply elem_of_build_charset in Hin as [Hcand Hex].
    apply elem_of_candidates in Hcand
      as [[? _]|[[? _]|[[? _]|[Hs Hch]]]]; try done.
    destruct Hsym as [->|[-> Hall]]; [done|].
    apply (Hex eq_refl). by apply (proj1 (Forall_forall _ _) Hall).
Qed.

(** The symbols pool of the window is empty exactly when ambiguous
    characters are excluded and every symbol in use is ambiguous. *)
Lemma symbols_pool_empty_iff w :
  chk_symbols w = true ->
  pool_of (pools_of_window w (charset_of_window w)) "symbols" = []
  <-> chk_exclude_ambiguous w = true
      /\ Forall (fun ch => ch ∈ AMBIGUOUS) (symbols_of (txt_custom_symbols w)).
Proof.
  intros Hs.
  destruct (pool_of_pools_of_window w (charset_of_window w))
    as (_ & _ & _ & ->).
  rewrite Hs, filter_nil_Forall, !Forall_forall.
  assert (Hiff : forall ch, ch ∈ symbols_of (txt_custom_symbols w) ->
            (ch ∈ charset_of_window w
             <-> (chk_exclude_ambiguous w = true -> ch ∉ AMBIGUOUS))).
  { intros ch Hch. unfold charset_of_window.
    rewrite elem_of_build_charset, elem_of_candidates. intuition. }
  split.
  - intros Hall. split.
    + destruct (symbols_of (txt_custom_symbols w)) as [|ch rest] eqn:Hsymbols.
      * by destruct (symbols_of_not_empty (txt_custom_symbols w)).
      * destruct (chk_exclude_ambiguous w); [done|].
        destruct (Hall ch); [left|]. apply Hiff; [left|done].
    + intros ch Hch. destruct (decide (ch ∈ AMBIGUOUS)); [done|].
      destruct (Hall ch Hch). by apply Hiff.
  - intros [Hex Hall] ch Hch Hin. apply (Hiff ch Hch) in Hin; [|done].
    by apply Hin, Hall.
Qed.

(** The pool of a selected class of letters or digits is never empty. *)
Lemma fixed_pools_not_empty w :
  let pools := pools_of_window w (charset_of_window w) in
  (chk_lower w = true -> pool_of pools "lower" <> [])
  /\ (chk_upper w = true -> pool_of pools "upper" <> [])
  /\ (chk_digits w = true -> pool_of pools "digits" <> []).
Proof.
  destruct alphabets_keep_a_character
    as ((a & Ha & Ha') & (b & Hb & Hb') & (c & Hc & Hc')).
  destruct (pool_of_pools_of_window w (charset_of_window w))
    as (Hl & Hu & Hd & _).
  cbv zeta. rewrite Hl, Hu, Hd.
  assert (Hkeep : forall (alphabet : str) ch,
            ch ∈ alphabet -> ch ∉ AMBIGUOUS ->
            ch ∈ candidates (chk_lower w) (chk_upper w) (chk_digits w)
                   (chk_symbols w) (txt_custom_symbols w) ->
            filter (fun ch => ch ∈ charset_of_window w) alphabet <> []).
  { intros alphabet ch Hin Hamb Hcand Hnil.
    assert (ch ∈ filter (fun ch => ch ∈ charset_of_window w) alphabet) as Hf.
    { apply list_elem_of_filter. split; [|done].
      apply elem_of_build_charset. by split. }
    rewrite Hnil in Hf. by apply elem_of_nil in Hf. }
  repeat split; intros Hsel; rewrite Hsel.
  - apply (Hkeep _ a); [done..|]. apply elem_of_candidates. by left.
  - apply (Hkeep _ b); [done..|]. apply elem_of_candidates. right. by left.
  - apply (Hkeep _ c); [done..|].
    apply elem_of_candidates. right. right. by left.
Qed.

(** X2. The pools of the window cover its charset: a character is in the
    charset exactly when it is in the pool of some class.  The pools of
    letters and digits are never empty when their class is selected; the
    symbols pool is empty exactly when ambiguous characters are excluded
    and every symbol in use is ambiguous. *)
Theorem pools_of_window_cover_the_charset (w : window) :
  let charset := charset_of_window w in
  let pools := pools_of_window w charset in
  (forall ch, ch ∈ charset <-> exists key, ch ∈ pool_of pools key)
  /\ (forall key, pool_of pools key ⊆ charset)
  /\ (chk_lower w = true -> pool_of pools "lower" <> [])
  /\ (chk_upper w = true -> pool_of pools "upper" <> [])
  /\ (chk_digits w = true -> pool_of pools "digits" <> [])
  /\ (chk_symbols w = true ->
        pool_of pools "symbols" = []
        <-> chk_exclude_ambiguous w = true
            /\ Forall (fun ch => ch ∈ AMBIGUOUS)
                 (symbols_of (txt_custom_symbols w))).
Proof.
  intros charset pools.
  assert (Hsub : forall key, pool_of pools key ⊆ charset).
  { intros key ch. unfold pool_of.
    destruct (pools !! key) as [pool|] eqn:Hpool; cbn [default].
    - by apply (pools_of_window_subseteq w charset key pool).
    - by intros ?%elem_of_nil. }
  destruct (fixed_pools_not_empty w) as (Hl & Hu & Hd).
  split; [|split; [done|split; [done|split; [done|split; [done|]]]]].
  - intros ch. split.
    + intros Hch. pose proof Hch as Hcand.
      apply elem_of_build_charset in Hcand as [Hcand _].
      destruct (pool_of_pools_of_window w charset) as (Pl & Pu & Pd & Ps).
      fold pools in Pl, Pu, Pd, Ps.
      apply elem_of_candidates in Hcand
        as [[Hc Hin]|[[Hc Hin]|[[Hc Hin]|[Hc Hin]]]].
      * exists "lower"%string. rewrite Pl, Hc. by apply list_elem_of_filter.
      * exists "upper"%string. rewrite Pu, Hc. by apply list_elem_of_filter.
      * exists "digits"%string. rewrite Pd, Hc. by apply list_elem_of_filter.
      * exists "symbols"%string. rewrite Ps, Hc. by apply list_elem_of_filter.
    + intros [key Hin]. by apply (Hsub key).
  - intros Hs. by apply symbols_pool_empty_iff.
Qed.

(** ** The Generate button in character mode *)

(** Each pool of the window is a part of the alphabet of its class. *)
Lemma pools_of_window_in_alphabets w charset :
  let pools := pools_of_window w charset in
  pool_of pools "lower" ⊆ ascii_lowercase
  /\ pool_of pools "upper" ⊆ ascii_uppercase
  /\ pool_of pools "digits" ⊆ digits
  /\ pool_of pools "symbols" ⊆ symbols_of (txt_custom_symbols w).
Proof.
  destruct (pool_of_pools_of_window w charset) as (Pl & Pu & Pd & Ps).
  cbv zeta in *. rewrite Pl, Pu, Pd, Ps.
  destruct (chk_lower w), (chk_upper w), (chk_digits w), (chk_symbols w);
    repeat split; intros ch Hch;
    first [by apply list_elem_of_filter in Hch as [_ ?]
          |by apply elem_of_nil in Hch].
Qed.

(** From the counts by pool to the counts by class. *)
Lemma class_counts_of_pool_counts w charset pw :
  (forall key n, (key, n) ∈ req_of_window w ->
     (Z.to_nat n
      <= count_in (pool_of (pools_of_window w charset) key) pw)%nat) ->
  (chk_lower w = true ->
     min_lower w <= Z.of_nat (count_in ascii_lowercase pw))
  /\ (chk_upper w = true ->
        min_upper w <= Z.of_nat (count_in ascii_uppercase pw))
  /\ (chk_digits w = true ->
        min_digits w <= Z.of_nat (count_in digits pw))
  /\ (chk_symbols w = true ->
        min_symbols w
        <= Z.of_nat (count_in (symbols_of (txt_custom_symbols w)) pw)).
Proof.
  intros Hcounts.
  destruct (pools_of_window_in_alphabets w charset) as (Sl & Su & Sd & Ss).
  cbv zeta in Sl, Su, Sd, Ss.
  assert (Hclass : forall key n (alphabet : str),
            (key, n) ∈ req_of_window w ->
            pool_of (pools_of_window w charset) key ⊆ alphabet ->
            n <= Z.of_nat (count_in alphabet pw)).
  { intros key n alphabet Hkey Hsub. specialize (Hcounts key n Hkey).
    pose proof (count_in_subseteq _ _ pw Hsub). lia. }
  unfold req_of_window in Hclass.
  split; [|split; [|split]]; intros Hsel; rewrite Hsel in Hclass.
  - apply (Hclass "lower"%string); [|exact Sl].
    rewrite !elem_of_cons. by left.
  - apply (Hclass "upper"%string); [|exact Su].
    rewrite !elem_of_cons. right. by left.
  - apply (Hclass "digits"%string); [|exact Sd].
    rewrite !elem_of_cons. right. right. by left.
  - apply (Hclass "symbols"%string); [|exact Ss].
    rewrite !elem_of_cons. right. right. right. by left.
Qed.

(** What a secret that was returned is known to satisfy. *)
Lemma generate_with_requirements_Ok_facts entropy length pools required
    full_charset pos pw pos' :
  generate_with_requirements entropy length pools required full_charset pos
  = Ok (pw, pos') ->
  (full_charset <> [] /\ total_required required <= length
   /\ ~ Exists (unmet pools) required)
  /\ len pw = length
  /\ ((forall key pool, pools !! key = Some pool -> pool ⊆ full_charset) ->
      forall c, c ∈ pw -> c ∈ full_charset)
  /\ (forall key n, (key, n) ∈ required ->
        (Z.to_nat n <= count_in (pool_of pools key) pw)%nat).
Proof.
  intros Hrun.
  destruct (generate_with_requirements_cases entropy length pools required
              full_charset pos)
    as [[_ H]|[(_ & _ & H)|[(_ & _ & _ & key & n & H & _)
                            |(Hfull & Htot & Hunmet & _)]]];
    cbv zeta in *; try congruence.
  destruct (generate_with_requirements_returns entropy length pools required
              full_charset pos Hfull Htot Hunmet)
    as (segs & filler & js & pos'' & Hrun' & Hsegs & Hflen & Hfall).
  rewrite Hrun in Hrun'. injection Hrun' as -> ->.
  destruct (shuffled_secret_facts pools required segs filler js length
              full_charset Hsegs Hflen Htot) as (Hlen & Hin & Hcount).
  split; [done|]. split; [done|]. split; [|done].
  intros Hsub. by apply Hin.
Qed.

(** The only requirement of the window that can be out of reach is the one
    on the symbols. *)
Lemma req_of_window_unmet w :
  Exists (unmet (pools_of_window w (charset_of_window w))) (req_of_window w)
  <-> chk_symbols w = true /\ min_symbols w <> 0
      /\ chk_exclude_ambiguous w = true
      /\ Forall (fun ch => ch ∈ AMBIGUOUS) (symbols_of (txt_custom_symbols w)).
Proof.
  destruct (fixed_pools_not_empty w) as (Hl & Hu & Hd). cbv zeta in *.
  unfold req_of_window.
  rewrite !Exists_cons, Exists_nil. unfold unmet. cbn [fst snd].
  split.
  - intros [[Hn Hp]|[[Hn Hp]|[[Hn Hp]|[[Hn Hp]|[]]]]].
    + destruct (chk_lower w); [by destruct Hl|done].
    + destruct (chk_upper w); [by destruct Hu|done].
    + destruct (chk_digits w); [by destruct Hd|done].
    + destruct (chk_symbols w) eqn:Hs; [|done].
      split; [done|]. split; [done|]. by apply symbols_pool_empty_iff.
  - intros (Hs & Hn & Hex & Hall). do 3 right. left. rewrite Hs.
    split; [done|]. by apply symbols_pool_empty_iff.
Qed.

Lemma repeat_M_first {A} (m : M A) n pos l pos' :
  repeat_M (S n) m pos = Ok (l, pos') -> exists a p, m pos = Ok (a, p).
Proof.
  cbn [repeat_M]. unfold bind. destruct (m pos) as [[a p]|e]; [|done].
  by exists a, p.
Qed.

(** The secrets of a batch: what holds of each, when nothing stands in
    the way of the sampler. *)
Lemma on_generate_character_mode_run entropy w pos :
  preset_combo w <> 4 ->
  (chk_lower w || chk_upper w || chk_digits w || chk_symbols w) = true ->
  charset_of_window w <> [] ->
  total_required (req_of_window w) <= spin_length w ->
  ~ Exists (unmet (pools_of_window w (charset_of_window w)))
      (req_of_window w) ->
  exists passwords,
    on_generate entropy w pos = (setPlainText w (join [LF] passwords), [])
    /\ List.length passwords = Z.to_nat (count_of_window w)
    /\ Forall (fun pw =>
         len pw = spin_length w
         /\ (forall ch, ch ∈ pw -> ch ∈ charset_of_window w)
         /\ (forall key n, (key, n) ∈ req_of_window w ->
               (Z.to_nat n
                <= count_in
                     (pool_of (pools_of_window w (charset_of_window w)) key)
                     pw)%nat))
         passwords.
Proof.
  intros Hmode Hany Hcharset Htotal Hunmet.
  pose proof (on_generate_calls_sampler entropy w pos) as Hcall.
  cbv zeta in Hcall. fold (charset_of_window w) in Hcall.
  rewrite Hcall; [|done..|].
  2:{ pose proof (sum_counts_le_total_required (req_of_window w)). lia. }
  set (charset := charset_of_window w) in *.
  set (pools := pools_of_window w charset) in *.
  pose proof (repeat_M_inv
    (generate_with_requirements entropy (spin_length w) pools
       (req_of_window w) charset)
    (fun pw =>
       len pw = spin_length w
       /\ (forall c, c ∈ pw -> c ∈ charset)
       /\ (forall key n, (key, n) ∈ req_of_window w ->
             (Z.to_nat n <= count_in (pool_of pools key) pw)%nat))
    (fun _ => False) (Z.to_nat (count_of_window w)) pos) as Hinv.
  destruct (repeat_M _ _ pos) as [[passwords pos']|e].
  - exists passwords. split; [done|]. apply Hinv.
    + intros p pw p' Hrun.
      apply generate_with_requirements_Ok_facts in Hrun as (_ & ? & Hin & ?).
      split; [done|]. split; [|done].
      apply Hin. apply pools_of_window_subseteq.
    + intros p e Hrun.
      destruct (generate_with_requirements_returns entropy (spin_length w)
                  pools (req_of_window w) charset p Hcharset Htotal Hunmet)
        as (segs & filler & js & p' & Hrun' & _).
      congruence.
  - destruct Hinv.
    + intros p pw p' Hrun.
      apply generate_with_requirements_Ok_facts in Hrun as (_ & ? & Hin & ?).
      split; [done|]. split; [|done].
      apply Hin. apply pools_of_window_subseteq.
    + intros p e' Hrun.
      destruct (generate_with_requirements_returns entropy (spin_length w)
                  pools (req_of_window w) charset p Hcharset Htotal Hunmet)
        as (segs & filler & js & p' & Hrun' & _).
      congruence.
Qed.

(** X3. In character mode, with at least one secret asked for, the button
    produces its output (and shows no box) exactly when a class is
    selected, the charset is not empty, the required characters fit in the
    length, and the symbols are not required while every symbol in use is
    excluded as ambiguous. *)
Theorem on_generate_character_mode_succeeds_iff
    (entropy : nat -> nat) (w : window) (pos : nat) :
  preset_combo w <> 4 -> 0 < count_of_window w ->
  (on_generate entropy w pos).2 = []
  <-> (chk_lower w || chk_upper w || chk_digits w || chk_symbols w) = true
      /\ charset_of_window w <> []
      /\ total_required (req_of_window w) <= spin_length w
      /\ ~ (chk_symbols w = true /\ min_symbols w <> 0
            /\ chk_exclude_ambiguous w = true
            /\ Forall (fun ch => ch ∈ AMBIGUOUS)
                 (symbols_of (txt_custom_symbols w))).
Proof.
  intros Hmode Hcount.
  destruct (Z.to_nat (count_of_window w)) as [|n] eqn:Hn; [lia|].
  rewrite <- req_of_window_unmet.
  split.
  - intros Hshown. unfold on_generate in Hshown.
    fold (count_of_window w) in Hshown. fold (charset_of_window w) in Hshown.
    rewrite Hn in Hshown.
    destruct (Z.eqb_spec (preset_combo w) 4); [done|].
    destruct (chk_lower w || chk_upper w || chk_digits w || chk_symbols w);
      [|done].
    split; [done|]. cbn [negb] in Hshown.
    destruct (is_empty (charset_of_window w)) eqn:Hempty; [done|].
    split; [intros Hnil; by rewrite Hnil in Hempty|].
    destruct (_ >? _); [done|].
    destruct (repeat_M _ _ pos) as [[passwords pos']|e] eqn:Hrun; [|done].
    apply repeat_M_first in Hrun as (pw & p & Hrun).
    apply generate_with_requirements_Ok_facts in Hrun as [(_ & ? & ?) _].
    done.
  - intros (Hany & Hcharset & Htotal & Hunmet).
    destruct (on_generate_character_mode_run entropy w pos)
      as (passwords & -> & _); done.
Qed.

(** X4. In character mode, the secrets the button produces follow the
    widgets: as many as asked for, each of the length asked for, made of
    characters of the charset (so of none that is ambiguous when these are
    excluded), with at least the minimum count of characters of each
    selected class. *)
Theorem on_generate_passwords_follow_the_widgets
    (entropy : nat -> nat) (w w' : window) (pos : nat) :
  preset_combo w <> 4 ->
  on_generate entropy w pos = (w', []) ->
  exists passwords,
    w' = setPlainText w (join [LF] passwords)
    /\ List.length passwords = Z.to_nat (count_of_window w)
    /\ Forall (fun pw =>
         len pw = spin_length w
         /\ (forall ch, ch ∈ pw -> ch ∈ charset_of_window w)
         /\ (chk_exclude_ambiguous w = true ->
               forall ch, ch ∈ pw -> ch ∉ AMBIGUOUS)
         /\ (chk_lower w = true ->
               min_lower w <= Z.of_nat (count_in ascii_lowercase pw))
         /\ (chk_upper w = true ->
               min_upper w <= Z.of_nat (count_in ascii_uppercase pw))
         /\ (chk_digits w = true ->
               min_digits w <= Z.of_nat (count_in digits pw))
         /\ (chk_symbols w = true ->
               min_symbols w
               <= Z.of_nat (count_in (symbols_of (txt_custom_symbols w)) pw)))
         passwords.
Proof.
  intros Hmode Hgen. unfold on_generate in Hgen.
  fold (count_of_window w) in Hgen. fold (charset_of_window w) in Hgen.
  destruct (Z.eqb_spec (preset_combo w) 4) as [|_]; [done|].
  destruct (negb _); [done|]. destruct (is_empty _); [done|].
  destruct (_ >? _); [done|].
  set (charset := charset_of_window w) in *.
  set (pools := pools_of_window w charset) in *.
  pose proof (repeat_M_inv
    (generate_with_requirements entropy (spin_length w) pools
       (req_of_window w) charset)
    (fun pw =>
       len pw = spin_length w
       /\ (forall c, c ∈ pw -> c ∈ charset)
       /\ (forall key n, (key, n) ∈ req_of_window w ->
             (Z.to_nat n <= count_in (pool_of pools key) pw)%nat))
    (fun _ => True) (Z.to_nat (count_of_window w)) pos) as Hinv.
  destruct (repeat_M _ _ pos) as [[passwords pos']|e]; [|done].
  injection Hgen as <-. exists passwords. split; [done|].
  destruct Hinv as [Hlen Hall]; [|done|].
  { intros p pw p' Hrun.
    apply generate_with_requirements_Ok_facts in Hrun
      as (_ & ? & Hin & ?).
    split; [done|]. split; [|done].
    apply Hin. apply pools_of_window_subseteq. }
  split; [done|].
  eapply Forall_impl; [exact Hall|].
  intros pw (Hpw & Hin & Hcounts). cbv beta.
  split; [done|]. split; [done|].
  split.
  { intros Hex ch Hch. apply Hin in Hch.
    apply elem_of_build_charset in Hch as [_ Hamb]. by apply Hamb. }
  by apply (class_counts_of_pool_counts w charset).
Qed.

(** ** The presets *)

Lemma unmet_key_of_window w key n :
  (key, n) ∈ req_of_window w ->
  unmet (pools_of_window w (charset_of_window w)) (key, n) ->
  key = "symbols"%string.
Proof.
  intros Hin [Hn Hpool]. cbn [fst snd] in *.
  destruct (fixed_pools_not_empty w) as (Hl & Hu & Hd). cbv zeta in *.
  unfold req_of_window in Hin.
  rewrite !elem_of_cons, elem_of_nil in Hin.
  destruct Hin as [Heq|[Heq|[Heq|[Heq|[]]]]]; injection Heq as -> ->;
    [destruct (chk_lower w); [by destruct Hl|done]
    |destruct (chk_upper w); [by destruct Hu|done]
    |destruct (chk_digits w); [by destruct Hd|done]
    |done].
Qed.

(** A sampler that raises ends the batch at its first secret. *)
Lemma on_generate_character_mode_raises entropy w pos e :
  preset_combo w <> 4 ->
  (chk_lower w || chk_upper w || chk_digits w || chk_symbols w) = true ->
  charset_of_window w <> [] ->
  sum_counts (req_of_window w) <= spin_length w ->
  0 < count_of_window w ->
  generate_with_requirements entropy (spin_length w)
    (pools_of_window w (charset_of_window w)) (req_of_window w)
    (charset_of_window w) pos = Raise e ->
  on_generate entropy w pos = (w, [Error (Generation_failed e)]).
Proof.
  intros Hmode Hany Hcharset Hsum Hcount Hrun.
  pose proof (on_generate_calls_sampler entropy w pos) as Hcall.
  cbv zeta in Hcall. fold (charset_of_window w) in Hcall.
  rewrite Hcall by done.
  destruct (Z.to_nat (count_of_window w)) as [|n] eqn:Hn; [lia|].
  cbn [repeat_M]. unfold bind. by rewrite Hrun.
Qed.

(** What the button reads from a window whose character controls were
    set. *)
Lemma set_character_controls_fields w sel_lower n_lower sel_upper n_upper
    sel_digits n_digits sel_symbols n_symbols length exclude_ambiguous :
  let w1 :=
    set_character_controls w sel_lower n_lower sel_upper n_upper sel_digits
      n_digits sel_symbols n_symbols length exclude_ambiguous in
  preset_combo w1 = preset_combo w
  /\ count_of_window w1 = count_of_window w
  /\ charset_of_window w1
     = build_charset sel_lower sel_upper sel_digits sel_symbols
         (txt_custom_symbols w) exclude_ambiguous
  /\ req_of_window w1
     = [("lower"%string, if sel_lower then n_lower else 0);
        ("upper"%string, if sel_upper then n_upper else 0);
        ("digits"%string, if sel_digits then n_digits else 0);
        ("symbols"%string, if sel_symbols then n_symbols else 0)]
  /\ spin_length w1 = length
  /\ (chk_lower w1 = sel_lower /\ chk_upper w1 = sel_upper
      /\ chk_digits w1 = sel_digits /\ chk_symbols w1 = sel_symbols)
  /\ (min_lower w1 = n_lower /\ min_upper w1 = n_upper
      /\ min_digits w1 = n_digits /\ min_symbols w1 = n_symbols)
  /\ chk_exclude_ambiguous w1 = exclude_ambiguous
  /\ txt_custom_symbols w1 = txt_custom_symbols w.
Proof. by repeat split. Qed.

(** The button after the character controls were set to values with which
    nothing stands in the way of the sampler. *)
Lemma on_generate_after_controls entropy w pos sel_lower n_lower sel_upper
    n_upper sel_digits n_digits sel_symbols n_symbols length
    exclude_ambiguous (each : str -> Prop) :
  let w1 :=
    set_character_controls w sel_lower n_lower sel_upper n_upper sel_digits
      n_digits sel_symbols n_symbols length exclude_ambiguous in
  let charset :=
    build_charset sel_lower sel_upper sel_digits sel_symbols
      (txt_custom_symbols w) exclude_ambiguous in
  preset_combo w <> 4 ->
  (sel_lower || sel_upper || sel_digits || sel_symbols) = true ->
  charset <> [] ->
  total_required
    [("lower"%string, if sel_lower then n_lower else 0);
     ("upper"%string, if sel_upper then n_upper else 0);
     ("digits"%string, if sel_digits then n_digits else 0);
     ("symbols"%string, if sel_symbols then n_symbols else 0)] <= length ->
  ~ (sel_symbols = true /\ n_symbols <> 0 /\ exclude_ambiguous = true
     /\ Forall (fun ch => ch ∈ AMBIGUOUS)
          (symbols_of (txt_custom_symbols w))) ->
  (forall pw,
     len pw = length ->
     (forall ch, ch ∈ pw -> ch ∈ charset) ->
     (sel_lower = true ->
        n_lower <= Z.of_nat (count_in ascii_lowercase pw)) ->
     (sel_upper = true ->
        n_upper <= Z.of_nat (count_in ascii_uppercase pw)) ->
     (sel_digits = true -> n_digits <= Z.of_nat (count_in digits pw)) ->
     (sel_symbols = true ->
        n_symbols
        <= Z.of_nat (count_in (symbols_of (txt_custom_symbols w)) pw)) ->
     each pw) ->
  exists passwords,
    on_generate entropy w1 pos = (setPlainText w1 (join [LF] passwords), [])
    /\ List.length passwords = Z.to_nat (count_of_window w)
    /\ Forall each passwords.
Proof.
  intros w1 charset Hmode Hany Hcharset Htotal Hunmet Heach.
  destruct (set_character_controls_fields w sel_lower n_lower sel_upper
              n_upper sel_digits n_digits sel_symbols n_symbols length
              exclude_ambiguous)
    as (Fp & Fc & Fcs & Fr & Fl & (Fa & Fb & Fd & Fs) & (Ma & Mb & Md & Ms)
        & Fe & Ft).
  fold w1 in Fp, Fc, Fcs, Fr, Fl, Fa, Fb, Fd, Fs, Ma, Mb, Md, Ms, Fe, Ft.
  fold charset in Fcs. clearbody w1 charset.
  destruct (on_generate_character_mode_run entropy w1 pos)
    as (passwords & Hgen & Hlen & Hall).
  - by rewrite Fp.
  - by rewrite Fa, Fb, Fd, Fs.
  - by rewrite Fcs.
  - by rewrite Fr, Fl.
  - rewrite req_of_window_unmet, Fs, Ms, Fe, Ft. exact Hunmet.
  - exists passwords. split; [exact Hgen|]. split; [by rewrite <- Fc|].
    eapply Forall_impl; [exact Hall|].
    intros pw (Hpw & Hin & Hcounts). cbv beta in *.
    apply (class_counts_of_pool_counts w1 (charset_of_window w1)) in Hcounts
      as (Cl & Cu & Cd & Cs).
    rewrite Fa, Ma in Cl. rewrite Fb, Mb in Cu. rewrite Fd, Md in Cd.
    rewrite Fs, Ms, Ft in Cs. rewrite Fl in Hpw.
    apply Heach; try done.
    intros ch Hch. rewrite <- Fcs. by apply Hin.
Qed.

Lemma apply_preset_index w :
  (preset_combo w = 1 ->
     apply_preset w true
     = set_character_controls w true 1 true 1 false 0 false 0 16 true)
  /\ (preset_combo w = 2 ->
        apply_preset w true
        = set_character_controls w true 1 true 1 true 1 true 1 20 true)
  /\ (preset_combo w = 3 ->
        apply_preset w true
        = set_character_controls w false 0 false 0 true 4 false 0 8 false).
Proof. unfold apply_preset. by repeat split; intros ->. Qed.

(** With the lowercase letters selected and the ambiguous characters
    excluded, or with the digits selected and nothing excluded, the charset
    is not empty. *)
Lemma build_charset_not_empty include_lower include_upper include_digits
    include_symbols custom_symbols :
  build_charset true include_upper include_digits include_symbols
    custom_symbols true <> []
  /\ build_charset include_lower include_upper true include_symbols
       custom_symbols false <> [].
Proof.
  destruct alphabets_keep_a_character as ((a & Ha & Ha') & _ & (c & Hc & Hc')).
  split; intros Hnil.
  - assert (a ∈ build_charset true include_upper include_digits
                  include_symbols custom_symbols true) as Hin.
    { apply elem_of_build_charset. split; [|done].
      apply elem_of_candidates. by left. }
    rewrite Hnil in Hin. by apply elem_of_nil in Hin.
  - assert (c ∈ build_charset include_lower include_upper true
                  include_symbols custom_symbols false) as Hin.
    { apply elem_of_build_charset. split; [|done].
      apply elem_of_candidates. right. right. by left. }
    rewrite Hnil in Hin. by apply elem_of_nil in Hin.
Qed.

(** X8. The character presets.  Whatever the widgets held before a preset is
    applied, the button then produces: after "Memorable", secrets of 16
    letters, none ambiguous, with a lowercase and an uppercase letter at
    least; after "PIN", secrets of 8 digits; after "Strong", secrets of 20
    characters, none ambiguous, with a character of each of the four
    classes at least, unless every symbol in use is ambiguous, in which
    case the button fails on the requirement for a symbol. *)
Theorem presets_generate (entropy : nat -> nat) (w : window) (pos : nat) :
  let w1 := apply_preset w true in
  let produces (each : str -> Prop) :=
    exists passwords,
      on_generate entropy w1 pos = (setPlainText w1 (join [LF] passwords), [])
      /\ List.length passwords = Z.to_nat (count_of_window w)
      /\ Forall each passwords in
  (preset_combo w = 1 ->
     produces (fun pw =>
       len pw = 16
       /\ (forall ch, ch ∈ pw ->
             (ch ∈ ascii_lowercase \/ ch ∈ ascii_uppercase)
             /\ ch ∉ AMBIGUOUS)
       /\ (1 <= count_in ascii_lowercase pw)%nat
       /\ (1 <= count_in ascii_uppercase pw)%nat))
  /\ (preset_combo w = 3 ->
        produces (fun pw => len pw = 8 /\ forall ch, ch ∈ pw -> ch ∈ digits))
  /\ (preset_combo w = 2 ->
        ~ Forall (fun ch => ch ∈ AMBIGUOUS)
            (symbols_of (txt_custom_symbols w)) ->
        produces (fun pw =>
          len pw = 20
          /\ (forall ch, ch ∈ pw -> ch ∉ AMBIGUOUS)
          /\ (1 <= count_in ascii_lowercase pw)%nat
          /\ (1 <= count_in ascii_uppercase pw)%nat
          /\ (1 <= count_in digits pw)%nat
          /\ (1 <= count_in (symbols_of (txt_custom_symbols w)) pw)%nat))
  /\ (preset_combo w = 2 ->
        Forall (fun ch => ch ∈ AMBIGUOUS)
          (symbols_of (txt_custom_symbols w)) ->
        0 < count_of_window w ->
        on_generate entropy w1 pos
        = (w1, [Error (Generation_failed
                         (ValueError (Requirement_but_empty_set "symbols")))])).
Proof.
  intros w1 produces. subst w1 produces. cbv beta.
  destruct (apply_preset_index w) as (E1 & E2 & E3).
  pose (custom := txt_custom_symbols w).
  split; [|split; [|split]].
  - intros Hidx. rewrite (E1 Hidx).
    apply on_generate_after_controls;
      [lia|reflexivity| |by vm_compute|by intros (? & _)|].
    { exact (proj1 (build_charset_not_empty false true false false custom)). }
    intros pw Hlen Hin Cl Cu _ _.
    split; [exact Hlen|]. split; [|split; [specialize (Cl eq_refl); lia
                                         |specialize (Cu eq_refl); lia]].
    intros ch Hch. apply Hin in Hch.
    apply (proj1 (elem_of_build_charset true true false false custom true ch))
      in Hch as [Hcand Hamb].
    split; [|by apply Hamb].
    apply (proj1 (elem_of_candidates true true false false custom ch))
      in Hcand as [[_ ?]|[[_ ?]|[[? _]|[? _]]]];
      [by left|by right|discriminate..].
  - intros Hidx. rewrite (E3 Hidx).
    apply on_generate_after_controls;
      [lia|reflexivity| |by vm_compute|by intros (? & _)|].
    { exact (proj2 (build_charset_not_empty false false false false custom)). }
    intros pw Hlen Hin _ _ _ _.
    split; [exact Hlen|].
    intros ch Hch. apply Hin in Hch.
    apply (proj1 (elem_of_build_charset false false true false custom false
                    ch)) in Hch as [Hcand _].
    apply (proj1 (elem_of_candidates false false true false custom ch))
      in Hcand as [[? _]|[[? _]|[[_ ?]|[? _]]]];
      [discriminate..|assumption|discriminate].
  - intros Hidx Hsym. rewrite (E2 Hidx).
    apply on_generate_after_controls;
      [lia|reflexivity| |by vm_compute|by intros (_ & _ & _ & ?)|].
    { exact (proj1 (build_charset_not_empty false true true true custom)). }
    intros pw Hlen Hin Cl Cu Cd Cs.
    split; [exact Hlen|].
    split; [|specialize (Cl eq_refl); specialize (Cu eq_refl);
             specialize (Cd eq_refl); specialize (Cs eq_refl);
             subst custom; repeat split; lia].
    intros ch Hch. apply Hin in Hch.
    apply (proj1 (elem_of_build_charset true true true true custom true ch))
      in Hch as [_ Hamb].
    by apply Hamb.
  - intros Hidx Hsym Hcount. rewrite (E2 Hidx).
    destruct (set_character_controls_fields w true 1 true 1 true 1 true 1 20
                true)
      as (Fp & Fc & Fcs & Fr & Fl & (Fa & Fb & Fd & Fs) & (Ma & Mb & Md & Ms)
          & Fe & Ft).
    cbv zeta in Fp, Fc, Fcs, Fr, Fl, Fa, Fb, Fd, Fs, Ma, Mb, Md, Ms, Fe, Ft.
    remember (set_character_controls w true 1 true 1 true 1 true 1 20 true)
      as w2 eqn:Hw2.
    clear Hw2.
    assert (Hcharset : charset_of_window w2 <> []).
    { rewrite Fcs.
      exact (proj1 (build_charset_not_empty false true true true custom)). }
    assert (Hex : Exists (unmet (pools_of_window w2 (charset_of_window w2)))
                    (req_of_window w2)).
    { apply req_of_window_unmet. rewrite Fs, Ms, Fe, Ft. by repeat split. }
    destruct (generate_with_requirements_cases entropy (spin_length w2)
                (pools_of_window w2 (charset_of_window w2))
                (req_of_window w2) (charset_of_window w2) pos)
      as [[Hnil _]|[(_ & Hgt & _)|[(_ & _ & _ & key & n & Hraise & Hkey & Hun)
                                  |(_ & _ & Hno & _)]]].
    + exact (False_ind _ (Hcharset Hnil)).
    + rewrite Fr, Fl in Hgt. by vm_compute in Hgt.
    + apply unmet_key_of_window in Hun as ->; [|exact Hkey].
      apply on_generate_character_mode_raises;
        [rewrite Fp; lia|by rewrite Fa, Fb, Fd, Fs|exact Hcharset
        |rewrite Fr, Fl; by vm_compute|by rewrite Fc|exact Hraise].
    + exact (False_ind _ (Hno Hex)).
Qed.

(** ** The word list over the life of a window *)

(** Decides the comparisons of the goal that the hypotheses settle. *)
Ltac settle_comparisons :=
  repeat match goal with
         | |- context [(?a <=? ?b)%N] =>
             first [replace (a <=? b)%N with true
                      by (symmetry; apply N.leb_le; lia)
                   |replace (a <=? b)%N with false
                      by (symmetry; apply N.leb_gt; lia)]
         | |- context [(?a =? ?b)%N] =>
             first [replace (a =? b)%N with true
                      by (symmetry; apply N.eqb_eq; lia)
                   |replace (a =? b)%N with false
                      by (symmetry; apply N.eqb_neq; lia)]
         end.

Lemma word_char_cases c :
  word_char c = true ->
  (0x61 <= c <= 0x7A)%N \/ c = 0x27%N \/ c = 0x2D%N.
Proof.
  unfold word_char, is_ascii_lower, APOSTROPHE, HYPHEN.
  intros [[[H1 H2]%andb_prop|H]%orb_prop|H]%orb_prop.
  - left. apply N.leb_le in H1, H2. lia.
  - right. left. by apply N.eqb_eq in H.
  - right. right. by apply N.eqb_eq in H.
Qed.

Lemma word_char_facts c :
  word_char c = true ->
  acceptable c = true /\ lower_char c = [c] /\ isspace c = false
  /\ c <> CAPITAL_I_WITH_DOT_ABOVE.
Proof.
  intros Hc. pose proof (word_char_cases c Hc) as Hcases.
  rewrite acceptable_characters.
  unfold letter_apostrophe_or_hyphen. fold (word_char c).
  assert (is_ascii_lower c || is_ascii_upper c || (c =? APOSTROPHE)%N
          || (c =? HYPHEN)%N = true) as ->.
  { unfold word_char in Hc.
    destruct (is_ascii_lower c), (is_ascii_upper c), (c =? APOSTROPHE)%N,
      (c =? HYPHEN)%N; done. }
  split; [done|].
  unfold lower_char, is_ascii_upper, isspace, CAPITAL_I_WITH_DOT_ABOVE.
  destruct Hcases as [?|[->| ->]]; [|by vm_compute..].
  settle_comparisons. cbn [andb orb]. repeat split. lia.
Qed.

Lemma acceptable_lower_char ch :
  acceptable ch = true ->
  (ch = CAPITAL_I_WITH_DOT_ABOVE
   /\ lower_char ch = [0x69%N; COMBINING_DOT_ABOVE])
  \/ (ch <> CAPITAL_I_WITH_DOT_ABOVE
      /\ exists c, lower_char ch = [c] /\ word_char c = true).
Proof.
  rewrite acceptable_characters.
  unfold letter_apostrophe_or_hyphen, is_ascii_lower, is_ascii_upper,
    APOSTROPHE, HYPHEN, KELVIN_SIGN, CAPITAL_I_WITH_DOT_ABOVE.
  intros [[[[[[H1 H2]%andb_prop|[H1 H2]%andb_prop]%orb_prop|H]%orb_prop
            |H]%orb_prop|H]%orb_prop|H]%orb_prop;
    try apply N.leb_le in H1; try apply N.leb_le in H2;
    try apply N.eqb_eq in H; try subst ch.
  - right. split; [lia|]. exists ch. split.
    + unfold lower_char, is_ascii_upper. by settle_comparisons.
    + unfold word_char, is_ascii_lower, APOSTROPHE, HYPHEN.
      by settle_comparisons.
  - right. split; [lia|]. exists (ch + 0x20)%N. split.
    + unfold lower_char, is_ascii_upper. by settle_comparisons.
    + unfold word_char, is_ascii_lower, APOSTROPHE, HYPHEN.
      by settle_comparisons.
  - right. split; [done|]. by exists 0x27%N.
  - right. split; [done|]. by exists 0x2D%N.
  - left. by split.
  - right. split; [done|]. by exists 0x6B%N.
Qed.

Lemma lower_char_not_space ch :
  acceptable ch = true ->
  Forall (fun c => isspace c = false) (lower_char ch).
Proof.
  intros [[_ ->]|[_ (c & -> & Hc)]]%acceptable_lower_char.
  - by repeat constructor.
  - constructor; [|done]. by apply word_char_facts.
Qed.

Lemma lower_not_nil w : w <> [] -> lower w <> [].
Proof.
  destruct w as [|ch w]; [done|]. intros _.
  unfold lower. cbn [map concat]. unfold lower_char.
  by destruct (is_ascii_upper ch), (ch =? 304)%N, (ch =? 8490)%N.
Qed.

(** The words of a file that was read. *)
Lemma filtered_words_word text word :
  word ∈ filtered_words text ->
  exists w, w <> [] /\ forallb acceptable w = true /\ word = lower w
            /\ (forall c, head w = Some c -> isspace c = false)
            /\ (forall c, last w = Some c -> isspace c = false).
Proof.
  intros Hword.
  apply (proj1 (proj1 (proj2 (proj2 (filtered_words_spec text))) word))
    in Hword as (line & _ & Hline).
  unfold word_of_line in Hline.
  destruct (strip line) as [|c w] eqn:Hw; [done|]. cbn [is_empty] in Hline.
  destruct (forallb acceptable (c :: w)) eqn:Hacc; [|done].
  injection Hline as <-. exists (c :: w).
  split; [done|]. split; [done|]. split; [done|].
  assert (Hns : forall x, x ∈ c :: w -> isspace x = false).
  { intros x Hx.
    assert (acceptable x = true) as Hax.
    { rewrite forallb_forall in Hacc. apply Hacc. by apply list_elem_of_In. }
    apply acceptable_lower_char in Hax
      as [[-> _]|[_ (y & Hy & Hwc)]]; [done|].
    unfold lower_char in Hy.
    destruct (is_ascii_upper x) eqn:Hup.
    - unfold is_ascii_upper in Hup. apply andb_prop in Hup as [H1 H2].
      apply N.leb_le in H1, H2. unfold isspace. by settle_comparisons.
    - destruct (x =? 304)%N; [done|].
      destruct (x =? 8490)%N eqn:Hk.
      + apply N.eqb_eq in Hk as ->. done.
      + injection Hy as <-. by apply word_char_facts. }
  split.
  - intros x [= <-]. apply Hns. left.
  - intros x Hx. apply Hns. by apply last_Some_elem_of in Hx.
Qed.

Lemma vocabulary_ok_FALLBACK_WORDS : vocabulary_ok FALLBACK_WORDS.
Proof.
  unfold vocabulary_ok. split; [done|]. split.
  - apply (bool_decide_unpack _). by vm_compute.
  - apply (bool_decide_unpack _). by vm_compute.
Qed.

Lemma vocabulary_ok_filtered_words text :
  filtered_words text <> [] -> vocabulary_ok (filtered_words text).
Proof.
  intros Hne. split; [done|]. split; [apply filtered_words_spec|].
  apply Forall_forall. intros word Hword.
  split; [|split; [by apply (filtered_words_lowercase text)|]].
  - apply filtered_words_word in Hword as (w & Hw & _ & -> & _).
    by apply lower_not_nil.
  - apply filtered_words_word in Hword as (w & _ & Hacc & -> & _).
    unfold lower. apply Forall_concat, Forall_fmap, Forall_forall.
    intros ch Hch. cbn. apply lower_char_not_space.
    rewrite forallb_forall in Hacc. apply Hacc. by apply list_elem_of_In.
Qed.

Lemma wordlist_on_generate entropy w pos :
  wordlist (on_generate entropy w pos).1 = wordlist w.
Proof.
  unfold on_generate.
  destruct (preset_combo w =? 4).
  - destruct (is_empty (wordlist w)); [done|].
    by destruct (repeat_M _ _ pos) as [[? ?]|?].
  - destruct (negb _); [done|]. destruct (is_empty _); [done|].
    destruct (_ >? _); [done|].
    by destruct (repeat_M _ _ pos) as [[? ?]|?].
Qed.

Lemma wordlist_apply_preset w apply_defaults_if_needed :
  wordlist (apply_preset w apply_defaults_if_needed) = wordlist w.
Proof.
  unfold apply_preset.
  by destruct (preset_combo w =? 4), (negb apply_defaults_if_needed),
    (preset_combo w =? 0), (preset_combo w =? 1), (preset_combo w =? 2),
    (preset_combo w =? 3).
Qed.

Lemma vocabulary_ok_load w file :
  vocabulary_ok (wordlist w) ->
  vocabulary_ok (wordlist (_load_wordlist_from_path w file).1.1).
Proof.
  intros Hok. unfold _load_wordlist_from_path.
  destruct file as [text|]; [|done].
  destruct (filtered_words text) as [|word words] eqn:Hwords; [done|].
  cbn [is_empty negb fst snd set_wordlist wordlist].
  rewrite <- Hwords. apply vocabulary_ok_filtered_words. by rewrite Hwords.
Qed.

Lemma vocabulary_ok_handle s e :
  vocabulary_ok (wordlist (win s)) ->
  vocabulary_ok (wordlist (win (handle s e))).
Proof.
  intros Hok. destruct e as [widgets|path file|b|entropy pos|];
    cbn [handle win].
  - done.
  - unfold on_load_wordlist. destruct (is_empty path); [done|].
    pose proof (vocabulary_ok_load (win s) file Hok) as Hload.
    destruct (_load_wordlist_from_path (win s) file) as [[w' shown] ok].
    by destruct ok.
  - by rewrite wordlist_apply_preset.
  - by rewrite wordlist_on_generate.
  - done.
Qed.

Lemma vocabulary_ok_init w saved file :
  vocabulary_ok (wordlist (win (init_wordlist w saved file).1)).
Proof.
  unfold init_wordlist.
  destruct (path_is_set saved), file as [read|];
    try apply vocabulary_ok_FALLBACK_WORDS.
  pose proof (vocabulary_ok_load (set_wordlist w FALLBACK_WORDS) read
                vocabulary_ok_FALLBACK_WORDS) as Hload.
  by destruct (_load_wordlist_from_path _ read) as [[w' shown] ok].
Qed.

(** *** The characters of the words in use *)

Lemma vocabulary_char_cases c :
  vocabulary_char c = true ->
  (0x61 <= c <= 0x7A)%N \/ c = 0x27%N \/ c = 0x2D%N \/ c = 0x307%N.
Proof.
  unfold vocabulary_char, COMBINING_DOT_ABOVE.
  intros [H%word_char_cases|H%N.eqb_eq]%orb_prop; [|by auto].
  destruct H as [?|[?|?]]; by auto.
Qed.

Lemma vocabulary_char_facts c :
  vocabulary_char c = true ->
  lower_char c = [c] /\ isspace c = false /\ is_line_boundary c = false
  /\ box_changes c = false.
Proof.
  intros [Hc | [-> | [-> | ->]]]%vocabulary_char_cases; [|done..].
  unfold lower_char, is_ascii_upper, isspace, is_line_boundary, box_changes.
  settle_comparisons. cbn [andb orb]. done.
Qed.

Lemma upper_char_vocabulary c :
  vocabulary_char c = true ->
  upper_char c <> []
  /\ Forall (fun c' => isspace c' = false /\ box_changes c' = false)
       (upper_char c).
Proof.
  intros Hc. pose proof (vocabulary_char_cases c Hc) as Hcases.
  unfold upper_char. destruct (is_ascii_lower c) eqn:Hlow.
  - split; [done|]. constructor; [|done].
    unfold is_ascii_lower in Hlow. apply andb_prop in Hlow as [H1 H2].
    apply N.leb_le in H1, H2. unfold isspace, box_changes.
    settle_comparisons. cbn [andb orb]. done.
  - split; [done|]. constructor; [|done].
    by apply vocabulary_char_facts in Hc as (_ & ? & _ & ?).
Qed.

Lemma lower_vocabulary_word word :
  Forall (fun c => vocabulary_char c = true) word -> lower word = word.
Proof.
  induction 1 as [|c word Hc _ IH]; [done|].
  unfold lower in *. cbn [map concat].
  apply vocabulary_char_facts in Hc as (-> & _). by rewrite IH.
Qed.

(** On a word in use, [capitalize] uppercases the first character and
    leaves the others as they are. *)
Lemma capitalize_vocabulary_word word :
  Forall (fun c => vocabulary_char c = true) word ->
  capitalize word = uppercase_first word.
Proof. intros Hword. by apply capitalize_lowercase_word, lower_vocabulary_word. Qed.

Lemma is_vocabulary_FALLBACK_WORDS : is_vocabulary FALLBACK_WORDS.
Proof. apply (bool_decide_unpack _). by vm_compute. Qed.

Lemma is_vocabulary_filtered_words text : is_vocabulary (filtered_words text).
Proof.
  apply Forall_forall. intros word Hword.
  apply filtered_words_word in Hword as (w & _ & Hacc & -> & _).
  unfold lower. apply Forall_concat, Forall_fmap, Forall_forall.
  intros ch Hch. cbn.
  assert (acceptable ch = true) as Hch'.
  { rewrite forallb_forall in Hacc. apply Hacc. by apply list_elem_of_In. }
  apply acceptable_lower_char in Hch' as [[_ ->]|[_ (c & -> & Hc)]].
  - by repeat constructor.
  - constructor; [|done]. unfold vocabulary_char. by rewrite Hc.
Qed.

Lemma is_vocabulary_load w file :
  is_vocabulary (wordlist w) ->
  is_vocabulary (wordlist (_load_wordlist_from_path w file).1.1).
Proof.
  intros Hok. unfold _load_wordlist_from_path.
  destruct file as [text|]; [|done].
  destruct (filtered_words text) as [|word words] eqn:Hwords; [done|].
  cbn [is_empty negb fst snd set_wordlist wordlist].
  rewrite <- Hwords. apply is_vocabulary_filtered_words.
Qed.

Lemma is_vocabulary_handle s e :
  is_vocabulary (wordlist (win s)) ->
  is_vocabulary (wordlist (win (handle s e))).
Proof.
  intros Hok. destruct e as [widgets|path file|b|entropy pos|];
    cbn [handle win].
  - done.
  - unfold on_load_wordlist. destruct (is_empty path); [done|].
    pose proof (is_vocabulary_load (win s) file Hok) as Hload.
    destruct (_load_wordlist_from_path (win s) file) as [[w' shown] ok].
    by destruct ok.
  - by rewrite wordlist_apply_preset.
  - by rewrite wordlist_on_generate.
  - done.
Qed.

Lemma is_vocabulary_init w saved file :
  is_vocabulary (wordlist (win (init_wordlist w saved file).1)).
Proof.
  unfold init_wordlist.
  destruct (path_is_set saved), file as [read|];
    try apply is_vocabulary_FALLBACK_WORDS.
  pose proof (is_vocabulary_load (set_wordlist w FALLBACK_WORDS) read
                is_vocabulary_FALLBACK_WORDS) as Hload.
  by destruct (_load_wordlist_from_path _ read) as [[w' shown] ok].
Qed.

(** The words of a window are words in use at any time: the built-in words
    are, and so are the words of any file that loads. *)
Lemma is_vocabulary_session (w : window) (saved : option str)
    (file : option (option str)) (events : list event) :
  is_vocabulary
    (wordlist (win (fold_left handle events (init_wordlist w saved file).1))).
Proof.
  generalize (is_vocabulary_init w saved file).
  generalize (init_wordlist w saved file).1.
  induction events as [|e events IH]; intros s0 Hs0; [done|].
  cbn [fold_left]. by apply IH, is_vocabulary_handle.
Qed.

(** What [generate_passphrase] returns when there are words to draw. *)
Lemma generate_passphrase_returns entropy n_words words sep cap pos :
  words <> [] ->
  generate_passphrase entropy n_words words sep cap pos
  = Ok (join sep
          (let picks := drawn_words entropy pos (Z.to_nat n_words) words in
           if cap then map capitalize picks else picks),
        (pos + Z.to_nat n_words)%nat).
Proof.
  intros Hwords. unfold generate_passphrase, bind.
  by rewrite repeat_choice_drawn_words.
Qed.

(** X10. The word list of a window, at any time: whatever was saved and whatever
    the files hold, after any sequence of edits, loads, presets, generations
    and clearings the list is not empty, has no duplicates, and its words
    are not empty, are in lowercase and hold no white space.  So in
    passphrase mode the button never ends in an error box. *)
Theorem vocabulary_invariant (w : window) (saved : option str)
    (file : option (option str)) (events : list event) :
  let s := fold_left handle events (init_wordlist w saved file).1 in
  vocabulary_ok (wordlist (win s))
  /\ (preset_combo (win s) = 4 ->
      forall entropy pos,
      exists passwords,
        on_generate entropy (win s) pos
        = (setPlainText (win s) (join [LF] passwords), [])
        /\ List.length passwords = Z.to_nat (count_of_window (win s))).
Proof.
  intros s.
  assert (Hok : vocabulary_ok (wordlist (win s))).
  { subst s. generalize (vocabulary_ok_init w saved file).
    generalize (init_wordlist w saved file).1.
    induction events as [|e events IH]; intros s0 Hs0; [done|].
    cbn [fold_left]. by apply IH, vocabulary_ok_handle. }
  split; [done|].
  intros Hmode entropy pos. destruct Hok as (Hwords & _).
  unfold on_generate. fold (count_of_window (win s)).
  rewrite Hmode. cbn [Z.eqb Pos.eqb].
  destruct (wordlist (win s)) as [|word words] eqn:Hw; [done|].
  cbn [is_empty].
  destruct (repeat_M_returns
              (generate_passphrase entropy (spin_words (win s))
                 (word :: words)
                 (if negb (is_empty (txt_separator (win s)))
                  then txt_separator (win s) else lit "-")
                 (chk_capitalize (win s)))
              (Z.to_nat (count_of_window (win s))) pos)
    as (passwords & pos' & Hrun & Hlen).
  { intros p. rewrite generate_passphrase_returns by done. by eexists _, _. }
  exists passwords. by rewrite Hrun.
Qed.

(** ** Passphrases over a vocabulary *)


(** The vocabulary matters: on a word with an uppercase letter after its
    first character, [capitalize] lowers that letter. *)
Lemma capitalize_lowers_the_other_letters :
  let picks := drawn_words (fun _ => O) 0 1 [lit "McDonald"] in
  picks = [lit "McDonald"]
  /\ generate_passphrase (fun _ => O) 1 [lit "McDonald"] (lit "-") true 0%nat
     = Ok (lit "Mcdonald", 1%nat)
  /\ generate_passphrase (fun _ => O) 1 [lit "McDonald"] (lit "-") true 0%nat
     <> Ok (join (lit "-") (map uppercase_first picks), 1%nat).
Proof. by vm_compute. Qed.

(** A word that begins with an apostrophe or a hyphen has no uppercase
    form of its first character: it comes out as drawn. *)
Lemma capitalize_word_without_first_letter :
  generate_passphrase (fun _ => O) 1 [lit "'tis"] (lit "-") true 0%nat
  = Ok (lit "'tis", 1%nat).
Proof. by vm_compute. Qed.

(** X7. In passphrase mode, with words in the list, the button produces as many
    passphrases as asked for; each is made of as many words of the list as
    the word count says, capitalized when the box is checked, and joined
    with the text of the separator field, where "-" stands for an empty
    field.  The words are words in use, as the fallback list and the
    loader provide them: capitalizing one uppercases its first character
    and leaves the others. *)
Theorem on_generate_passphrases_follow_the_widgets
    (entropy : nat -> nat) (w : window) (pos : nat) :
  preset_combo w = 4 -> wordlist w <> [] -> is_vocabulary (wordlist w) ->
  exists passwords,
    on_generate entropy w pos = (setPlainText w (join [LF] passwords), [])
    /\ List.length passwords = Z.to_nat (count_of_window w)
    /\ Forall (fun pw =>
         exists picks,
           List.length picks = Z.to_nat (spin_words w)
           /\ Forall (fun word => word ∈ wordlist w) picks
           /\ pw = join (if is_empty (txt_separator w) then lit "-"
                         else txt_separator w)
                     (if chk_capitalize w then map capitalize picks
                      else picks)
           /\ map capitalize picks = map uppercase_first picks)
         passwords.
Proof.
  intros Hmode Hwords Hvoc. unfold on_generate. fold (count_of_window w).
  rewrite Hmode. cbn [Z.eqb Pos.eqb].
  destruct (wordlist w) as [|word words] eqn:Hw; [done|]. cbn [is_empty].
  set (sep := if negb _ then _ else _).
  assert (Hsep : sep = if is_empty (txt_separator w) then lit "-"
                       else txt_separator w)
    by (subst sep; by destruct (txt_separator w)).
  assert (Hone : forall p pw p',
            generate_passphrase entropy (spin_words w) (word :: words) sep
              (chk_capitalize w) p = Ok (pw, p') ->
            exists picks,
              List.length picks = Z.to_nat (spin_words w)
              /\ Forall (fun word' => word' ∈ word :: words) picks
              /\ pw = join sep (if chk_capitalize w then map capitalize picks
                                else picks)
              /\ map capitalize picks = map uppercase_first picks).
  { intros p pw p'. rewrite generate_passphrase_returns by done.
    intros [= <- _].
    pose proof (drawn_words_in entropy (word :: words)
                  (Z.to_nat (spin_words w)) p ltac:(done)) as Hin.
    exists (drawn_words entropy p (Z.to_nat (spin_words w)) (word :: words)).
    split; [apply drawn_words_length|]. split; [done|]. split; [done|].
    apply map_ext_Forall. eapply Forall_impl; [exact Hin|].
    intros word' Hword'. apply capitalize_vocabulary_word.
    by apply (proj1 (Forall_forall _ _) Hvoc). }
  pose proof (repeat_M_inv
    (generate_passphrase entropy (spin_words w) (word :: words) sep
       (chk_capitalize w))
    (fun pw =>
       exists picks,
         List.length picks = Z.to_nat (spin_words w)
         /\ Forall (fun word' => word' ∈ word :: words) picks
         /\ pw = join sep (if chk_capitalize w then map capitalize picks
                           else picks)
         /\ map capitalize picks = map uppercase_first picks)
    (fun _ => False) (Z.to_nat (count_of_window w)) pos) as Hinv.
  destruct (repeat_M _ _ pos) as [[passwords pos']|e].
  - exists passwords. split; [done|]. rewrite <- Hsep. apply Hinv.
    + exact Hone.
    + intros p e. by rewrite generate_passphrase_returns.
  - destruct Hinv.
    + exact Hone.
    + intros p e'. by rewrite generate_passphrase_returns.
Qed.

(** ** Reading a word list that was written one word per line *)

Lemma lstrip_not_space c s : isspace c = false -> lstrip (c :: s) = c :: s.
Proof. intros Hc. cbn [lstrip]. by rewrite Hc. Qed.

Lemma rstrip_snoc_space s c : isspace c = true -> rstrip (s ++ [c]) = rstrip s.
Proof.
  intros Hc. unfold rstrip. rewrite rev_app_distr. cbn [rev app lstrip].
  by rewrite Hc.
Qed.

Lemma rstrip_snoc_not_space s c :
  isspace c = false -> rstrip (s ++ [c]) = s ++ [c].
Proof.
  intros Hc. unfold rstrip. rewrite rev_app_distr. cbn [rev app lstrip].
  rewrite Hc. change (rev (c :: rev s)) with (rev (rev s) ++ [c]).
  by rewrite rev_involutive.
Qed.

(** A string whose first and last characters are not white space is left
    as it is by [strip]. *)
Lemma strip_clean s :
  (forall c, head s = Some c -> isspace c = false) ->
  (forall c, last s = Some c -> isspace c = false) ->
  strip s = s.
Proof.
  intros Hhead Hlast. unfold strip.
  destruct s as [|c s]; [done|].
  rewrite lstrip_not_space by (by apply Hhead).
  destruct (exists_last (l := c :: s)) as (s' & c' & Hs); [done|].
  rewrite Hs in *. apply rstrip_snoc_not_space, Hlast, last_snoc.
Qed.

Lemma readlines_from_app cur s rest :
  Forall (fun c => c <> LF /\ c <> CR) s ->
  readlines_from cur (s ++ rest) = readlines_from (cur ++ s) rest.
Proof.
  intros Hs. revert cur. induction Hs as [|c s [Hlf Hcr] _ IH]; intros cur.
  - by rewrite app_nil_r.
  - cbn [app readlines_from].
    destruct (N.eqb_spec c LF); [done|]. destruct (N.eqb_spec c CR); [done|].
    rewrite IH. by rewrite <- app_assoc.
Qed.

Lemma dedup_NoDup `{Countable B} (l : list B) : NoDup l -> dedup l = l.
Proof.
  induction l as [|x l IH] using rev_ind; [done|].
  intros [Hl [Hx _]]%NoDup_app. rewrite dedup_snoc, IH by done.
  rewrite decide_False; [done|].
  intros Hin. apply (Hx x Hin). left.
Qed.

(** A normalised word: not empty, made of lowercase letters, apostrophes
    and hyphens. *)
Lemma normal_word_facts w :
  w <> [] -> Forall (fun c => word_char c = true) w ->
  strip w = w /\ forallb acceptable w = true /\ lower w = w
  /\ Forall (fun c => c <> LF /\ c <> CR) w.
Proof.
  intros Hne Hw.
  assert (Hns : forall c, c ∈ w -> isspace c = false).
  { intros c Hc. apply word_char_facts.
    by apply (proj1 (Forall_forall _ _) Hw). }
  split; [|split; [|split]].
  - apply strip_clean.
    + intros c Hc. apply Hns. destruct w; [done|]. injection Hc as ->. left.
    + intros c Hc. apply Hns. by apply last_Some_elem_of in Hc.
  - apply forallb_forall. intros c Hc. apply word_char_facts.
    apply (proj1 (Forall_forall _ _) Hw). by apply list_elem_of_In.
  - clear Hne Hns. induction Hw as [|c w Hc _ IH]; [done|].
    unfold lower in *. cbn [map concat]. rewrite IH.
    by destruct (word_char_facts c Hc) as (_ & -> & _).
  - apply Forall_forall. intros c Hc. specialize (Hns c Hc).
    split; intros ->; done.
Qed.

Lemma word_of_line_normal w :
  w <> [] -> Forall (fun c => word_char c = true) w ->
  word_of_line w = Some w /\ word_of_line (w ++ [LF]) = Some w.
Proof.
  intros Hne Hw.
  destruct (normal_word_facts w Hne Hw) as (Hstrip & Hacc & Hlow & _).
  assert (strip (w ++ [LF]) = w) as Hstrip'.
  { unfold strip in *. destruct w as [|c w]; [done|].
    cbn [app]. unfold strip in Hstrip.
    assert (isspace c = false) as Hc.
    { apply word_char_facts. by inversion Hw. }
    rewrite lstrip_not_space in * by done.
    change (c :: w ++ [LF]) with ((c :: w) ++ [LF]).
    by rewrite rstrip_snoc_space. }
  unfold word_of_line. rewrite Hstrip, Hstrip', Hacc, Hlow.
  by destruct w.
Qed.

Lemma omap_cons {B C} (f : B -> option C) x l :
  omap f (x :: l)
  = match f x with Some y => y :: omap f l | None => omap f l end.
Proof. done. Qed.

(** A file that holds distinct normalised words, one per line, loads as
    the list of these words. *)
Lemma filtered_words_of_lines ws :
  NoDup ws ->
  Forall (fun w => w <> [] /\ Forall (fun c => word_char c = true) w) ws ->
  filtered_words (join [LF] ws) = ws.
Proof.
  intros Hnd Hws.
  destruct (filtered_words_spec (join [LF] ws)) as (-> & _).
  rewrite <- (dedup_NoDup ws) at 2 by done. f_equal.
  clear Hnd. unfold readlines.
  induction Hws as [|w ws [Hne Hw] Hws IH]; [done|].
  destruct (word_of_line_normal w Hne Hw) as (Hline & Hline').
  destruct (normal_word_facts w Hne Hw) as (_ & _ & _ & Hnl).
  destruct ws as [|w' ws].
  - cbn [join]. rewrite <- (app_nil_r w) at 1.
    rewrite readlines_from_app by done. cbn [readlines_from app].
    destruct w as [|c w]; [done|]. cbn [is_empty].
    by rewrite omap_cons, Hline.
  - change (join [LF] (w :: w' :: ws))
      with (w ++ LF :: join [LF] (w' :: ws)).
    rewrite readlines_from_app by done. cbn [app readlines_from].
    rewrite N.eqb_refl.
    by rewrite omap_cons, Hline', IH.
Qed.

Lemma elem_of_lstrip c s : c ∈ lstrip s -> c ∈ s.
Proof.
  induction s as [|x s IH]; [done|]. cbn [lstrip].
  destruct (isspace x); [|done]. intros ?%IH. by right.
Qed.

Lemma elem_of_strip c s : c ∈ strip s -> c ∈ s.
Proof.
  unfold strip, rstrip. intros Hc.
  apply elem_of_lstrip. apply list_elem_of_In, in_rev, list_elem_of_In.
  apply elem_of_lstrip. by apply list_elem_of_In, in_rev, list_elem_of_In in Hc.
Qed.

Lemma elem_of_readlines_from_bounded c line n :
  forall text cur,
    (List.length text <= n)%nat ->
    line ∈ readlines_from cur text -> c ∈ line ->
    c ∈ cur \/ c ∈ text \/ c = LF.
Proof.
  induction n as [|n IH]; intros text cur Hlen Hline Hc;
    (destruct text as [|x text];
     [cbn [readlines_from] in Hline;
      destruct cur; [by apply elem_of_nil in Hline|];
      apply list_elem_of_singleton in Hline as ->; by left|]);
    [cbn in Hlen; lia|].
  cbn [readlines_from] in Hline. cbn [List.length] in Hlen.
  assert (Hcur : c ∈ cur ++ [LF] -> c ∈ cur \/ c ∈ x :: text \/ c = LF).
  { rewrite elem_of_app, list_elem_of_singleton. tauto. }
  assert (Hrest : forall text',
            (List.length text' <= List.length text)%nat ->
            (forall y, y ∈ text' -> y ∈ x :: text) ->
            line ∈ readlines_from [] text' ->
            c ∈ cur \/ c ∈ x :: text \/ c = LF).
  { intros text' Hlen' Hsub Hl.
    destruct (IH text' [] ltac:(lia) Hl Hc) as [Hn|[Hn|Hn]].
    - by apply elem_of_nil in Hn.
    - right. left. by apply Hsub.
    - by repeat right. }
  destruct (x =? LF)%N.
  { apply elem_of_cons in Hline as [->|Hline]; [by apply Hcur|].
    apply (Hrest text); [done| |done]. intros y Hy. by right. }
  destruct (x =? CR)%N.
  { destruct text as [|x' text'].
    - apply list_elem_of_singleton in Hline as ->. by apply Hcur.
    - destruct (x' =? LF)%N.
      + apply elem_of_cons in Hline as [->|Hline]; [by apply Hcur|].
        apply (Hrest text'); [cbn; lia| |done].
        intros y Hy. right. by right.
      + apply elem_of_cons in Hline as [->|Hline]; [by apply Hcur|].
        apply (Hrest (x' :: text')); [done| |done].
        intros y Hy. by right. }
  destruct (IH text (cur ++ [x]) ltac:(lia) Hline Hc) as [Hn|[Hn|Hn]].
  - apply elem_of_app in Hn as [Hn|Hn]; [by left|].
    apply list_elem_of_singleton in Hn as ->. right. left. left.
  - right. left. by right.
  - by repeat right.
Qed.

Lemma elem_of_readlines c line text :
  line ∈ readlines text -> c ∈ line -> c ∈ text \/ c = LF.
Proof.
  intros Hline Hc.
  destruct (elem_of_readlines_from_bounded c line (List.length text) text []
              ltac:(lia) Hline Hc) as [Hn|Hn]; [|done].
  by apply elem_of_nil in Hn.
Qed.

(** X11. Loading is idempotent: the words of a file, written one per line, load
    as the same list, provided the file holds no capital I with a dot
    above (whose lowercase form holds a combining dot, which the loader
    does not accept). *)
Theorem filtered_words_reload (text : str) :
  CAPITAL_I_WITH_DOT_ABOVE ∉ text ->
  filtered_words (join [LF] (filtered_words text)) = filtered_words text.
Proof.
  intros Hdot. apply filtered_words_of_lines; [apply filtered_words_spec|].
  apply Forall_forall. intros word Hword.
  apply (proj1 (proj1 (proj2 (proj2 (filtered_words_spec text))) word))
    in Hword as (line & Hline & Hw).
  unfold word_of_line in Hw.
  destruct (strip line) as [|c w] eqn:Hstrip; [done|]. cbn [is_empty] in Hw.
  destruct (forallb acceptable (c :: w)) eqn:Hacc; [|done].
  injection Hw as <-. split; [by apply lower_not_nil|].
  unfold lower. apply Forall_concat, Forall_fmap, Forall_forall.
  intros ch Hch. cbn.
  assert (acceptable ch = true) as Hch'.
  { rewrite forallb_forall in Hacc. apply Hacc. by apply list_elem_of_In. }
  apply acceptable_lower_char in Hch' as [[-> _]|[_ (y & -> & Hy)]].
  - exfalso. rewrite <- Hstrip in Hch. apply elem_of_strip in Hch.
    by destruct (elem_of_readlines _ line text Hline Hch).
  - by constructor.
Qed.


(** ** The requests a secret makes to the random source *)

Lemma choice_cases entropy {A} (seq : list A) pos :
  (seq = [] /\ choice entropy seq pos = Raise IndexError)
  \/ (exists x, choice entropy seq pos = Ok (x, S pos)
                /\ seq !! (entropy pos `mod` List.length seq)%nat = Some x).
Proof.
  destruct seq as [|a seq]; [by left|]. right.
  destruct (choice_nonempty entropy (a :: seq) pos) as (x & ? & _ & ?);
    [done|by exists x].
Qed.

Lemma choice_agree entropy1 entropy2 {A} (seq : list A) pos :
  entropy1 pos = entropy2 pos ->
  choice entropy1 seq pos = choice entropy2 seq pos.
Proof.
  intros Heq. unfold choice, bind, randbelow.
  destruct (is_empty seq); [done|]. destruct (len seq <=? 0); [done|].
  by rewrite Heq.
Qed.

Lemma append_choices_Ok entropy n pool pw_chars pos r pos' :
  append_choices entropy n pool pw_chars pos = Ok (r, pos') ->
  pos' = (pos + n)%nat /\ List.length r = (List.length pw_chars + n)%nat.
Proof.
  revert pw_chars pos. induction n as [|n IH]; intros pw_chars pos.
  - cbn [append_choices]. unfold ret. intros [= <- <-]. lia.
  - cbn [append_choices]. unfold bind.
    destruct (choice_cases entropy pool pos) as [[_ ->]|(c & -> & _)];
      [done|].
    intros [-> Hlen]%IH. rewrite length_app in Hlen. cbn in Hlen. lia.
Qed.

Lemma append_choices_agree entropy1 entropy2 n pool pw_chars pos :
  (forall k, (pos <= k < pos + n)%nat -> entropy1 k = entropy2 k) ->
  append_choices entropy1 n pool pw_chars pos
  = append_choices entropy2 n pool pw_chars pos.
Proof.
  revert pw_chars pos. induction n as [|n IH]; intros pw_chars pos Hagree;
    [done|].
  cbn [append_choices]. unfold bind.
  rewrite (choice_agree entropy1 entropy2 pool pos) by (apply Hagree; lia).
  destruct (choice_cases entropy2 pool pos) as [[_ ->]|(c & -> & _)]; [done|].
  apply IH. intros k Hk. apply Hagree. lia.
Qed.

Lemma total_required_cons key n rest :
  total_required ((key, n) :: rest) = Z.max 0 n + total_required rest
  /\ 0 <= total_required rest.
Proof.
  split; [done|]. unfold total_required.
  induction rest as [|[k m] rest IH]; cbn [map fold_right snd]; lia.
Qed.

Lemma place_required_Ok entropy pools required pw_chars pos r pos' :
  place_required entropy pools required pw_chars pos = Ok (r, pos') ->
  pos' = (pos + Z.to_nat (total_required required))%nat
  /\ List.length r
     = (List.length pw_chars + Z.to_nat (total_required required))%nat.
Proof.
  revert pw_chars pos.
  induction required as [|[key n] rest IH]; intros pw_chars pos.
  - cbn [place_required]. unfold ret. intros [= <- <-].
    change (total_required []) with 0. cbn. lia.
  - cbn [place_required]. destruct (_ && _); [done|]. unfold bind.
    destruct (append_choices entropy (Z.to_nat n) _ pw_chars pos)
      as [[r1 p1]|e] eqn:Hrun; [|done].
    apply append_choices_Ok in Hrun as [-> Hlen].
    intros [-> Hlen']%IH.
    destruct (total_required_cons key n rest) as [-> ?]. lia.
Qed.

Lemma place_required_agree entropy1 entropy2 pools required pw_chars pos :
  (forall k, (pos <= k < pos + Z.to_nat (total_required required))%nat ->
             entropy1 k = entropy2 k) ->
  place_required entropy1 pools required pw_chars pos
  = place_required entropy2 pools required pw_chars pos.
Proof.
  revert pw_chars pos.
  induction required as [|[key n] rest IH]; intros pw_chars pos Hagree;
    [done|].
  destruct (total_required_cons key n rest) as [Htotal ?].
  rewrite Htotal in Hagree.
  cbn [place_required]. destruct (_ && _); [done|]. unfold bind.
  rewrite (append_choices_agree entropy1 entropy2)
    by (intros k Hk; apply Hagree; lia).
  destruct (append_choices entropy2 (Z.to_nat n) _ pw_chars pos)
    as [[r1 p1]|e] eqn:Hrun; [|done].
  apply append_choices_Ok in Hrun as [-> _].
  apply IH. intros k Hk. apply Hagree. lia.
Qed.

Lemma shuffle_draws_agree entropy1 entropy2 i pos :
  (forall k, (pos <= k < pos + i)%nat -> entropy1 k = entropy2 k) ->
  shuffle_draws entropy1 i pos = shuffle_draws entropy2 i pos.
Proof.
  revert pos. induction i as [|i IH]; intros pos Hagree; [done|].
  cbn [shuffle_draws]. rewrite Hagree by lia. f_equal.
  apply IH. intros k Hk. apply Hagree. lia.
Qed.

(** Where a computation that always makes [cost] requests stands after [n]
    runs, and which run gave which result. *)
Lemma repeat_M_positions {A} (m : M A) (cost : nat) :
  (forall p a p', m p = Ok (a, p') -> p' = (p + cost)%nat) ->
  forall n pos l pos',
    repeat_M n m pos = Ok (l, pos') ->
    pos' = (pos + n * cost)%nat
    /\ List.length l = n
    /\ forall k a, l !! k = Some a ->
         exists p', m (pos + k * cost)%nat = Ok (a, p').
Proof.
  intros Hcost. induction n as [|n IH]; intros pos l pos'.
  - cbn [repeat_M]. unfold ret. intros [= <- <-].
    split; [lia|]. split; [done|]. intros k a Hk. by destruct k.
  - cbn [repeat_M]. unfold bind, ret.
    destruct (m pos) as [[a p]|e] eqn:Hm; [|done].
    destruct (repeat_M n m p) as [[l' p']|e] eqn:Hrest; [|done].
    intros [= <- <-]. pose proof (Hcost _ _ _ Hm) as ->.
    apply IH in Hrest as (-> & Hlen & Hnth).
    split; [lia|]. split; [cbn; lia|].
    intros [|k] b Hk.
    + injection Hk as <-. exists (pos + cost)%nat.
      by rewrite Nat.mul_0_l, Nat.add_0_r.
    + destruct (Hnth k b Hk) as (p' & Hp'). exists p'.
      rewrite <- Hp'. f_equal. lia.
Qed.

(** X13. A secret of [length] characters costs [2 * length - 1] requests to the
    random source ([length] characters drawn, [length - 1] draws of the
    shuffle), whatever the pools and the requirements; it depends on the
    answers to these requests only; and the secrets of a batch are made
    from successive stretches of the source, the k-th secret being the one
    a single call makes from request [pos + k * cost] on. *)
Theorem secrets_use_fresh_randomness (length : Z) (pools : gmap string str)
    (required : list (string * Z)) (full_charset : str) :
  let cost := (Z.to_nat length + (Z.to_nat length - 1))%nat in
  let secret entropy :=
    generate_with_requirements entropy length pools required full_charset in
  (forall entropy pos pw pos',
     secret entropy pos = Ok (pw, pos') -> pos' = (pos + cost)%nat)
  /\ (forall entropy1 entropy2 pos,
        (forall k, (pos <= k < pos + cost)%nat -> entropy1 k = entropy2 k) ->
        secret entropy1 pos = secret entropy2 pos)
  /\ (forall entropy n pos passwords pos',
        repeat_M n (secret entropy) pos = Ok (passwords, pos') ->
        pos' = (pos + n * cost)%nat
        /\ List.length passwords = n
        /\ forall k pw, passwords !! k = Some pw ->
             exists p', secret entropy (pos + k * cost)%nat = Ok (pw, p')).
Proof.
  intros cost secret.
  assert (Hcost : forall entropy pos pw pos',
            secret entropy pos = Ok (pw, pos') -> pos' = (pos + cost)%nat).
  { intros entropy pos pw pos'. unfold secret, generate_with_requirements.
    destruct (is_empty full_charset); [done|].
    destruct (Z.gtb_spec (total_required required) length) as [|Htotal];
      [done|].
    unfold bind, ret.
    destruct (place_required entropy pools required [] pos)
      as [[r1 p1]|e] eqn:Hplace; [|done].
    apply place_required_Ok in Hplace as [-> Hlen1]. cbn [List.length] in Hlen1.
    destruct (append_choices entropy _ full_charset r1 _)
      as [[r2 p2]|e] eqn:Hfill; [|done].
    apply append_choices_Ok in Hfill as [-> Hlen2].
    rewrite shuffle_fisher_yates. intros [= _ <-].
    destruct (total_required_cons ""%string 0 required) as [_ ?].
    unfold len in *. subst cost. lia. }
  split; [exact Hcost|]. split.
  - intros entropy1 entropy2 pos Hagree.
    unfold secret, generate_with_requirements.
    destruct (is_empty full_charset); [done|].
    destruct (Z.gtb_spec (total_required required) length) as [|Htotal];
      [done|].
    destruct (total_required_cons ""%string 0 required) as [_ ?].
    unfold bind, ret.
    rewrite (place_required_agree entropy1 entropy2)
      by (intros k Hk; apply Hagree; subst cost; lia).
    destruct (place_required entropy2 pools required [] pos)
      as [[r1 p1]|e] eqn:Hplace; [|done].
    apply place_required_Ok in Hplace as [-> Hlen1]. cbn [List.length] in Hlen1.
    rewrite (append_choices_agree entropy1 entropy2)
      by (intros k Hk; apply Hagree; unfold len in *; subst cost; lia).
    destruct (append_choices entropy2 _ full_charset r1 _)
      as [[r2 p2]|e] eqn:Hfill; [|done].
    apply append_choices_Ok in Hfill as [-> Hlen2].
    rewrite !shuffle_fisher_yates.
    rewrite (shuffle_draws_agree entropy1 entropy2); [done|].
    intros k Hk. apply Hagree. unfold len in *. subst cost. lia.
  - intros entropy n pos passwords pos'.
    apply (repeat_M_positions (secret entropy) cost (Hcost entropy)).
Qed.

(** ** The secrets that can come out *)

Lemma reads_cons entropy pos i tape :
  reads entropy pos (i :: tape) ->
  entropy pos = i /\ reads entropy (S pos) tape.
Proof.
  intros Hreads. split.
  - rewrite <- (Nat.add_0_r pos). by apply Hreads.
  - intros k j Hk. rewrite <- (Hreads (S k) j Hk). f_equal. lia.
Qed.

Lemma reads_app entropy pos tape1 tape2 :
  reads entropy pos (tape1 ++ tape2) ->
  reads entropy pos tape1
  /\ reads entropy (pos + List.length tape1)%nat tape2.
Proof.
  intros Hreads. split.
  - intros k i Hk. apply Hreads. by apply lookup_app_l_Some.
  - intros k i Hk. rewrite <- Nat.add_assoc. apply Hreads.
    by rewrite lookup_app_r, Nat.add_comm, Nat.add_sub by lia.
Qed.

Lemma reads_entropy_of_draws pos tape :
  reads (entropy_of_draws pos tape) pos tape.
Proof.
  intros k i Hk. unfold entropy_of_draws.
  rewrite Nat.add_comm, Nat.add_sub.
  by apply nth_lookup_Some.
Qed.

Lemma choice_reads entropy (pool : str) pos i c :
  pool !! i = Some c -> entropy pos = i ->
  choice entropy pool pos = Ok (c, S pos).
Proof.
  intros Hi Hpos.
  destruct (choice_cases entropy pool pos) as [[-> _]|(x & -> & Hx)];
    [done|].
  apply lookup_lt_Some in Hi as Hlt.
  rewrite Hpos, Nat.mod_small in Hx by done. congruence.
Qed.

Lemma append_choices_reaches (pool drawn : str) :
  Forall (fun c => c ∈ pool) drawn ->
  exists tape,
    List.length tape = List.length drawn
    /\ forall entropy pos pw_chars,
         reads entropy pos tape ->
         append_choices entropy (List.length drawn) pool pw_chars pos
         = Ok (pw_chars ++ drawn, (pos + List.length drawn)%nat).
Proof.
  induction 1 as [|c drawn Hc _ (tape & Hlen & IH)].
  - exists []. split; [done|]. intros entropy pos pw_chars _.
    cbn. unfold ret. by rewrite app_nil_r, Nat.add_0_r.
  - apply list_elem_of_lookup in Hc as [i Hi].
    exists (i :: tape). split; [cbn; by rewrite Hlen|].
    intros entropy pos pw_chars [Hpos Hrest]%reads_cons.
    cbn [List.length append_choices]. unfold bind.
    rewrite (choice_reads entropy pool pos i c Hi Hpos).
    rewrite (IH entropy (S pos) (pw_chars ++ [c]) Hrest).
    rewrite <- app_assoc. cbn [app]. do 2 f_equal. lia.
Qed.

Lemma place_required_reaches pools required segs :
  Forall2 (segment_for pools) required segs ->
  ~ Exists (unmet pools) required ->
  exists tape,
    List.length tape = List.length (concat segs)
    /\ forall entropy pos pw_chars,
         reads entropy pos tape ->
         place_required entropy pools required pw_chars pos
         = Ok (pw_chars ++ concat segs, (pos + List.length tape)%nat).
Proof.
  induction 1 as [|[key n] seg required segs [Hlen Hseg] _ IH]; intros Hmet.
  - exists []. split; [done|]. intros entropy pos pw_chars _.
    cbn. unfold ret. by rewrite app_nil_r, Nat.add_0_r.
  - cbn [fst snd] in *.
    destruct IH as (tape2 & Hlen2 & IH).
    { intros Hex. apply Hmet. by right. }
    destruct (append_choices_reaches (pool_of pools key) seg Hseg)
      as (tape1 & Hlen1 & Hdraw).
    exists (tape1 ++ tape2). split.
    { cbn [concat]. rewrite !length_app. lia. }
    intros entropy pos pw_chars [Hr1 Hr2]%reads_app.
    cbn [place_required].
    assert (negb (n =? 0) && is_empty (pool_of pools key) = false) as ->.
    { destruct (Z.eqb_spec n 0); [done|].
      destruct (pool_of pools key) eqn:Hpool; [|done].
      destruct Hmet. left. by split. }
    unfold bind. rewrite <- Hlen, (Hdraw entropy pos pw_chars Hr1).
    rewrite <- Hlen1. rewrite (IH entropy _ (pw_chars ++ seg) Hr2).
    cbn [concat]. rewrite <- app_assoc, length_app.
    do 2 f_equal. lia.
Qed.

Lemma shuffle_draws_reads entropy i pos js :
  draws_in_range i js -> reads entropy pos js ->
  shuffle_draws entropy i pos = js.
Proof.
  revert pos js. induction i as [|i IH]; intros pos [|j js]; try done.
  intros [Hj Hjs] [Hpos Hrest]%reads_cons. cbn [shuffle_draws].
  rewrite Hpos, Nat.mod_small by lia. f_equal. by apply IH.
Qed.

(** Every arrangement of characters the sampler may draw can come out:
    whatever characters are taken from the pools for the requirements and
    from the full charset for the rest, and in whatever order they are
    arranged, some answers of the random source make the sampler return
    that secret. *)
Lemma generate_with_requirements_reaches length pools required full_charset
    segs filler pw pos :
  full_charset <> [] ->
  total_required required <= length ->
  ~ Exists (unmet pools) required ->
  Forall2 (segment_for pools) required segs ->
  List.length filler = Z.to_nat (length - total_required required) ->
  Forall (fun c => c ∈ full_charset) filler ->
  pw ≡ₚ concat segs ++ filler ->
  exists entropy pos',
    generate_with_requirements entropy length pools required full_charset pos
    = Ok (pw, pos').
Proof.
  intros Hfull Htotal Hmet Hsegs Hflen Hfiller Hperm.
  destruct (place_required_reaches pools required segs Hsegs Hmet)
    as (tape1 & Hlen1 & Hplace).
  destruct (append_choices_reaches full_charset filler Hfiller)
    as (tape2 & Hlen2 & Hfill).
  destruct (fisher_yates_reaches (concat segs ++ filler) pw Hperm)
    as (js & Hjs & Hshuffle).
  set (entropy := entropy_of_draws pos (tape1 ++ tape2 ++ js)).
  pose proof (reads_entropy_of_draws pos (tape1 ++ tape2 ++ js)) as Hreads.
  fold entropy in Hreads.
  apply reads_app in Hreads as [Hr1 Hreads].
  apply reads_app in Hreads as [Hr2 Hr3].
  exists entropy. eexists.
  unfold generate_with_requirements.
  destruct full_charset as [|c0 full]; [done|]. cbn [is_empty].
  destruct (Z.gtb_spec (total_required required) length) as [|_]; [lia|].
  unfold bind, ret. rewrite (Hplace entropy pos [] Hr1). cbn [app].
  pose proof (length_concat_segments pools required segs Hsegs) as Hlen.
  rewrite Hlen, <- Hflen, (Hfill entropy _ (concat segs) Hr2).
  rewrite shuffle_fisher_yates.
  rewrite (shuffle_draws_reads entropy _ _ js Hjs).
  - by rewrite Hshuffle.
  - rewrite <- Hlen2. exact Hr3.
Qed.

Lemma count_in_nil_of_apart (pool pool' seg : str) :
  Forall (fun c => c ∈ pool) seg ->
  (forall c, c ∈ pool -> c ∉ pool') ->
  count_in pool' seg = O.
Proof.
  intros Hseg Hapart. unfold count_in. apply length_filter_False.
  intros c Hc. apply Hapart. by apply (proj1 (Forall_forall _ _) Hseg).
Qed.

(** A string with enough characters of each class, the pools not
    overlapping, splits into one segment per class and a rest. *)
Lemma split_into_segments pools required :
  pools_apart pools required ->
  forall pw,
    Forall (fun kn =>
              (Z.to_nat (snd kn) <= count_in (pool_of pools (fst kn)) pw)%nat)
      required ->
    exists segs rest,
      Forall2 (segment_for pools) required segs
      /\ pw ≡ₚ concat segs ++ rest.
Proof.
  induction required as [|[key n] required IH]; intros Hapart pw Hcounts.
  - exists [], pw. by split.
  - destruct Hapart as [Hhere Hapart].
    apply Forall_cons in Hcounts as [Hn Hcounts]. cbn [fst snd] in *.
    set (pool := pool_of pools key) in *.
    set (inside := filter (fun c => c ∈ pool) pw).
    set (outside := filter (fun c => ~ c ∈ pool) pw).
    assert (Hsplit : pw ≡ₚ inside ++ outside)
      by (symmetry; apply filter_app_complement).
    set (seg := take (Z.to_nat n) inside).
    set (pw' := drop (Z.to_nat n) inside ++ outside).
    assert (Hpw : pw ≡ₚ seg ++ pw').
    { subst seg pw'. by rewrite app_assoc, take_drop. }
    assert (Hseg : Forall (fun c => c ∈ pool) seg).
    { apply Forall_take, Forall_forall.
      by intros c [? _]%list_elem_of_filter. }
    destruct (IH Hapart pw') as (segs & rest & Hsegs & Hrest).
    { apply Forall_forall. intros [key' n'] Hin. cbn [fst snd].
      pose proof (proj1 (Forall_forall _ _) Hcounts _ Hin) as Hle.
      pose proof (proj1 (Forall_forall _ _) Hhere _ Hin) as Hap.
      cbn [fst snd] in Hle, Hap.
      rewrite (count_in_perm _ _ _ Hpw), count_in_app in Hle.
      rewrite (count_in_nil_of_apart pool _ seg Hseg Hap) in Hle. lia. }
    exists (seg :: segs), rest. split.
    + constructor; [|done]. split; [|done]. cbn [snd].
      subst seg. rewrite length_take. unfold count_in in Hn.
      fold inside in Hn. lia.
    + cbn [concat]. by rewrite <- app_assoc, <- Hrest.
Qed.

(** ** The shuffle inside the sampler *)

(** The sampler, statement by statement: the two checks, the characters
    drawn, and the shuffle of these characters by the draws that the
    random source gives next. *)
Lemma generate_with_requirements_steps entropy length pools required
    full_charset pos :
  generate_with_requirements entropy length pools required full_charset pos
  = if is_empty full_charset then Raise (ValueError Character_set_is_empty)
    else if total_required required >? length
    then Raise (ValueError (Required_characters_exceed_length
                              (total_required required) length))
    else
      match draw_characters entropy length pools required full_charset pos
      with
      | Ok (drawn, pos1) =>
          Ok (fisher_yates
                (shuffle_draws entropy (List.length drawn - 1) pos1) drawn,
              (pos1 + (List.length drawn - 1))%nat)
      | Raise e => Raise e
      end.
Proof.
  unfold generate_with_requirements, draw_characters.
  destruct (is_empty full_charset); [done|].
  destruct (_ >? _); [done|]. unfold bind, ret.
  destruct (place_required entropy pools required [] pos)
    as [[placed pos']|e]; [|done].
  destruct (append_choices entropy _ full_charset placed pos')
    as [[drawn pos1]|e]; [|done].
  by rewrite shuffle_fisher_yates.
Qed.

(** The characters drawn depend on the answers of the random source to
    the requests made for them only. *)
Lemma draw_characters_agree entropy1 entropy2 length pools required
    full_charset pos drawn pos1 :
  draw_characters entropy1 length pools required full_charset pos
  = Ok (drawn, pos1) ->
  (forall k, (pos <= k < pos1)%nat -> entropy1 k = entropy2 k) ->
  draw_characters entropy2 length pools required full_charset pos
  = Ok (drawn, pos1).
Proof.
  unfold draw_characters, bind. intros Hrun Hagree.
  destruct (place_required entropy1 pools required [] pos)
    as [[placed pos']|e] eqn:Hplace; [|done].
  destruct (place_required_Ok _ _ _ _ _ _ _ Hplace) as [Hpos' _].
  destruct (append_choices_Ok _ _ _ _ _ _ _ Hrun) as [Hpos1 _].
  rewrite <- (place_required_agree entropy1 entropy2), Hplace
    by (intros k Hk; apply Hagree; lia).
  rewrite <- (append_choices_agree entropy1 entropy2)
    by (intros k Hk; apply Hagree; lia).
  exact Hrun.
Qed.

(** C2, amended.  The shuffle that ends [generate_with_requirements] is the
    Fisher-Yates procedure of the specification, run on the characters the
    call has drawn: for the index from the last one down to 1, the next
    answer of the random source gives a position in [0, index] and the two
    elements are swapped.  The draws may be any vector in range, whatever
    characters were drawn.  The secret is the arrangement of the drawn
    characters by the shuffled positions, and every permutation of the
    positions comes from exactly one of the [n!] vectors of draws.  Every
    arrangement of the drawn characters comes from the same number of
    vectors, whatever order the characters were placed in: the product of
    the factorials of the multiplicities of the characters, which is 1
    when no character is drawn twice.  So, the vectors of draws being
    equally likely, all arrangements of the drawn characters have the same
    chance. *)
Theorem generate_with_requirements_shuffles
    (entropy : nat -> nat) (pos : nat) (length : Z)
    (pools : gmap string str) (required : list (string * Z))
    (full_charset drawn : str) (pos1 : nat) :
  full_charset <> [] ->
  total_required required <= length ->
  draw_characters entropy length pools required full_charset pos
  = Ok (drawn, pos1) ->
  let last := (List.length drawn - 1)%nat in
  generate_with_requirements entropy length pools required full_charset pos
  = Ok (fisher_yates (shuffle_draws entropy last pos1) drawn,
        (pos1 + last)%nat)
  /\ draws_in_range last (shuffle_draws entropy last pos1)
  /\ (forall js, draws_in_range last js ->
        exists entropy',
          draw_characters entropy' length pools required full_charset pos
          = Ok (drawn, pos1)
          /\ shuffle_draws entropy' last pos1 = js
          /\ generate_with_requirements entropy' length pools required
               full_charset pos
             = Ok (fisher_yates js drawn, (pos1 + last)%nat))
  /\ (forall js,
        fisher_yates js drawn
        = arrange 0%N (fisher_yates js (positions drawn)) drawn)
  /\ (forall sigma, sigma ≡ₚ positions drawn ->
        exists js,
          (draws_in_range last js
           /\ fisher_yates js (positions drawn) = sigma)
          /\ forall js', draws_in_range last js' ->
               fisher_yates js' (positions drawn) = sigma -> js' = js)
  /\ (forall js, js ∈ all_draws last <-> draws_in_range last js)
  /\ NoDup (all_draws last)
  /\ List.length (all_draws last) = fact (List.length drawn)
  /\ (forall placed p, placed ≡ₚ drawn -> p ≡ₚ drawn ->
        ways placed p = repeats drawn
        /\ chance placed p
           = Qmake (Z.of_nat (repeats drawn))
               (Pos.of_nat (fact (List.length drawn))))
  /\ (NoDup drawn -> repeats drawn = 1%nat).
Proof.
  intros Hfull Htotal Hdraw last.
  assert (Hsteps : forall entropy',
            draw_characters entropy' length pools required full_charset pos
            = Ok (drawn, pos1) ->
            generate_with_requirements entropy' length pools required
              full_charset pos
            = Ok (fisher_yates (shuffle_draws entropy' last pos1) drawn,
                  (pos1 + last)%nat)).
  { intros entropy' Hd. rewrite generate_with_requirements_steps, Hd.
    destruct full_charset; [done|]. cbn [is_empty].
    by destruct (Z.gtb_spec (total_required required) length); [lia|]. }
  split; [by apply Hsteps|]. split; [apply shuffle_draws_in_range|].
  split.
  { intros js Hjs.
    set (entropy' := fun k =>
           if (k <? pos1)%nat then entropy k else nth (k - pos1) js O).
    assert (Hd : draw_characters entropy' length pools required full_charset
                   pos = Ok (drawn, pos1)).
    { apply (draw_characters_agree entropy); [done|]. intros k Hk.
      subst entropy'. cbn beta. by destruct (Nat.ltb_spec k pos1); [|lia]. }
    assert (Hread : shuffle_draws entropy' last pos1 = js).
    { apply shuffle_draws_reads; [done|]. intros k i Hk.
      subst entropy'. cbn beta.
      destruct (Nat.ltb_spec (pos1 + k) pos1); [lia|].
      replace (pos1 + k - pos1)%nat with k by lia.
      by apply nth_lookup_Some. }
    exists entropy'. split; [done|]. split; [done|].
    rewrite <- Hread. by apply Hsteps. }
  split; [intros js; apply fisher_yates_arrange|].
  split.
  { intros sigma Hsigma.
    destruct (fisher_yates_unique_draws (positions drawn) sigma)
      as (js & Hjs & Huniq); [apply NoDup_seq|done|].
    unfold positions in *. rewrite length_seq in *. by exists js. }
  split; [intros js; apply elem_of_all_draws|].
  split; [apply NoDup_all_draws|].
  split.
  { rewrite length_all_draws. subst last.
    destruct drawn as [|c rest]; [done|]. cbn [List.length].
    by rewrite Nat.sub_succ, Nat.sub_0_r. }
  split; [|apply repeats_NoDup].
  intros placed p Hplaced Hp.
  assert (Hways : ways placed p = repeats drawn).
  { rewrite <- (repeats_perm placed drawn Hplaced).
    apply ways_repeats. by rewrite Hplaced. }
  split; [done|]. unfold chance.
  by rewrite Hways, (Permutation_length Hplaced).
Qed.

(** C2, as it is stated, fails when a character is drawn twice.  Three
    characters over "ab": both random sources below draw "aab", their
    shuffle draws differ, and both calls return "aab".  Two of the six
    vectors of draws give each of the three arrangements of "aab". *)
Lemma two_vectors_of_draws_give_one_secret :
  let run := fun entropy =>
    generate_with_requirements entropy 3 ∅ [] (lit "ab") 0%nat in
  let drawn := fun entropy => draw_characters entropy 3 ∅ [] (lit "ab") 0%nat in
  let entropy1 := entropy_of_draws 0 [0; 0; 1; 2; 0]%nat in
  let entropy2 := entropy_of_draws 0 [0; 0; 1; 2; 1]%nat in
  drawn entropy1 = Ok (lit "aab", 3%nat)
  /\ drawn entropy2 = Ok (lit "aab", 3%nat)
  /\ shuffle_draws entropy1 2 3 = [2; 0]%nat
  /\ shuffle_draws entropy2 2 3 = [2; 1]%nat
  /\ run entropy1 = Ok (lit "aab", 5%nat)
  /\ run entropy2 = Ok (lit "aab", 5%nat)
  /\ ways (lit "aab") (lit "aab") = 2%nat
  /\ ways (lit "aab") (lit "aba") = 2%nat
  /\ ways (lit "aab") (lit "baa") = 2%nat.
Proof. by vm_compute. Qed.

(** X14. The secrets the sampler can return, when the counts are not negative
    and the pools are parts of the full charset that do not overlap: the
    strings of [length] characters of the full charset that hold, for each
    class, at least the required number of characters of its pool.  Each of
    them comes out for some answers of the random source, and nothing else
    does. *)
Theorem generate_with_requirements_output_space
    (length : Z) (pools : gmap string str) (required : list (string * Z))
    (full_charset pw : str) (pos : nat) :
  full_charset <> [] ->
  (forall key pool, pools !! key = Some pool -> pool ⊆ full_charset) ->
  Forall (fun kn => 0 <= snd kn) required ->
  pools_apart pools required ->
  (exists entropy pos',
      generate_with_requirements entropy length pools required full_charset
        pos = Ok (pw, pos'))
  <-> len pw = length
      /\ Forall (fun c => c ∈ full_charset) pw
      /\ Forall (fun kn =>
                   snd kn
                   <= Z.of_nat (count_in (pool_of pools (fst kn)) pw))
           required.
Proof.
  intros Hfull Hsub Hnonneg Hapart. split.
  - intros (entropy & pos' & Hrun).
    apply generate_with_requirements_Ok_facts in Hrun
      as (_ & Hlen & Hin & Hcounts).
    split; [done|]. split.
    + apply Forall_forall. by apply Hin.
    + apply Forall_forall. intros [key n] Hkn. cbn [fst snd].
      specialize (Hcounts key n Hkn). lia.
  - intros (Hlen & Hchars & Hcounts).
    destruct (split_into_segments pools required Hapart pw)
      as (segs & rest & Hsegs & Hperm).
    { eapply Forall_impl; [exact Hcounts|]. intros [key n]. cbn. lia. }
    pose proof (length_concat_segments pools required segs Hsegs) as Hseglen.
    pose proof (Permutation_length Hperm) as Hpermlen.
    rewrite length_app in Hpermlen. unfold len in *.
    apply (generate_with_requirements_reaches length pools required
             full_charset segs rest pw pos); try done.
    + lia.
    + intros Hex. apply Exists_exists in Hex as ([key n] & Hkn & Hn & Hpool).
      cbn [fst snd] in *.
      pose proof (proj1 (Forall_forall _ _) Hnonneg _ Hkn) as H0.
      pose proof (proj1 (Forall_forall _ _) Hcounts _ Hkn) as Hc.
      cbn [fst snd] in *. rewrite Hpool in Hc.
      unfold count_in in Hc. rewrite length_filter_False in Hc; [lia|].
      intros c _ Hc'. by apply elem_of_nil in Hc'.
    + lia.
    + apply Forall_forall. intros c Hc.
      apply (proj1 (Forall_forall _ _) Hchars).
      rewrite Hperm. apply elem_of_app. by right.
Qed.

(** ** The output box: what Copy and Save give back *)

Lemma splitlines_from_app cur s rest :
  Forall (fun c => is_line_boundary c = false) s ->
  splitlines_from cur (s ++ rest) = splitlines_from (cur ++ s) rest.
Proof.
  intros Hs. revert cur. induction Hs as [|c s Hc _ IH]; intros cur.
  - by rewrite app_nil_r.
  - cbn [app splitlines_from]. rewrite Hc, IH. by rewrite <- app_assoc.
Qed.

Lemma join_cons_cons sep (w w' : str) ws :
  join sep (w :: w' :: ws) = w ++ sep ++ join sep (w' :: ws).
Proof. done. Qed.

Lemma head_join sep (w : str) ws :
  w <> [] -> head (join sep (w :: ws)) = head w.
Proof.
  intros Hw. destruct ws as [|w' ws]; [done|].
  rewrite join_cons_cons. by destruct w.
Qed.

Lemma last_join sep (ws : list str) w :
  w <> [] -> last (join sep (ws ++ [w])) = last w.
Proof.
  intros Hw. induction ws as [|w0 ws IH]; [done|].
  destruct (ws ++ [w]) as [|w1 ws'] eqn:Hws; [by destruct ws|].
  cbn [app]. rewrite Hws, join_cons_cons, !last_app, IH.
  destruct (exists_last (l := w)) as (w2 & c & ->); [done|].
  by rewrite last_snoc.
Qed.

Lemma clean_line_strip line : clean_line line -> strip line = line.
Proof. intros (_ & Hhead & Hlast & _). by apply strip_clean. Qed.

Lemma splitlines_join (lines : list str) :
  Forall clean_line lines -> splitlines (join [LF] lines) = lines.
Proof.
  unfold splitlines.
  induction 1 as [|line lines (Hne & _ & _ & Hnb) Hlines IH]; [done|].
  destruct lines as [|line' lines].
  - cbn [join]. rewrite <- (app_nil_r line) at 1.
    rewrite splitlines_from_app by done. cbn [app splitlines_from].
    by destruct line.
  - rewrite join_cons_cons, splitlines_from_app by done.
    cbn [app splitlines_from]. change (is_line_boundary LF) with true.
    cbv iota. f_equal.
    apply Forall_cons in Hlines as [(Hne' & _) _].
    destruct (join [LF] (line' :: lines)) as [|c rest] eqn:Hjoin.
    + exfalso. pose proof (head_join [LF] line' lines Hne') as Hhead.
      rewrite Hjoin in Hhead. by destruct line'.
    + by change (LF =? CR)%N with false.
Qed.

Lemma strip_join (lines : list str) :
  lines <> [] -> Forall clean_line lines ->
  strip (join [LF] lines) = join [LF] lines
  /\ join [LF] lines <> [].
Proof.
  intros Hne Hlines.
  assert (Hnil : join [LF] lines <> []).
  { destruct lines as [|line lines]; [done|].
    apply Forall_cons in Hlines as [(Hl & _) _].
    intros Hjoin. pose proof (head_join [LF] line lines Hl) as Hhead.
    rewrite Hjoin in Hhead. by destruct line. }
  split; [|done]. apply strip_clean.
  - destruct lines as [|line lines]; [done|].
    apply Forall_cons in Hlines as [(Hl & Hhead & _) _].
    rewrite head_join by done. exact Hhead.
  - destruct (exists_last (l := lines)) as (lines' & line & ->); [done|].
    apply Forall_app in Hlines as [_ Hline].
    apply Forall_cons in Hline as [(Hl & _ & Hlast & _) _].
    rewrite last_join by done. exact Hlast.
Qed.

Lemma filter_all {B} (P : B -> Prop) `{forall b, Decision (P b)} (l : list B) :
  Forall P l -> filter P l = l.
Proof.
  induction 1 as [|b l Hb _ IH]; [done|].
  by rewrite filter_cons, decide_True, IH.
Qed.

(** The output box gives back a text that holds none of the characters it
    changes. *)
Lemma plain_text_unchanged text :
  Forall (fun c => box_changes c = false) text -> plain_text text = text.
Proof.
  induction 1 as [|c text Hc _ IH]; [done|]. cbn [plain_text].
  unfold box_changes in Hc.
  apply orb_false_iff in Hc as [[[[[-> ->]%orb_false_iff
    ->]%orb_false_iff ->]%orb_false_iff ->]%orb_false_iff ->].
  cbn [orb]. by rewrite IH.
Qed.

Lemma Forall_join (P : N -> Prop) sep (words : list str) :
  Forall P sep -> Forall (Forall P) words -> Forall P (join sep words).
Proof.
  intros Hsep. induction 1 as [|w ws Hw Hws IH]; [done|].
  destruct ws as [|w' ws]; [done|].
  rewrite join_cons_cons. by rewrite !Forall_app.
Qed.

(** What the three actions make of an output box that holds clean lines. *)
Lemma output_box_gives_back w (lines : list str) :
  lines <> [] -> Forall clean_line lines ->
  Forall (Forall (fun c => box_changes c = false)) lines ->
  let w' := setPlainText w (join [LF] lines) in
  copy_first w' = head lines
  /\ copy_all w' = Some (join [LF] lines)
  /\ forall path selected_filter, path <> [] ->
       exists path' file,
         on_save w' (path, selected_filter) true
         = ([Saved (len lines) path'], Some (path', file))
         /\ (file = Csv_file ([lit "password"]
                              :: map (fun pw => [pw]) lines)
             \/ file = Text_file (concat (map (fun pw => pw ++ [LF]) lines))).
Proof.
  intros Hne Hlines Hkept w'.
  destruct (strip_join lines Hne Hlines) as [Hstrip Hnil].
  pose proof (splitlines_join lines Hlines) as Hsplit.
  assert (Hout : out w' = join [LF] lines).
  { subst w'. cbn [out setPlainText]. apply plain_text_unchanged.
    apply Forall_join; [by repeat constructor|done]. }
  split; [|split].
  - unfold copy_first. rewrite Hout, Hsplit.
    destruct lines as [|line lines]; [done|].
    apply Forall_cons in Hlines as [Hline _].
    rewrite (clean_line_strip line Hline).
    destruct Hline as (Hl & _). by destruct line.
  - unfold copy_all. rewrite Hout, Hstrip.
    by destruct (join [LF] lines).
  - intros path selected_filter Hpath.
    unfold on_save. rewrite Hout, Hstrip.
    assert (is_empty (join [LF] lines) = false) as ->
      by (by destruct (join [LF] lines)).
    rewrite Hsplit.
    rewrite (filter_all (fun line => strip line <> [])).
    2:{ eapply Forall_impl; [exact Hlines|]. intros line Hline.
        rewrite (clean_line_strip line Hline). by destruct Hline. }
    destruct path as [|p path]; [done|]. cbn [is_empty negb].
    destruct (_ || _).
    + eexists _, _. split; [reflexivity|]. by left.
    + eexists _, _. split; [reflexivity|]. by right.
Qed.

Lemma line_boundary_is_space c :
  isspace c = false -> is_line_boundary c = false.
Proof.
  unfold isspace, is_line_boundary. intros Hspace.
  destruct (N.leb_spec 0x0A c), (N.leb_spec c 0x0D),
    (N.leb_spec 0x1C c), (N.leb_spec c 0x1E), (N.eqb_spec c 0x85),
    (N.eqb_spec c 0x2028), (N.eqb_spec c 0x2029);
    cbn [andb orb]; try reflexivity; exfalso;
    revert Hspace; settle_comparisons; cbn [andb orb];
    rewrite ?orb_true_r; discriminate.
Qed.

Lemma upper_char_not_space c :
  isspace c = false -> Forall (fun c' => isspace c' = false) (upper_char c).
Proof.
  intros Hc. unfold upper_char.
  destruct (is_ascii_lower c) eqn:Hlow; [|by constructor].
  unfold is_ascii_lower in Hlow. apply andb_prop in Hlow as [H1 H2].
  apply N.leb_le in H1, H2. constructor; [|done].
  unfold isspace. by settle_comparisons.
Qed.

Lemma clean_line_join sep (words : list str) :
  words <> [] ->
  Forall (fun w => w <> [] /\ Forall (fun c => isspace c = false) w) words ->
  Forall (fun c => is_line_boundary c = false) sep ->
  clean_line (join sep words).
Proof.
  intros Hne Hwords Hsep.
  assert (Hin : Forall (fun c => is_line_boundary c = false)
                  (join sep words)).
  { clear Hne. induction Hwords as [|w ws [_ Hw] Hws IH]; [done|].
    assert (Forall (fun c => is_line_boundary c = false) w) as Hw'.
    { eapply Forall_impl; [exact Hw|]. apply line_boundary_is_space. }
    destruct ws as [|w' ws]; [done|].
    rewrite join_cons_cons. by rewrite !Forall_app. }
  destruct words as [|w ws]; [done|].
  pose proof Hwords as Hall.
  apply Forall_cons in Hwords as [[Hw Hwsp] _].
  split; [|split; [|split; [|done]]].
  - intros Hnil. pose proof (head_join sep w ws Hw) as Hhead.
    rewrite Hnil in Hhead. by destruct w.
  - rewrite head_join by done. intros c Hc.
    apply (proj1 (Forall_forall _ _) Hwsp).
    destruct w; [done|]. injection Hc as ->. left.
  - destruct (exists_last (l := w :: ws)) as (ws' & w' & Heq); [done|].
    rewrite Heq in *. apply Forall_app in Hall as [_ Hlast].
    apply Forall_cons in Hlast as [[Hw' Hsp'] _].
    rewrite last_join by done. intros c Hc.
    apply (proj1 (Forall_forall _ _) Hsp'). by apply last_Some_elem_of.
Qed.

Lemma characters_of_window_not_space w :
  (chk_symbols w = true ->
   Forall (fun c => isspace c = false) (symbols_of (txt_custom_symbols w))) ->
  forall ch, ch ∈ charset_of_window w -> isspace ch = false.
Proof.
  intros Hsym ch Hch.
  apply elem_of_build_charset in Hch as [Hcand _].
  assert (Hfixed : Forall (fun c => isspace c = false)
                     (ascii_lowercase ++ ascii_uppercase ++ digits))
    by (apply (bool_decide_unpack _); by vm_compute).
  rewrite !Forall_app in Hfixed. destruct Hfixed as (Hl & Hu & Hd).
  apply elem_of_candidates in Hcand as [[_ ?]|[[_ ?]|[[_ ?]|[Hs ?]]]].
  - by apply (proj1 (Forall_forall _ _) Hl).
  - by apply (proj1 (Forall_forall _ _) Hu).
  - by apply (proj1 (Forall_forall _ _) Hd).
  - by apply (proj1 (Forall_forall _ _) (Hsym Hs)).
Qed.

Lemma characters_of_window_kept w :
  (chk_symbols w = true ->
   Forall (fun c => box_changes c = false)
     (symbols_of (txt_custom_symbols w))) ->
  forall ch, ch ∈ charset_of_window w -> box_changes ch = false.
Proof.
  intros Hsym ch Hch.
  apply elem_of_build_charset in Hch as [Hcand _].
  assert (Hfixed : Forall (fun c => box_changes c = false)
                     (ascii_lowercase ++ ascii_uppercase ++ digits))
    by (apply (bool_decide_unpack _); by vm_compute).
  rewrite !Forall_app in Hfixed. destruct Hfixed as (Hl & Hu & Hd).
  apply elem_of_candidates in Hcand as [[_ ?]|[[_ ?]|[[_ ?]|[Hs ?]]]].
  - by apply (proj1 (Forall_forall _ _) Hl).
  - by apply (proj1 (Forall_forall _ _) Hu).
  - by apply (proj1 (Forall_forall _ _) Hd).
  - by apply (proj1 (Forall_forall _ _) (Hsym Hs)).
Qed.

Lemma capitalize_kept word :
  Forall (fun c => vocabulary_char c = true) word ->
  Forall (fun c => box_changes c = false) (capitalize word).
Proof.
  intros Hword. rewrite capitalize_vocabulary_word by done.
  destruct Hword as [|c rest Hc Hrest]; [done|]. cbn [uppercase_first].
  apply Forall_app. split.
  - apply upper_char_vocabulary in Hc as [_ Hup].
    eapply Forall_impl; [exact Hup|]. by intros c' [_ ?].
  - eapply Forall_impl; [exact Hrest|].
    by intros c' (_ & _ & _ & ?)%vocabulary_char_facts.
Qed.

Lemma capitalize_clean word :
  word <> [] /\ lower word = word
  /\ Forall (fun ch => isspace ch = false) word ->
  capitalize word <> []
  /\ Forall (fun ch => isspace ch = false) (capitalize word).
Proof.
  intros (Hne & Hlow & Hsp). rewrite capitalize_lowercase_word by done.
  destruct word as [|c rest]; [done|]. cbn [uppercase_first].
  apply Forall_cons in Hsp as [Hc Hrest].
  pose proof (upper_char_not_space c Hc) as Hup.
  split; [|by apply Forall_app].
  unfold upper_char. by destruct (is_ascii_lower c).
Qed.

(** X15. What Generate shows, Copy and Save give back unchanged.  In character
    mode this holds when no symbol in use is white space or a character
    the output box changes; in passphrase mode, when the separator holds
    no line boundary and no character the box changes (the word list being
    as the loader leaves it).  Then "Copy first" puts the first secret on
    the clipboard, "Copy all" the whole text, and "Save" writes exactly
    the secrets generated, one per row or per line. *)
Theorem generated_output_round_trip
    (entropy : nat -> nat) (w w' : window) (pos : nat) :
  on_generate entropy w pos = (w', []) ->
  0 < count_of_window w ->
  (preset_combo w <> 4 /\ 0 < spin_length w
   /\ (chk_symbols w = true ->
       Forall (fun c => isspace c = false /\ box_changes c = false)
         (symbols_of (txt_custom_symbols w))))
  \/ (preset_combo w = 4 /\ 0 < spin_words w
      /\ vocabulary_ok (wordlist w) /\ is_vocabulary (wordlist w)
      /\ Forall (fun c => is_line_boundary c = false /\ box_changes c = false)
           (txt_separator w)) ->
  exists passwords,
    w' = setPlainText w (join [LF] passwords)
    /\ out w' = join [LF] passwords
    /\ List.length passwords = Z.to_nat (count_of_window w)
    /\ copy_first w' = head passwords
    /\ copy_all w' = Some (join [LF] passwords)
    /\ forall path selected_filter, path <> [] ->
         exists path' file,
           on_save w' (path, selected_filter) true
           = ([Saved (len passwords) path'], Some (path', file))
           /\ (file = Csv_file ([lit "password"]
                                :: map (fun pw => [pw]) passwords)
               \/ file = Text_file
                           (concat (map (fun pw => pw ++ [LF]) passwords))).
Proof.
  intros Hgen Hcount Hmode.
  assert (Hclean : exists passwords,
            w' = setPlainText w (join [LF] passwords)
            /\ List.length passwords = Z.to_nat (count_of_window w)
            /\ Forall (fun pw =>
                 clean_line pw
                 /\ Forall (fun c => box_changes c = false) pw) passwords).
  { destruct Hmode as [(Hmode & Hlength & Hsym)
                      |(Hmode & Hwords & Hvoc & Hchars & Hsep)].
    - unfold on_generate in Hgen. fold (count_of_window w) in Hgen.
      fold (charset_of_window w) in Hgen.
      destruct (Z.eqb_spec (preset_combo w) 4) as [|_]; [done|].
      destruct (negb _); [done|]. destruct (is_empty _); [done|].
      destruct (_ >? _); [done|].
      pose proof (repeat_M_inv
        (generate_with_requirements entropy (spin_length w)
           (pools_of_window w (charset_of_window w)) (req_of_window w)
           (charset_of_window w))
        (fun pw => clean_line pw
                   /\ Forall (fun c => box_changes c = false) pw)
        (fun _ => True) (Z.to_nat (count_of_window w)) pos)
        as Hinv.
      destruct (repeat_M _ _ pos) as [[passwords pos']|e]; [|done].
      injection Hgen as <-. exists passwords. split; [done|].
      apply Hinv; [|done].
      intros p pw p' Hrun.
      apply generate_with_requirements_Ok_facts in Hrun
        as (_ & Hlen & Hin & _).
      assert (Hsp : Forall (fun c => isspace c = false) pw).
      { apply Forall_forall. intros c Hc.
        apply (characters_of_window_not_space w).
        - intros Hs. eapply Forall_impl; [exact (Hsym Hs)|]. by intros ? [? _].
        - apply Hin; [apply pools_of_window_subseteq|done]. }
      split.
      + change (clean_line (join [] [pw])).
        apply clean_line_join; [done| |done].
        constructor; [|done]. split; [|done].
        intros ->. unfold len in Hlen. cbn in Hlen. lia.
      + apply Forall_forall. intros c Hc.
        apply (characters_of_window_kept w).
        * intros Hs. eapply Forall_impl; [exact (Hsym Hs)|]. by intros ? [_ ?].
        * apply Hin; [apply pools_of_window_subseteq|done].
    - destruct Hvoc as (Hne & _ & Hall).
      unfold on_generate in Hgen. fold (count_of_window w) in Hgen.
      rewrite Hmode in Hgen. cbn [Z.eqb Pos.eqb] in Hgen.
      destruct (wordlist w) as [|word words] eqn:Hw; [done|].
      cbn [is_empty] in Hgen.
      set (sep := if negb _ then _ else _) in Hgen.
      assert (Hsep' : Forall (fun c => is_line_boundary c = false
                                       /\ box_changes c = false) sep).
      { subst sep. destruct (txt_separator w); [|done].
        cbn [is_empty negb]. apply (bool_decide_unpack _). by vm_compute. }
      pose proof (repeat_M_inv
        (generate_passphrase entropy (spin_words w) (word :: words) sep
           (chk_capitalize w))
        (fun pw => clean_line pw
                   /\ Forall (fun c => box_changes c = false) pw)
        (fun _ => True) (Z.to_nat (count_of_window w)) pos)
        as Hinv.
      destruct (repeat_M _ _ pos) as [[passwords pos']|e]; [|done].
      injection Hgen as <-. exists passwords. split; [done|].
      apply Hinv; [|done].
      intros p pw p'. rewrite generate_passphrase_returns by done.
      intros [= <- _]. cbv zeta.
      pose proof (drawn_words_length entropy (word :: words)
                    (Z.to_nat (spin_words w)) p) as Hlen.
      pose proof (drawn_words_in entropy (word :: words)
                    (Z.to_nat (spin_words w)) p ltac:(done)) as Hin.
      set (picks := drawn_words entropy p _ _) in *.
      assert (Hpicks : Forall (fun word' =>
                word' <> [] /\ lower word' = word'
                /\ Forall (fun ch => isspace ch = false) word') picks).
      { eapply Forall_impl; [exact Hin|]. intros word' Hword'.
        by apply (proj1 (Forall_forall _ _) Hall). }
      assert (Hpicks' : Forall (Forall (fun c => vocabulary_char c = true))
                          picks).
      { eapply Forall_impl; [exact Hin|]. intros word' Hword'.
        by apply (proj1 (Forall_forall _ _) Hchars). }
      split.
      + apply clean_line_join.
        * destruct (chk_capitalize w), picks; try done; cbn in Hlen; lia.
        * destruct (chk_capitalize w).
          -- apply Forall_fmap. eapply Forall_impl; [exact Hpicks|].
             intros word' Hword'. by apply capitalize_clean.
          -- eapply Forall_impl; [exact Hpicks|].
             by intros word' (? & _ & ?).
        * eapply Forall_impl; [exact Hsep'|]. by intros ? [? _].
      + apply Forall_join.
        * eapply Forall_impl; [exact Hsep'|]. by intros ? [_ ?].
        * destruct (chk_capitalize w).
          -- apply Forall_fmap. eapply Forall_impl; [exact Hpicks'|].
             intros word' Hword'. by apply capitalize_kept.
          -- eapply Forall_impl; [exact Hpicks'|]. intros word' Hword'.
             eapply Forall_impl; [exact Hword'|].
             by intros c (_ & _ & _ & ?)%vocabulary_char_facts. }
  destruct Hclean as (passwords & -> & Hlen & Hclean).
  exists passwords. split; [done|].
  assert (Hlines : Forall clean_line passwords)
    by (eapply Forall_impl; [exact Hclean|]; by intros ? [? _]).
  assert (Hkept : Forall (Forall (fun c => box_changes c = false)) passwords)
    by (eapply Forall_impl; [exact Hclean|]; by intros ? [_ ?]).
  split.
  { cbn [out setPlainText]. apply plain_text_unchanged.
    apply Forall_join; [by repeat constructor|done]. }
  split; [done|].
  apply output_box_gives_back; [|done|done].
  destruct passwords; [cbn in Hlen; lia|done].
Qed.

(** ** Saving *)



(** ** The entropy shown *)

(** X17. The numbers [update_entropy_labels] shows agree with the generator.
    In character mode the size shown is the size of the charset the
    secrets are drawn from, the bits are those of [estimate_entropy_bits],
    and the size is zero (the label reads "—") exactly when the button
    refuses to generate for want of characters.  In passphrase mode the
    size is the number of words in use (1 for an empty list) and, for a
    positive word count, the bits are those [estimate_entropy_bits] gives
    for the word count and the size of the list. *)
Theorem entropy_labels_agree_with_generate `{MathLibrary} (w : window) :
  (preset_combo w <> 4 ->
     update_entropy_labels w
     = (len (charset_of_window w),
        estimate_entropy_bits (spin_length w) (len (charset_of_window w)))
     /\ forall entropy pos,
          (update_entropy_labels w).1 = 0
          <-> exists msg,
                on_generate entropy w pos = (w, [Error msg])
                /\ kind_of_message msg = Some EmptyCharset)
  /\ (preset_combo w = 4 ->
        (update_entropy_labels w).1 = Z.max 1 (len (wordlist w))
        /\ (0 < spin_words w ->
            (update_entropy_labels w).2
            = estimate_entropy_bits (spin_words w) (len (wordlist w)))).
Proof.
  split.
  - intros Hmode. unfold update_entropy_labels.
    destruct (Z.eqb_spec (preset_combo w) 4) as [|_]; [done|].
    split; [done|]. intros entropy pos. cbn [fst].
    assert (Hlen : len (charset_of_window w) = 0 <-> charset_of_window w = []).
    { unfold len. destruct (charset_of_window w); [done|].
      cbn [List.length]. split; [lia|done]. }
    rewrite Hlen. unfold on_generate. fold (count_of_window w).
    fold (charset_of_window w).
    destruct (Z.eqb_spec (preset_combo w) 4) as [|_]; [done|].
    destruct (chk_lower w || chk_upper w || chk_digits w || chk_symbols w)
      eqn:Hany; cbn [negb].
    + destruct (charset_of_window w) as [|c charset] eqn:Hcharset;
        cbn [is_empty].
      * split; [|done]. intros _. by eexists.
      * split; [done|]. intros (msg & Hgen & Hkind). exfalso.
        destruct (_ >? _).
        { injection Hgen as <-. done. }
        destruct (repeat_M _ _ pos) as [[passwords pos']|e] eqn:Hrun;
          [done|].
        injection Hgen as <-. cbn [kind_of_message] in Hkind.
        rewrite <- Hcharset in Hrun.
        pose proof (repeat_M_inv
          (generate_with_requirements entropy (spin_length w)
             (pools_of_window w (charset_of_window w)) (req_of_window w)
             (charset_of_window w))
          (fun _ => True) (fun e => kind_of_exn e <> Some EmptyCharset)
          (Z.to_nat (count_of_window w)) pos) as Hinv.
        rewrite Hrun in Hinv. apply Hinv; [done| |done].
        intros p e' Hraise.
        destruct (generate_with_requirements_cases entropy (spin_length w)
                    (pools_of_window w (charset_of_window w))
                    (req_of_window w) (charset_of_window w) p)
          as [[Hnil _]|[(_ & _ & Hr)|[(_ & _ & _ & key & n & Hr & _)
                                     |(_ & _ & _ & pw & p' & Hr & _)]]].
        -- by rewrite Hcharset in Hnil.
        -- cbv zeta in Hr. rewrite Hr in Hraise. by injection Hraise as <-.
        -- cbv zeta in Hr. rewrite Hr in Hraise. by injection Hraise as <-.
        -- cbv zeta in Hr. congruence.
    + split; [intros _; by eexists|].
      intros _. unfold charset_of_window.
      apply orb_false_iff in Hany as [[[-> ->]%orb_false_iff
                                        ->]%orb_false_iff ->].
      by destruct (chk_exclude_ambiguous w).
  - intros Hmode. unfold update_entropy_labels. rewrite Hmode.
    cbn [Z.eqb Pos.eqb fst snd]. split; [done|].
    intros Hwords. unfold estimate_entropy_bits.
    destruct (Z.leb_spec (spin_words w) 0); [lia|]. cbn [orb].
    destruct (Z.gtb_spec (Z.max 1 (len (wordlist w))) 1),
      (Z.leb_spec (len (wordlist w)) 1); try lia; [|done].
    by rewrite Z.max_r by lia.
Qed.

(** ** The estimate and the order of the doubles *)

Lemma iter_shr_1_full k m :
  0 <= m ->
  Nat.iter (S k) shr_1 {| shr_m := m; shr_r := false; shr_s := false |}
  = {| shr_m := m / 2 ^ Z.of_nat (S k);
       shr_r := Z.odd (m / 2 ^ Z.of_nat k);
       shr_s := negb (m mod 2 ^ Z.of_nat k =? 0) |}.
Proof.
  intros Hm. induction k as [|k IH].
  - cbn [Nat.iter nat_rect]. rewrite shr_1_nonneg by done.
    change (2 ^ Z.of_nat 1) with 2. change (2 ^ Z.of_nat 0) with 1.
    by rewrite Z.div_1_r, Z.mod_1_r.
  - rewrite Nat.iter_succ, IH.
    rewrite shr_1_nonneg by (apply Z.div_pos; lia).
    assert (Hpow : 0 < 2 ^ Z.of_nat k) by (apply Z.pow_pos_nonneg; lia).
    f_equal.
    + rewrite Z.div_div by lia. f_equal.
      rewrite (Nat2Z.inj_succ (S k)), Z.pow_succ_r by lia. lia.
    + rewrite (Nat2Z.inj_succ k), Z.pow_succ_r by lia.
      rewrite (Z.mul_comm 2), Z.rem_mul_r by lia.
      rewrite Zmod_odd.
      pose proof (Z.mod_pos_bound m (2 ^ Z.of_nat k) Hpow).
      destruct (Z.odd (m / 2 ^ Z.of_nat k)); cbn [orb].
      * symmetry. apply negb_true_iff, Z.eqb_neq. lia.
      * by rewrite Z.mul_0_r, Z.add_0_r.
Qed.

Lemma round_nearest_even_half_even m k :
  0 <= m -> 0 < k ->
  round_nearest_even (m / 2 ^ k)
    (loc_of_shr_record
       {| shr_m := m / 2 ^ k;
          shr_r := Z.odd (m / 2 ^ (k - 1));
          shr_s := negb (m mod 2 ^ (k - 1) =? 0) |})
  = round_half_even m k.
Proof.
  intros Hm Hk. unfold round_half_even. cbv zeta.
  assert (Hpow : 0 < 2 ^ (k - 1)) by (apply Z.pow_pos_nonneg; lia).
  assert (Hk2 : 2 ^ k = 2 ^ (k - 1) * 2).
  { replace k with (Z.succ (k - 1)) at 1 by lia.
    rewrite Z.pow_succ_r by lia. lia. }
  assert (Hrest : m mod 2 ^ k
                  = m mod 2 ^ (k - 1)
                    + 2 ^ (k - 1) * (if Z.odd (m / 2 ^ (k - 1)) then 1 else 0)).
  { rewrite Hk2, Z.rem_mul_r by lia. by rewrite Zmod_odd. }
  pose proof (Z.mod_pos_bound m (2 ^ (k - 1)) Hpow) as Hlow.
  rewrite Hrest, Hk2.
  destruct (Z.odd (m / 2 ^ (k - 1))).
  - destruct (Z.eqb_spec (m mod 2 ^ (k - 1)) 0) as [H0|H0];
      cbn [negb loc_of_shr_record round_nearest_even].
    + rewrite H0.
      replace (2 ^ (k - 1) * 2 <? 2 * (0 + 2 ^ (k - 1) * 1)) with false
        by (symmetry; apply Z.ltb_ge; lia).
      replace (2 ^ (k - 1) * 2 =? 2 * (0 + 2 ^ (k - 1) * 1)) with true
        by (symmetry; apply Z.eqb_eq; lia).
      cbn [orb andb]. rewrite <- Z.negb_odd.
      by destruct (Z.odd (m / (2 ^ (k - 1) * 2))).
    + replace (2 ^ (k - 1) * 2
               <? 2 * (m mod 2 ^ (k - 1) + 2 ^ (k - 1) * 1)) with true
        by (symmetry; apply Z.ltb_lt; lia).
      done.
  - replace (2 ^ (k - 1) * 2
             <? 2 * (m mod 2 ^ (k - 1) + 2 ^ (k - 1) * 0)) with false
      by (symmetry; apply Z.ltb_ge; lia).
    replace (2 ^ (k - 1) * 2
             =? 2 * (m mod 2 ^ (k - 1) + 2 ^ (k - 1) * 0)) with false
      by (symmetry; apply Z.eqb_neq; lia).
    cbn [orb andb].
    by destruct (negb (m mod 2 ^ (k - 1) =? 0)).
Qed.

Lemma round_half_even_bounds m k :
  0 <= m -> 0 <= k ->
  m / 2 ^ k <= round_half_even m k <= m / 2 ^ k + 1.
Proof.
  intros Hm Hk. unfold round_half_even. cbv zeta.
  destruct (_ || _); lia.
Qed.

Lemma round_half_even_0 m : round_half_even m 0 = m.
Proof.
  unfold round_half_even. change (2 ^ 0) with 1.
  rewrite Z.div_1_r, Z.mod_1_r. done.
Qed.

(** What rounding makes of a mantissa of at least 53 bits, in the range
    of the normal numbers. *)
Lemma binary_round_aux_exact m e :
  let k := Z.pos (digits2_pos m) - 53 in
  let N := round_half_even (Z.pos m) k in
  0 <= k -> -1074 <= e + k ->
  2 ^ 52 <= N <= 2 ^ 53
  /\ binary_round_aux 53 1024 false (Z.pos m) e loc_Exact
     = if N =? 2 ^ 53
       then if e + k + 1 <=? 971
            then S754_finite false (2 ^ 52)%positive (e + k + 1)
            else S754_infinity false
       else if e + k <=? 971 then S754_finite false (Z.to_pos N) (e + k)
            else S754_infinity false.
Proof.
  intros k N Hk He. pose proof (digits2_pos_bounds m) as Hd.
  set (d := Z.pos (digits2_pos m)) in *.
  assert (Hkd : d - 53 = k) by done. clearbody k.
  assert (Hpow : 0 < 2 ^ k) by (apply Z.pow_pos_nonneg; lia).
  assert (Hq : 2 ^ 52 <= Z.pos m / 2 ^ k < 2 ^ 53).
  { split.
    - apply Z.div_le_lower_bound; [done|].
      replace (2 ^ k * 2 ^ 52) with (2 ^ (d - 1)); [lia|].
      rewrite <- Z.pow_add_r by lia. f_equal. lia.
    - apply Z.div_lt_upper_bound; [done|].
      replace (2 ^ k * 2 ^ 53) with (2 ^ d); [lia|].
      rewrite <- Z.pow_add_r by lia. f_equal. lia. }
  pose proof (round_half_even_bounds (Z.pos m) k ltac:(lia) Hk) as HN.
  fold N in HN. split; [lia|].
  destruct (Z.eq_dec k 0) as [Hk0|Hk0].
  { subst N. rewrite Hk0 in *. rewrite round_half_even_0.
    rewrite binary_round_aux_canonical by (fold d; lia).
    change (2 ^ 0) with 1 in Hq. rewrite Z.div_1_r in Hq.
    destruct (Z.eqb_spec (Z.pos m) (2 ^ 53)); [lia|].
    by rewrite Z.add_0_r, Pos2Z.id. }
  assert (Hk' : exists k', k = Z.pos k') by (exists (Z.to_pos k); lia).
  destruct Hk' as [k' Hk'].
  unfold binary_round_aux.
  assert (Hshr : shr_fexp 53 1024 (Z.pos m) e loc_Exact
                 = ({| shr_m := Z.pos m / 2 ^ k;
                       shr_r := Z.odd (Z.pos m / 2 ^ (k - 1));
                       shr_s := negb (Z.pos m mod 2 ^ (k - 1) =? 0) |},
                    e + k)).
  { unfold shr_fexp. cbn [Zdigits2 shr_record_of_loc]. fold d.
    rewrite fexp_above by lia.
    replace (d + e - 53 - e) with k by lia.
    rewrite Hk'. unfold shr. rewrite iter_pos_iter.
    destruct (Pos2Nat.is_succ k') as [j Hj]. rewrite Hj.
    rewrite iter_shr_1_full by lia.
    rewrite <- Hj, positive_nat_Z.
    replace (Z.of_nat j) with (Z.pos k' - 1) by lia. done. }
  rewrite Hshr. cbn [shr_m].
  rewrite round_nearest_even_half_even by lia. fold N.
  destruct (Z.eqb_spec N (2 ^ 53)) as [Heq|Hne].
  - rewrite Heq.
    assert (Hshr2 : shr_fexp 53 1024 (2 ^ 53) (e + k) loc_Exact
                    = ({| shr_m := Z.pos (2 ^ 52); shr_r := false;
                          shr_s := false |}, e + k + 1)).
    { unfold shr_fexp.
      change (Zdigits2 (2 ^ 53)) with 54. cbn [shr_record_of_loc].
      rewrite fexp_above by lia.
      replace (54 + (e + k) - 53 - (e + k)) with 1 by lia. done. }
    rewrite Hshr2. cbn [shr_m]. done.
  - destruct N as [|N'|N'] eqn:HN'; [lia| |lia].
    assert (Hdig : Z.pos (digits2_pos N') = 53).
    { apply digits2_pos_unique. change (2 ^ 53) with 9007199254740992 in *.
      change (2 ^ (53 - 1)) with 4503599627370496.
      change (2 ^ 52) with 4503599627370496 in *. lia. }
    assert (Hshr2 : shr_fexp 53 1024 (Z.pos N') (e + k) loc_Exact
                    = ({| shr_m := Z.pos N'; shr_r := false;
                          shr_s := false |}, e + k)).
    { unfold shr_fexp. cbn [Zdigits2 shr_record_of_loc].
      rewrite Hdig, fexp_above by lia.
      replace (53 + (e + k) - 53 - (e + k)) with 0 by lia. done. }
    rewrite Hshr2. cbn [shr_m]. by rewrite Pos2Z.id.
Qed.

Lemma round_half_even_mono m k m' k' :
  0 <= m -> 0 <= m' -> 0 <= k -> 0 <= k' ->
  m * 2 ^ k' <= m' * 2 ^ k ->
  round_half_even m k <= round_half_even m' k'.
Proof.
  intros Hm Hm' Hk Hk' Hle.
  pose proof (round_half_even_bounds m k Hm Hk) as Hb.
  pose proof (round_half_even_bounds m' k' Hm' Hk') as Hb'.
  assert (HP : 0 < 2 ^ k) by (apply Z.pow_pos_nonneg; lia).
  assert (HP' : 0 < 2 ^ k') by (apply Z.pow_pos_nonneg; lia).
  pose proof (Z.div_mod m (2 ^ k) ltac:(lia)) as Hdiv.
  pose proof (Z.div_mod m' (2 ^ k') ltac:(lia)) as Hdiv'.
  pose proof (Z.mod_pos_bound m (2 ^ k) HP) as Hr.
  pose proof (Z.mod_pos_bound m' (2 ^ k') HP') as Hr'.
  unfold round_half_even in *. cbv zeta in *.
  set (P := 2 ^ k) in *. set (P' := 2 ^ k') in *.
  set (q := m / P) in *. set (q' := m' / P') in *.
  set (r := m mod P) in *. set (r' := m' mod P') in *.
  clearbody P P' q q' r r'.
  assert (Hq : q <= q').
  { destruct (Z.le_gt_cases q q') as [|Hgt]; [done|]. exfalso.
    assert (P * P' * (q' + 1) <= P * P' * q) by nia.
    assert (m' * P < P * P' * (q' + 1)) by nia.
    assert (P * P' * q <= m * P') by nia. lia. }
  destruct (Z.eq_dec q q') as [<-|Hne]; [|destruct (_ || _), (_ || _); lia].
  assert (Hrr : r * P' <= r' * P) by nia.
  destruct (Z.ltb_spec P (2 * r)) as [Hup|Hnot]; cbn [orb].
  - assert (P' < 2 * r') by nia.
    replace (P' <? 2 * r') with true by (symmetry; apply Z.ltb_lt; lia).
    cbn [orb]. lia.
  - destruct (Z.eqb_spec P (2 * r)) as [Htie|Hno]; cbn [andb];
      [|destruct (_ || _); lia].
    destruct (Z.odd q); [|destruct (_ || _); lia].
    assert (P' <= 2 * r') by nia.
    destruct (Z.ltb_spec P' (2 * r')); cbn [orb]; [lia|].
    replace (P' =? 2 * r') with true by (symmetry; apply Z.eqb_eq; lia).
    cbn [andb]. lia.
Qed.

Lemma value_le_at m e m' e' c :
  value_le m e m' e' -> c <= e -> c <= e' ->
  m * 2 ^ (e - c) <= m' * 2 ^ (e' - c).
Proof.
  intros (c0 & He & He' & Hle) Hc Hc'.
  destruct (Z.le_gt_cases c c0) as [Hlow|Hhigh].
  - replace (e - c) with (e - c0 + (c0 - c)) by lia.
    replace (e' - c) with (e' - c0 + (c0 - c)) by lia.
    rewrite !Z.pow_add_r, !Z.mul_assoc by lia.
    apply Z.mul_le_mono_nonneg_r; [|done].
    apply Z.pow_nonneg. lia.
  - replace (e - c0) with (e - c + (c - c0)) in Hle by lia.
    replace (e' - c0) with (e' - c + (c - c0)) in Hle by lia.
    rewrite !Z.pow_add_r, !Z.mul_assoc in Hle by lia.
    apply Z.mul_le_mono_pos_r in Hle; [done|].
    apply Z.pow_pos_nonneg; lia.
Qed.

Lemma value_le_mul m1 e1 m1' e1' m2 e2 m2' e2' :
  0 <= m1 -> 0 <= m2 ->
  value_le m1 e1 m1' e1' -> value_le m2 e2 m2' e2' ->
  value_le (m1 * m2) (e1 + e2) (m1' * m2') (e1' + e2').
Proof.
  intros Hm1 Hm2 (c1 & ? & ? & H1) (c2 & ? & ? & H2).
  exists (c1 + c2). split; [lia|]. split; [lia|].
  replace (e1 + e2 - (c1 + c2)) with ((e1 - c1) + (e2 - c2)) by lia.
  replace (e1' + e2' - (c1 + c2)) with ((e1' - c1) + (e2' - c2)) by lia.
  rewrite !Z.pow_add_r by lia.
  assert (0 <= 2 ^ (e1 - c1)) by (apply Z.pow_nonneg; lia).
  assert (0 <= 2 ^ (e2 - c2)) by (apply Z.pow_nonneg; lia).
  transitivity ((m1 * 2 ^ (e1 - c1)) * (m2 * 2 ^ (e2 - c2))); [lia|].
  transitivity ((m1' * 2 ^ (e1' - c1)) * (m2' * 2 ^ (e2' - c2))); [|lia].
  apply Z.mul_le_mono_nonneg; lia.
Qed.

Lemma SFleb_finite m1 e1 m2 e2 :
  e1 < e2 \/ (e1 = e2 /\ (m1 <= m2)%positive) ->
  SFleb (S754_finite false m1 e1) (S754_finite false m2 e2) = true.
Proof.
  unfold SFleb, SFcompare. intros [Hlt|[-> Hle]].
  - by rewrite (proj2 (Z.compare_lt_iff e1 e2) Hlt).
  - rewrite Z.compare_refl. fold (Pos.compare m1 m2).
    destruct (Pos.compare_spec m1 m2); [done|done|lia].
Qed.

Lemma rounded_mono N E N' E' :
  2 ^ 52 <= N <= 2 ^ 53 -> 2 ^ 52 <= N' <= 2 ^ 53 ->
  E < E' \/ (E = E' /\ N <= N') ->
  SFleb (rounded N E) (rounded N' E') = true.
Proof.
  change (2 ^ 52) with 4503599627370496.
  change (2 ^ 53) with 9007199254740992.
  intros HN HN' Hle. unfold rounded.
  change (2 ^ 52)%positive with 4503599627370496%positive.
  change (2 ^ 53) with 9007199254740992.
  destruct (Z.eqb_spec N 9007199254740992),
    (Z.eqb_spec N' 9007199254740992),
    (Z.leb_spec (E + 1) 971), (Z.leb_spec E 971),
    (Z.leb_spec (E' + 1) 971), (Z.leb_spec E' 971);
    try lia; try reflexivity;
    apply SFleb_finite; lia.
Qed.

(** Rounding keeps the order of the values. *)
Lemma binary_round_aux_mono m e m' e' :
  let k := Z.pos (digits2_pos m) - 53 in
  let k' := Z.pos (digits2_pos m') - 53 in
  0 <= k -> 0 <= k' -> -1074 <= e + k -> -1074 <= e' + k' ->
  value_le (Z.pos m) e (Z.pos m') e' ->
  SFleb (binary_round_aux 53 1024 false (Z.pos m) e loc_Exact)
        (binary_round_aux 53 1024 false (Z.pos m') e' loc_Exact) = true.
Proof.
  intros k k' Hk Hk' He He' Hle.
  destruct (binary_round_aux_exact m e Hk He) as [HN ->].
  destruct (binary_round_aux_exact m' e' Hk' He') as [HN' ->].
  fold k k'. fold (rounded (round_half_even (Z.pos m) k) (e + k)).
  fold (rounded (round_half_even (Z.pos m') k') (e' + k')).
  pose proof (digits2_pos_bounds m) as Hd.
  pose proof (digits2_pos_bounds m') as Hd'.
  set (d := Z.pos (digits2_pos m)) in *.
  set (d' := Z.pos (digits2_pos m')) in *.
  assert (Hbinade : e + k <= e' + k').
  { destruct (Z.le_gt_cases (e + k) (e' + k')) as [|Hgt]; [done|]. exfalso.
    set (c := Z.min e e').
    pose proof (value_le_at _ _ _ _ c Hle ltac:(lia) ltac:(lia)) as Hc.
    assert (Hlow : 2 ^ (d - 1 + (e - c)) <= Z.pos m * 2 ^ (e - c)).
    { rewrite Z.pow_add_r by lia.
      apply Z.mul_le_mono_nonneg_r; [apply Z.pow_nonneg; lia|lia]. }
    assert (Hhigh : Z.pos m' * 2 ^ (e' - c) < 2 ^ (d' + (e' - c))).
    { rewrite Z.pow_add_r by lia.
      apply Z.mul_lt_mono_pos_r; [apply Z.pow_pos_nonneg; lia|lia]. }
    assert (2 ^ (d' + (e' - c)) <= 2 ^ (d - 1 + (e - c)))
      by (apply Z.pow_le_mono_r; lia).
    lia. }
  apply rounded_mono; [done|done|].
  destruct (Z.eq_dec (e + k) (e' + k')) as [Heq|Hne]; [|lia].
  right. split; [done|].
  apply round_half_even_mono; try lia.
  pose proof (value_le_at _ _ _ _ (e + e' - (e + k)) Hle ltac:(lia)
                ltac:(lia)) as Hc.
  replace (e - (e + e' - (e + k))) with k' in Hc by lia.
  replace (e' - (e + e' - (e + k))) with k in Hc by lia.
  done.
Qed.

Lemma rounded_finite N E s m e :
  2 ^ 52 <= N <= 2 ^ 53 ->
  rounded N E = S754_finite s m e ->
  s = false /\ Z.pos (digits2_pos m) = 53 /\ E <= e.
Proof.
  change (2 ^ 52) with 4503599627370496.
  change (2 ^ 53) with 9007199254740992.
  intros HN. unfold rounded. change (2 ^ 53) with 9007199254740992.
  destruct (Z.eqb_spec N 9007199254740992) as [HN53|HN53].
  - destruct (_ <=? _); [|done]. intros [= <- <- <-].
    split; [done|]. split; [done|lia].
  - destruct (_ <=? _); [|done]. intros [= <- <- <-].
    split; [done|]. split; [|lia].
    apply digits2_pos_unique. rewrite Z2Pos.id by lia.
    change (2 ^ (53 - 1)) with 4503599627370496.
    change (2 ^ 53) with 9007199254740992. lia.
Qed.

(** The order of two positive doubles with mantissas of 53 bits is the
    order of their values. *)
Lemma SFleb_value m e m' e' :
  Z.pos (digits2_pos m) = 53 -> Z.pos (digits2_pos m') = 53 ->
  SFleb (S754_finite false m e) (S754_finite false m' e') = true ->
  value_le (Z.pos m) e (Z.pos m') e'.
Proof.
  intros Hd Hd'. pose proof (digits2_pos_bounds m) as Hm.
  pose proof (digits2_pos_bounds m') as Hm'. rewrite Hd in Hm.
  rewrite Hd' in Hm'.
  change (2 ^ (53 - 1)) with 4503599627370496 in *.
  change (2 ^ 53) with 9007199254740992 in *.
  unfold SFleb, SFcompare.
  destruct (Z.compare_spec e e') as [->|Hlt|Hgt]; [| |done].
  - fold (Pos.compare m m').
    destruct (Pos.compare_spec m m') as [->|Hlt|Hgt]; [| |done]; intros _;
      exists e'; rewrite Z.sub_diag; change (2 ^ 0) with 1; lia.
  - intros _. exists e. split; [lia|]. split; [lia|].
    rewrite Z.sub_diag. change (2 ^ 0) with 1.
    assert (2 ^ 1 <= 2 ^ (e' - e)) by (apply Z.pow_le_mono_r; lia).
    change (2 ^ 1) with 2 in *. nia.
Qed.

(** The conversion of a positive int, as the rounding of a mantissa of at
    least 53 bits that holds the int. *)
Lemma binary_round_of_int p :
  exists p' e',
    binary_normalize 53 1024 (Z.pos p) 0 false
    = binary_round_aux 53 1024 false (Z.pos p') e' loc_Exact
    /\ 0 <= Z.pos (digits2_pos p') - 53
    /\ -52 <= e' <= 0
    /\ Z.pos p' = Z.pos p * 2 ^ (- e').
Proof.
  pose proof (digits2_pos_bounds p) as Hd.
  set (d := Z.pos (digits2_pos p)) in *.
  assert (1 <= d) by (subst d; lia).
  change (binary_normalize 53 1024 (Z.pos p) 0 false)
    with (binary_round 53 1024 false p 0).
  unfold binary_round. fold d.
  rewrite Z.add_0_r, fexp_above by lia. unfold shl_align.
  rewrite Z.sub_0_r.
  destruct (d - 53) as [|s|s] eqn:Hs.
  - exists p, 0. fold d. split; [done|]. split; [lia|]. split; [lia|].
    change (2 ^ (- 0)) with 1. lia.
  - exists p, 0. fold d. split; [done|]. split; [lia|]. split; [lia|].
    change (2 ^ (- 0)) with 1. lia.
  - assert (Hm : Z.pos (digits2_pos (Pos.iter xO p s)) = 53).
    { apply digits2_pos_unique. rewrite Pos_iter_xO.
      replace (Z.pos s) with (53 - d) by lia.
      replace (2 ^ (53 - 1)) with (2 ^ (d - 1) * 2 ^ (53 - d))
        by (rewrite <- Z.pow_add_r by lia; f_equal; lia).
      replace (2 ^ 53) with (2 ^ d * 2 ^ (53 - d))
        by (rewrite <- Z.pow_add_r by lia; f_equal; lia).
      assert (0 < 2 ^ (53 - d)) by (apply Z.pow_pos_nonneg; lia).
      nia. }
    exists (Pos.iter xO p s), (Z.neg s). split; [done|].
    rewrite Hm. split; [lia|]. split; [lia|].
    by rewrite Pos_iter_xO.
Qed.

(** The conversion of an int to a float keeps the order. *)
Lemma binary_normalize_mono n n' :
  0 < n <= n' ->
  SFleb (binary_normalize 53 1024 n 0 false)
        (binary_normalize 53 1024 n' 0 false) = true.
Proof.
  intros Hn. destruct n as [|p|p]; [lia| |lia].
  destruct n' as [|p'|p']; [lia| |lia].
  destruct (binary_round_of_int p) as (m & e & -> & Hk & He & Hm).
  destruct (binary_round_of_int p') as (m' & e' & -> & Hk' & He' & Hm').
  apply binary_round_aux_mono; try lia.
  exists (Z.min e e'). split; [lia|]. split; [lia|].
  rewrite Hm, Hm', <- !Z.mul_assoc, <- !Z.pow_add_r by lia.
  replace (- e + (e - Z.min e e')) with (- Z.min e e') by lia.
  replace (- e' + (e' - Z.min e e')) with (- Z.min e e') by lia.
  apply Z.mul_le_mono_nonneg_r; [apply Z.pow_nonneg|]; lia.
Qed.

(** A double that an int converts to has a mantissa of 53 bits. *)
Lemma binary_normalize_finite p s m e :
  binary_normalize 53 1024 (Z.pos p) 0 false = S754_finite s m e ->
  s = false /\ Z.pos (digits2_pos m) = 53 /\ -52 <= e.
Proof.
  destruct (binary_round_of_int p) as (m' & e' & -> & Hk & He & Hm).
  destruct (binary_round_aux_exact m' e' Hk ltac:(lia)) as [HN ->].
  intros Hr. fold (rounded (round_half_even (Z.pos m')
                              (Z.pos (digits2_pos m') - 53))
                     (e' + (Z.pos (digits2_pos m') - 53))) in Hr.
  apply rounded_finite in Hr as (? & ? & ?); [|done].
  split; [done|]. split; [done|lia].
Qed.

(** The product of two positive doubles with mantissas of 53 bits keeps
    the order. *)
Lemma SFmul_mono a ea a' ea' b eb b' eb' :
  Z.pos (digits2_pos a) = 53 -> Z.pos (digits2_pos a') = 53 ->
  Z.pos (digits2_pos b) = 53 -> Z.pos (digits2_pos b') = 53 ->
  -1126 <= ea + eb -> -1126 <= ea' + eb' ->
  SFleb (S754_finite false a ea) (S754_finite false a' ea') = true ->
  SFleb (S754_finite false b eb) (S754_finite false b' eb') = true ->
  SFleb (SFmul 53 1024 (S754_finite false a ea) (S754_finite false b eb))
        (SFmul 53 1024 (S754_finite false a' ea') (S754_finite false b' eb'))
  = true.
Proof.
  intros Ha Ha' Hb Hb' He He' Hle1 Hle2.
  apply SFleb_value in Hle1; [|done..].
  apply SFleb_value in Hle2; [|done..].
  cbn [SFmul xorb].
  assert (Hdigits : forall x y,
            Z.pos (digits2_pos x) = 53 -> Z.pos (digits2_pos y) = 53 ->
            105 <= Z.pos (digits2_pos (x * y))).
  { intros x y Hx Hy. pose proof (digits2_pos_bounds x) as Hbx.
    pose proof (digits2_pos_bounds y) as Hby.
    pose proof (digits2_pos_bounds (x * y)) as Hbxy.
    rewrite Hx in Hbx. rewrite Hy in Hby.
    change (2 ^ (53 - 1)) with 4503599627370496 in *.
    destruct (Z.le_gt_cases 105 (Z.pos (digits2_pos (x * y)))); [done|].
    assert (2 ^ Z.pos (digits2_pos (x * y)) <= 2 ^ 104)
      by (apply Z.pow_le_mono_r; lia).
    change (2 ^ 104) with (4503599627370496 * 4503599627370496) in *.
    rewrite Pos2Z.inj_mul in Hbxy. nia. }
  pose proof (Hdigits a b Ha Hb). pose proof (Hdigits a' b' Ha' Hb').
  apply binary_round_aux_mono; try lia.
  rewrite !Pos2Z.inj_mul. apply value_le_mul; try lia; done.
Qed.

(** X18. With doubles, a longer password never has a smaller estimate, and
    neither has a password over a charset whose logarithm is not smaller:
    when [math.log2] gives positive normal doubles for the two sizes (the
    logarithm of a size above 1 is at least 1), the two estimates are
    returned for any lengths below the first int that does not convert,
    and the first is at most the second in the order of the doubles. *)
Theorem estimate_entropy_bits_monotone `{MathLibrary}
    (length length' size size' : Z) :
  0 < length <= length' -> length' < int_too_large ->
  1 < size -> 1 < size' ->
  is_normal_positive (log2_of_positive size) ->
  is_normal_positive (log2_of_positive size') ->
  SFleb (log2_of_positive size) (log2_of_positive size') = true ->
  exists bits bits',
    estimate_entropy_bits length size = Returns bits
    /\ estimate_entropy_bits length' size' = Returns bits'
    /\ SFleb bits bits' = true.
Proof.
  intros Hlen Hlimit Hsize Hsize' Hx Hx' Hlog.
  assert (Hrun : forall l s, 0 < l -> 1 < s ->
            estimate_entropy_bits l s
            = int_mul_float l (log2_of_positive s)).
  { intros l s Hl Hs. unfold estimate_entropy_bits, math_log2.
    destruct (Z.leb_spec l 0); [lia|].
    destruct (Z.leb_spec s 1); [lia|]. cbn [orb].
    by destruct (Z.leb_spec s 0); [lia|]. }
  rewrite !Hrun by lia. unfold int_mul_float.
  pose proof (binary_normalize_mono length length' Hlen) as Hconv.
  destruct (float_of_int_positive length ltac:(lia))
    as [(_ & a & ea & Ha)|[? _]]; [|lia].
  destruct (float_of_int_positive length' ltac:(lia))
    as [(_ & a' & ea' & Ha')|[? _]]; [|lia].
  rewrite Ha, Ha'. unfold float_of_int in Ha, Ha'.
  destruct length as [|p|p]; [lia| |lia].
  destruct length' as [|p'|p']; [lia| |lia].
  destruct (binary_normalize 53 1024 (Z.pos p) 0 false) as [| | |s m e]
    eqn:Hp; try done.
  destruct (binary_normalize 53 1024 (Z.pos p') 0 false) as [| | |s' m' e']
    eqn:Hp'; try done.
  injection Ha as -> -> ->. injection Ha' as -> -> ->.
  apply binary_normalize_finite in Hp as (_ & Hda & Hea).
  apply binary_normalize_finite in Hp' as (_ & Hda' & Hea').
  destruct (log2_of_positive size) as [| | |[] b eb]; try done.
  destruct (log2_of_positive size') as [| | |[] b' eb']; try done.
  destruct Hx as [Hdb Heb], Hx' as [Hdb' Heb'].
  eexists _, _. split; [done|]. split; [done|].
  apply SFmul_mono; try done; lia.
Qed.

(** ** The label of the word list *)

(** X12. The label of the word list stays right through [on_load_wordlist]:
    whatever file is chosen and whether it loads or not, the label goes on
    counting the words in use and naming the file they came from.  The
    constructor does not establish this: when the path saved in the
    settings names a file that is gone, that cannot be read or that holds
    no usable word, the built-in words are in use and the label names that
    file all the same. *)
Theorem wordlist_label_after_loading (files : file_system) :
  (forall s path,
     label_is_right files s ->
     label_is_right files
       (on_load_wordlist s path (read_file files path)).1)
  /\ (forall w (saved : str) read,
        saved <> [] ->
        read = None \/ read = Some None
        \/ (exists text, read = Some (Some text) /\ filtered_words text = []) ->
        let s := (init_wordlist w (Some saved) read).1 in
        wordlist (win s) = FALLBACK_WORDS
        /\ _wordlist_label_text s
           = Words_from (len FALLBACK_WORDS) saved).
Proof.
  split.
  - intros s path Hright. unfold on_load_wordlist.
    destruct path as [|c path]; [done|]. cbn [is_empty].
    unfold _load_wordlist_from_path, read_file.
    destruct (files (c :: path)) as [[text|]|] eqn:Hfile; [|done..].
    destruct (filtered_words text) as [|word words] eqn:Hwords; [done|].
    cbn [is_empty negb fst]. unfold label_is_right, _wordlist_label_text.
    cbn [wordlist_path win wordlist set_wordlist].
    split; [done|]. exists text. by rewrite Hwords.
  - intros w saved read Hsaved Hread s. subst s.
    unfold init_wordlist, _wordlist_label_text.
    destruct saved as [|c saved]; [done|]. cbn [path_is_set].
    destruct Hread as [->|[->|(text & -> & Hwords)]]; [done..|].
    unfold _load_wordlist_from_path. by rewrite Hwords.
Qed.

(** ** The passphrase sampler at its edges *)

(** X19. [generate_passphrase] with a word count of zero or less returns the
    empty string and asks the random source nothing, whatever the list;
    with a positive word count and an empty list it raises the
    [IndexError] of [secrets.choice], at its first draw. *)
Theorem generate_passphrase_edge_cases
    (entropy : nat -> nat) (n_words : Z) (words : list str) (sep : str)
    (cap : bool) (pos : nat) :
  (n_words <= 0 ->
     generate_passphrase entropy n_words words sep cap pos = Ok ([], pos))
  /\ (0 < n_words -> words = [] ->
        generate_passphrase entropy n_words words sep cap pos
        = Raise IndexError)
  /\ (0 < n_words -> words <> [] ->
        exists pw,
          generate_passphrase entropy n_words words sep cap pos
          = Ok (pw, (pos + Z.to_nat n_words)%nat)).
Proof.
  split; [|split].
  - intros Hn. unfold generate_passphrase, bind.
    replace (Z.to_nat n_words) with O by lia. cbn [repeat_M]. unfold ret.
    by destruct cap.
  - intros Hn ->. rewrite generate_passphrase_empty_words.
    destruct (Z.leb_spec n_words 0); [lia|done].
  - intros Hn Hwords. rewrite generate_passphrase_returns by done.
    by eexists.
Qed.

(** ** The theorems at work, on a fresh window *)

Lemma on_generate_character_mode_succeeds_iff_witness :
  (on_generate (fun k => k) fresh_window 0%nat).2 = [].
Proof.
  apply (on_generate_character_mode_succeeds_iff (fun k => k) fresh_window
           0%nat).
  - by vm_compute.
  - by vm_compute.
  - split; [reflexivity|]. split; [by vm_compute|]. split; [by vm_compute|].
    intros (_ & _ & Hex & _). discriminate Hex.
Defined.

Lemma on_generate_passwords_follow_the_widgets_witness :
  exists passwords,
    (on_generate (fun k => k) fresh_window 0%nat).1
    = setPlainText fresh_window (join [LF] passwords)
    /\ List.length passwords = Z.to_nat (count_of_window fresh_window)
    /\ Forall (fun pw =>
         len pw = spin_length fresh_window
         /\ (forall ch, ch ∈ pw -> ch ∈ charset_of_window fresh_window)
         /\ (chk_exclude_ambiguous fresh_window = true ->
               forall ch, ch ∈ pw -> ch ∉ AMBIGUOUS)
         /\ (chk_lower fresh_window = true ->
               min_lower fresh_window
               <= Z.of_nat (count_in ascii_lowercase pw))
         /\ (chk_upper fresh_window = true ->
               min_upper fresh_window
               <= Z.of_nat (count_in ascii_uppercase pw))
         /\ (chk_digits fresh_window = true ->
               min_digits fresh_window <= Z.of_nat (count_in digits pw))
         /\ (chk_symbols fresh_window = true ->
               min_symbols fresh_window
               <= Z.of_nat
                    (count_in (symbols_of (txt_custom_symbols fresh_window))
                       pw)))
         passwords.
Proof.
  apply (on_generate_passwords_follow_the_widgets (fun k => k) fresh_window
           (on_generate (fun k => k) fresh_window 0%nat).1 0%nat).
  - by vm_compute.
  - by vm_compute.
Defined.


Lemma on_generate_passphrases_follow_the_widgets_witness :
  exists passwords,
    on_generate (fun k => k) (set_preset fresh_window 4) 0%nat
    = (setPlainText (set_preset fresh_window 4) (join [LF] passwords), [])
    /\ List.length passwords
       = Z.to_nat (count_of_window (set_preset fresh_window 4))
    /\ Forall (fun pw =>
         exists picks,
           List.length picks
           = Z.to_nat (spin_words (set_preset fresh_window 4))
           /\ Forall (fun word => word ∈ wordlist (set_preset fresh_window 4))
                picks
           /\ pw = join (if is_empty
                              (txt_separator (set_preset fresh_window 4))
                         then lit "-"
                         else txt_separator (set_preset fresh_window 4))
                     (if chk_capitalize (set_preset fresh_window 4)
                      then map capitalize picks else picks)
           /\ map capitalize picks = map uppercase_first picks)
         passwords.
Proof.
  apply (on_generate_passphrases_follow_the_widgets (fun k => k)
           (set_preset fresh_window 4) 0%nat).
  - reflexivity.
  - by vm_compute.
  - apply (bool_decide_unpack _). vm_compute. reflexivity.
Defined.

(** A password of four characters with a lowercase and an uppercase letter
    asked for: "aYcX" is drawn, the shuffle draws 0, 2 and 0, and "YXca"
    comes out; it is one of the 24 arrangements, each of which one vector
    of draws gives. *)
Lemma generate_with_requirements_shuffles_witness :
  generate_with_requirements (fun k => k) 4
    {[ "lower"%string := lit "abc"; "upper"%string := lit "XYZ" ]}
    [("lower"%string, 1); ("upper"%string, 1)] (lit "abcXYZ") 0%nat
  = Ok (lit "YXca", 7%nat)
  /\ shuffle_draws (fun k => k) 3 4 = [0; 2; 0]%nat
  /\ ways (lit "aYcX") (lit "YXca") = 1%nat
  /\ chance (lit "aYcX") (lit "YXca") = Qmake 1 24.
Proof.
  destruct (generate_with_requirements_shuffles (fun k => k) 0%nat 4
              {[ "lower"%string := lit "abc"; "upper"%string := lit "XYZ" ]}
              [("lower"%string, 1); ("upper"%string, 1)] (lit "abcXYZ")
              (lit "aYcX") 4%nat)
    as (Hrun & _ & _ & _ & _ & _ & _ & _ & Hways & _).
  - vm_compute. discriminate.
  - vm_compute. discriminate.
  - vm_compute. reflexivity.
  - split; [rewrite Hrun; vm_compute; reflexivity|].
    split; [vm_compute; reflexivity|].
    destruct (Hways (lit "aYcX") (lit "YXca")) as [Hcount Hchance].
    + reflexivity.
    + apply (bool_decide_unpack _). vm_compute. exact I.
    + split; [rewrite Hcount|rewrite Hchance]; vm_compute; reflexivity.
Defined.

(** Twelve characters over two symbols and sixteen over the 26 lowercase
    letters. *)
Lemma estimate_entropy_bits_monotone_witness :
  exists bits bits',
    @estimate_entropy_bits example_library 12 2 = Returns bits
    /\ @estimate_entropy_bits example_library 16 26 = Returns bits'
    /\ SFleb bits bits' = true.
Proof.
  apply (@estimate_entropy_bits_monotone example_library 12 16 2 26).
  - lia.
  - by vm_compute.
  - lia.
  - lia.
  - by vm_compute.
  - by vm_compute.
  - by vm_compute.
Defined.

Lemma filtered_words_reload_witness :
  filtered_words
    (join [LF]
       (filtered_words
          (lit "Cat" ++ [CR; LF] ++ lit " it's " ++ [LF] ++ lit "cat" ++ [LF]
           ++ [KELVIN_SIGN] ++ [LF] ++ lit "x1")))
  = filtered_words
      (lit "Cat" ++ [CR; LF] ++ lit " it's " ++ [LF] ++ lit "cat" ++ [LF]
       ++ [KELVIN_SIGN] ++ [LF] ++ lit "x1").
Proof.
  apply (filtered_words_reload
           (lit "Cat" ++ [CR; LF] ++ lit " it's " ++ [LF] ++ lit "cat"
            ++ [LF] ++ [KELVIN_SIGN] ++ [LF] ++ lit "x1")).
  apply (bool_decide_unpack _). by vm_compute.
Defined.

Lemma generate_with_requirements_output_space_witness :
  (exists entropy pos',
      generate_with_requirements entropy 3
        {[ "lower"%string := lit "ab" ]} [("lower"%string, 1)] (lit "abX")
        0%nat = Ok (lit "XaX", pos'))
  <-> len (lit "XaX") = 3
      /\ Forall (fun c => c ∈ lit "abX") (lit "XaX")
      /\ Forall (fun kn =>
                   snd kn
                   <= Z.of_nat
                        (count_in
                           (pool_of {[ "lower"%string := lit "ab" ]} (fst kn))
                           (lit "XaX")))
           [("lower"%string, 1)].
Proof.
  apply (generate_with_requirements_output_space 3
           {[ "lower"%string := lit "ab" ]} [("lower"%string, 1)]
           (lit "abX") (lit "XaX") 0%nat).
  - by vm_compute.
  - intros key pool [<- <-]%lookup_singleton_Some.
    apply (bool_decide_unpack _). by vm_compute.
  - repeat constructor. by vm_compute.
  - by repeat constructor.
Defined.

Lemma generated_output_round_trip_witness :
  exists passwords,
    (on_generate (fun k => k) fresh_window 0%nat).1
    = setPlainText fresh_window (join [LF] passwords)
    /\ out (on_generate (fun k => k) fresh_window 0%nat).1
       = join [LF] passwords
    /\ List.length passwords = Z.to_nat (count_of_window fresh_window)
    /\ copy_first (on_generate (fun k => k) fresh_window 0%nat).1
       = head passwords
    /\ copy_all (on_generate (fun k => k) fresh_window 0%nat).1
       = Some (join [LF] passwords)
    /\ forall path selected_filter, path <> [] ->
         exists path' file,
           on_save (on_generate (fun k => k) fresh_window 0%nat).1
             (path, selected_filter) true
           = ([Saved (len passwords) path'], Some (path', file))
           /\ (file = Csv_file ([lit "password"]
                                :: map (fun pw => [pw]) passwords)
               \/ file = Text_file
                           (concat (map (fun pw => pw ++ [LF]) passwords))).
Proof.
  apply (generated_output_round_trip (fun k => k) fresh_window
           (on_generate (fun k => k) fresh_window 0%nat).1 0%nat).
  - by vm_compute.
  - by vm_compute.
  - left. split; [by vm_compute|]. split; [by vm_compute|].
    intros _. apply (bool_decide_unpack _). by vm_compute.
Defined.

(** ** The button as a whole *)

(** X6. The button is all or nothing in both modes: it ends either in one
    error box, the window (and so the output shown before) being left as it
    was, or in no box at all and an output box that holds as many secrets
    as were asked for.  A batch of which one secret fails shows nothing of
    the others. *)
Theorem on_generate_all_or_nothing
    (entropy : nat -> nat) (w : window) (pos : nat) :
  (exists msg, on_generate entropy w pos = (w, [Error msg]))
  \/ (exists passwords,
        on_generate entropy w pos
        = (setPlainText w (join [LF] passwords), [])
        /\ List.length passwords = Z.to_nat (count_of_window w)).
Proof.
  unfold on_generate. fold (count_of_window w).
  assert (Hbatch : forall (m : M str),
            (exists msg,
               match repeat_M (Z.to_nat (count_of_window w)) m pos with
               | Ok (passwords, _) =>
                   (setPlainText w (join [LF] passwords), [])
               | Raise exc => (w, [Error (Generation_failed exc)])
               end = (w, [Error msg]))
            \/ (exists passwords,
                  match repeat_M (Z.to_nat (count_of_window w)) m pos with
                  | Ok (passwords, _) =>
                      (setPlainText w (join [LF] passwords), [])
                  | Raise exc => (w, [Error (Generation_failed exc)])
                  end = (setPlainText w (join [LF] passwords), [])
                  /\ List.length passwords = Z.to_nat (count_of_window w))).
  { intros m.
    pose proof (repeat_M_inv m (fun _ => True) (fun _ => True)
                  (Z.to_nat (count_of_window w)) pos) as Hinv.
    destruct (repeat_M _ m pos) as [[passwords pos']|e].
    - right. exists passwords. split; [done|]. by apply Hinv.
    - left. by eexists. }
  destruct (preset_combo w =? 4).
  - destruct (is_empty (wordlist w)); [left; by eexists|]. apply Hbatch.
  - destruct (negb _); [left; by eexists|].
    destruct (is_empty _); [left; by eexists|].
    destruct (_ >? _); [left; by eexists|]. apply Hbatch.
Qed.

(** X5. Which box the button shows in character mode, the minimum counts being
    what the spin boxes allow (not negative) and one secret at least being
    asked for.  The checks come in this order: no class selected; an empty
    charset; minimum counts that add up to more than the length; a symbol
    required while every symbol in use is excluded as ambiguous, which is
    the one failure left to the sampler.  When none of them applies the
    button produces its output. *)
Theorem on_generate_character_mode_boxes
    (entropy : nat -> nat) (w : window) (pos : nat) :
  preset_combo w <> 4 -> 0 < count_of_window w ->
  0 <= min_lower w -> 0 <= min_upper w -> 0 <= min_digits w ->
  0 <= min_symbols w ->
  let any :=
    chk_lower w || chk_upper w || chk_digits w || chk_symbols w in
  let total := sum_counts (req_of_window w) in
  let no_symbol :=
    chk_symbols w = true /\ min_symbols w <> 0
    /\ chk_exclude_ambiguous w = true
    /\ Forall (fun ch => ch ∈ AMBIGUOUS) (symbols_of (txt_custom_symbols w)) in
  (any = false ->
     on_generate entropy w pos = (w, [Error Select_a_character_class]))
  /\ (any = true -> charset_of_window w = [] ->
        on_generate entropy w pos
        = (w, [Error Charset_empty_after_exclusions]))
  /\ (any = true -> charset_of_window w <> [] -> total > spin_length w ->
        on_generate entropy w pos
        = (w, [Error (Total_required_exceed_length total (spin_length w))]))
  /\ (any = true -> charset_of_window w <> [] -> total <= spin_length w ->
        no_symbol ->
        on_generate entropy w pos
        = (w, [Error (Generation_failed
                        (ValueError (Requirement_but_empty_set "symbols")))]))
  /\ (any = true -> charset_of_window w <> [] -> total <= spin_length w ->
        ~ no_symbol ->
        exists passwords,
          on_generate entropy w pos
          = (setPlainText w (join [LF] passwords), [])).
Proof.
  intros Hmode Hcount Hl Hu Hd Hs any total no_symbol.
  assert (Htotal : total_required (req_of_window w) = total).
  { apply total_required_nonneg. intros key n. unfold req_of_window.
    rewrite !elem_of_cons, elem_of_nil.
    intros [Heq|[Heq|[Heq|[Heq|[]]]]]; injection Heq as -> ->;
      [destruct (chk_lower w)|destruct (chk_upper w)
      |destruct (chk_digits w)|destruct (chk_symbols w)]; lia. }
  split; [|split; [|split; [|split]]].
  - intros Hany. unfold on_generate. fold any.
    destruct (Z.eqb_spec (preset_combo w) 4) as [|_]; [done|].
    by rewrite Hany.
  - intros Hany Hcharset. unfold on_generate. fold any.
    fold (charset_of_window w).
    destruct (Z.eqb_spec (preset_combo w) 4) as [|_]; [done|].
    by rewrite Hany, Hcharset.
  - intros Hany Hcharset Hgt.
    by apply on_generate_requirement_exceeds_length.
  - intros Hany Hcharset Hle Hno.
    apply (proj2 (req_of_window_unmet w)) in Hno.
    destruct (generate_with_requirements_cases entropy (spin_length w)
                (pools_of_window w (charset_of_window w))
                (req_of_window w) (charset_of_window w) pos)
      as [[Hnil _]|[(_ & Hgt & _)|[(_ & _ & _ & key & n & Hraise & Hkey & Hun)
                                  |(_ & _ & Hmet & _)]]].
    + exact (False_ind _ (Hcharset Hnil)).
    + lia.
    + apply unmet_key_of_window in Hun as ->; [|exact Hkey].
      by apply on_generate_character_mode_raises.
    + exact (False_ind _ (Hmet Hno)).
  - intros Hany Hcharset Hle Hno.
    destruct (on_generate_character_mode_run entropy w pos)
      as (passwords & Hgen & _); try done.
    + lia.
    + by rewrite req_of_window_unmet.
    + by exists passwords.
Qed.

(** ** What a preset leaves alone *)

(** X9. [apply_preset] only writes the character controls: the word list, the
    preset and the mode chosen, the count, the passphrase settings, the
    custom symbols and the output are those of before.  It changes nothing
    at all for the presets "Custom" and "Passphrase" and when it is called
    to restore; and applying it twice is applying it once. *)
Theorem apply_preset_keeps (w : window) (apply_defaults_if_needed : bool) :
  let w1 := apply_preset w apply_defaults_if_needed in
  (wordlist w1 = wordlist w /\ preset_combo w1 = preset_combo w
   /\ cmb_mode w1 = cmb_mode w /\ spin_count w1 = spin_count w
   /\ spin_words w1 = spin_words w /\ txt_separator w1 = txt_separator w
   /\ chk_capitalize w1 = chk_capitalize w
   /\ txt_custom_symbols w1 = txt_custom_symbols w /\ out w1 = out w)
  /\ (preset_combo w = 0 \/ preset_combo w = 4
      \/ apply_defaults_if_needed = false -> w1 = w)
  /\ apply_preset w1 apply_defaults_if_needed = w1.
Proof.
  intros w1. subst w1. unfold apply_preset.
  destruct (Z.eqb_spec (preset_combo w) 4) as [H4|H4].
  { split; [done|]. split; [done|]. by rewrite (proj2 (Z.eqb_eq _ _) H4). }
  destruct apply_defaults_if_needed; cbn [negb].
  2:{ split; [done|]. split; [done|].
      by rewrite (proj2 (Z.eqb_neq _ _) H4). }
  destruct (Z.eqb_spec (preset_combo w) 0) as [H0|H0].
  { split; [done|]. split; [done|].
    by rewrite (proj2 (Z.eqb_neq _ _) H4), (proj2 (Z.eqb_eq _ _) H0). }
  destruct (Z.eqb_spec (preset_combo w) 1) as [H1|H1];
    [|destruct (Z.eqb_spec (preset_combo w) 2) as [H2|H2];
      [|destruct (Z.eqb_spec (preset_combo w) 3) as [H3|H3]]].
  - split; [done|]. split; [intros [?|[?|?]]; [lia|lia|done]|].
    cbn [preset_combo set_character_controls]. rewrite H1.
    by cbn [Z.eqb Pos.eqb].
  - split; [done|]. split; [intros [?|[?|?]]; [lia|lia|done]|].
    cbn [preset_combo set_character_controls]. rewrite H2.
    by cbn [Z.eqb Pos.eqb].
  - split; [done|]. split; [intros [?|[?|?]]; [lia|lia|done]|].
    cbn [preset_combo set_character_controls]. rewrite H3.
    by cbn [Z.eqb Pos.eqb].
  - split; [done|]. split; [done|].
    rewrite (proj2 (Z.eqb_neq _ _) H4), (proj2 (Z.eqb_neq _ _) H0),
      (proj2 (Z.eqb_neq _ _) H1), (proj2 (Z.eqb_neq _ _) H2).
    by rewrite (proj2 (Z.eqb_neq _ _) H3).
Qed.

Lemma on_generate_character_mode_boxes_witness :
  exists passwords,
    on_generate (fun k => k) fresh_window 0%nat
    = (setPlainText fresh_window (join [LF] passwords), []).
Proof.
  apply (on_generate_character_mode_boxes (fun k => k) fresh_window 0%nat);
    try (by vm_compute).
  intros (_ & _ & Hex & _). discriminate Hex.
Defined.
